(** * BlobGranuleRangesWorkload: a shallow embedding and its properties

    The workload of [fdbserver/workloads/BlobGranuleRangesWorkload.actor.cpp]
    is a set of Flow actors over one shared workload object.  Each actor is
    rendered as an interaction tree: reads and writes of the workload object,
    draws from [deterministicRandom()] and the calls on the database that an
    actor [wait]s for are events, [loop { ... }] is [ITree.iter], and an
    [ASSERT] that fails is an event without answer.  The debug output and
    the trace events are left out.  The actors of a client share the workload
    object: while an actor waits for a call, the other actors may change the
    object, and the actor goes on with the object as they have left it. *)

From Stdlib Require Import ZArith List String Ascii Bool Lia QArith Qround.
From Stdlib Require Import Zquot Sorted Permutation Relations SpecFloat.
From ITree Require Import ITree.
Import ListNotations.
Import ITreeNotations.

Set Implicit Arguments.
Local Open Scope string_scope.
Local Open Scope Z_scope.
Local Open Scope list_scope.
Local Open Scope itree_scope.

(** ** Keys and key ranges *)

Definition Key := string.

Record KeyRange : Type := KeyRangeRef { range_begin : Key; range_end : Key }.

Definition Version := Z.

(** [invalidVersion] is declared in fdbclient/FDBTypes.h, not in this file;
    it is only ever compared with the answer of [verifyBlobRange]. *)
Definition invalidVersion : Version := -1.

Definition key_lt (a b : Key) : Prop := String.compare a b = Lt.
Definition key_le (a b : Key) : Prop := String.compare a b <> Gt.

(** Two half-open ranges share a key. *)
Definition ranges_overlap (r1 r2 : KeyRange) : Prop :=
  key_lt (range_begin r1) (range_end r2) /\ key_lt (range_begin r2) (range_end r1).

Definition withSuffix (k s : Key) : Key := (k ++ s)%string.

Definition KeyRange_eqb (r1 r2 : KeyRange) : bool :=
  String.eqb (range_begin r1) (range_begin r2) && String.eqb (range_end r1) (range_end r2).

(** ** The workload object *)

(** The fields the actors read or write; [testDuration] and the futures
    [client] and [unitClient] are only used by [start] and [check]. *)

Record Workload : Type := mkWorkload {
  clientId : Z;
  clientCount : Z;
  operationsPerSecond : Z;
  targetRanges : Z;
  sequential : bool;
  sequentialGap : Z;
  stopUnitClient : bool;
  nextKey : Z;
  inactiveRanges : list KeyRange;
  activeRanges : list KeyRange
}.

Definition set_nextKey (w : Workload) (n : Z) : Workload :=
  mkWorkload (clientId w) (clientCount w) (operationsPerSecond w) (targetRanges w)
             (sequential w) (sequentialGap w) (stopUnitClient w) n
             (inactiveRanges w) (activeRanges w).

Definition set_activeRanges (w : Workload) (l : list KeyRange) : Workload :=
  mkWorkload (clientId w) (clientCount w) (operationsPerSecond w) (targetRanges w)
             (sequential w) (sequentialGap w) (stopUnitClient w) (nextKey w)
             (inactiveRanges w) l.

Definition set_inactiveRanges (w : Workload) (l : list KeyRange) : Workload :=
  mkWorkload (clientId w) (clientCount w) (operationsPerSecond w) (targetRanges w)
             (sequential w) (sequentialGap w) (stopUnitClient w) (nextKey w)
             l (activeRanges w).

Definition set_stopUnitClient (w : Workload) (b : bool) : Workload :=
  mkWorkload (clientId w) (clientCount w) (operationsPerSecond w) (targetRanges w)
             (sequential w) (sequentialGap w) b (nextKey w)
             (inactiveRanges w) (activeRanges w).

(** ** 32-bit integers and [format("%08x", _)] *)

Definition INT32_MIN : Z := - 2 ^ 31.
Definition INT32_MAX : Z := 2 ^ 31 - 1.
Definition in_int32 (z : Z) : Prop := INT32_MIN <= z <= INT32_MAX.

Definition hex_digit (d : Z) : ascii :=
  ascii_of_N (Z.to_N (if d <? 10 then 48 + d else 87 + d)).

(** [hex_fixed k v]: the [k] low hexadecimal digits of [v], most significant
    first. *)
Fixpoint hex_fixed (k : nat) (v : Z) : string :=
  match k with
  | O => EmptyString
  | S k' => String (hex_digit (Z.modulo (v / 16 ^ Z.of_nat k') 16)) (hex_fixed k' v)
  end.

(** [format("%08x", n)] for a 32-bit [n]: printf reads the argument as an
    unsigned int; a 32-bit value has at most eight digits, so the minimum
    width 8 with zero padding gives exactly eight. *)
Definition format_08x (n : Z) : string := hex_fixed 8 (n mod 2 ^ 32).

(** The number of hexadecimal digits of [v >= 0]. *)
Definition hex_len (v : Z) : nat :=
  if v =? 0 then 1%nat else Z.to_nat (Z.log2 v / 4 + 1).

(** [format("%04x", i)]: at least four digits, more when the value needs
    them. *)
Definition format_04x (i : Z) : string :=
  let v := i mod 2 ^ 32 in
  hex_fixed (Nat.max 4 (hex_len v)) v.

(** ** Doubles *)

(** A [double] is an IEEE 754 binary64 number; the operations round to the
    nearest, ties to even, each on its own. *)
Definition double := spec_float.

Definition double_mul : double -> double -> double := SFmul 53 1024.
Definition double_add : double -> double -> double := SFadd 53 1024.

(** The conversion of an [int] to [double], which is exact. *)
Definition double_of_int (n : Z) : double := binary_normalize 53 1024 n 0 false.

(** The literals [0.8] and [0.4]: the doubles nearest to 8/10 and 4/10. *)
Definition double_0_8 : double := S754_finite false 7205759403792794 (-53).
Definition double_0_4 : double := S754_finite false 7205759403792794 (-54).

(** The rational a finite double stands for. *)
Definition double_value (d : double) : Q :=
  match d with
  | S754_finite s m e =>
      let n := cond_Zopp s (Zpos m) in
      if 0 <=? e then inject_Z (n * 2 ^ e) else Qmake n (Z.to_pos (2 ^ (- e)))
  | _ => 0%Q
  end.

(** The integer part of a rational, toward zero. *)
Definition Qtrunc (q : Q) : Z := Z.quot (Qnum q) (Zpos (Qden q)).

(** The conversion of a [double] to [int]: the fractional part is discarded;
    the conversion is undefined when the integer part is no [int]. *)
Definition double_to_int (d : double) : option Z :=
  match d with
  | S754_zero _ => Some 0
  | S754_finite _ _ _ =>
      let n := Qtrunc (double_value d) in
      if (INT32_MIN <=? n) && (n <=? INT32_MAX) then Some n else None
  | S754_infinity _ | S754_nan => None
  end.

(** ** Events of an actor *)

Definition Error := Z.

Variant wlE : Type -> Type :=
(* the workload object behind [self] *)
| GetSelf : wlE Workload
| SetSelf (w : Workload) : wlE unit
(* deterministicRandom() *)
| RandomInt (min maxPlusOne : Z) : wlE Z
| Coinflip : wlE bool
| RandomExp (minExp maxExp : Z) : wlE Z
| RandomUniqueID : wlE string            (* randomUniqueID().toString() *)
| Random01 : wlE double
(* calls the actor waits for *)
| ChangeConfig (cfg : string) (force : bool) : wlE unit
| BlobbifyRange (range : KeyRange) : wlE bool
| UnblobbifyRange (range : KeyRange) : wlE bool
| PurgeBlobGranules (range : KeyRange) (version : Version)
                    (tenant : option string) (force : bool) : wlE Key
| WaitPurgeGranulesComplete (purgeKey : Key) : wlE unit
| VerifyBlobRange (range : KeyRange) (version : option Version) : wlE Version
| ListBlobbifiedRanges (range : KeyRange) (limit : Z) : wlE (list KeyRange)
| GetBlobGranuleRanges (range : KeyRange) (limit : Z) : wlE (Error + list KeyRange)
| OnError (e : Error) : wlE (option Error)
| Delay (seconds : Q) : wlE unit
| Poisson (opsPerSecond : Z) : wlE unit
(* ends of an actor other than [return] *)
| AssertFailed : wlE Empty_set
| UndefinedBehavior : wlE Empty_set      (* overflow, index or conversion out of range *)
| Throw (e : Error) : wlE Empty_set.

Definition actor (R : Type) : Type := itree wlE R.

Definition stop {R} (e : wlE Empty_set) : actor R :=
  x <- ITree.trigger e ;; match x : Empty_set with end.

(** Modelled from the spec: the macro [ASSERT] of flow/Error.h is not in this
    file; the spec has a failed assertion abort the workload, also where the
    assertion stands in the [try] block of a transaction loop. *)
Definition ASSERT (b : bool) : actor unit :=
  if b then Ret tt else stop AssertFailed.

Definition OP_LIMIT : Z := 1000000.

(** ** The actors *)

Section Actors.

(** [strinc] is declared in flow and is not part of this file; the actors
    only build range ends with it. *)
Variable strinc : Key -> Key.

(** [l[i] = x], nothing when [i] is out of range. *)
Fixpoint list_set {A} (l : list A) (i : nat) (x : A) : list A :=
  match l, i with
  | [], _ => []
  | _ :: t, O => x :: t
  | h :: t, S i' => h :: list_set t i' x
  end.

(** Modelled from the spec: [swapAndPop] of flow/Util.h is not in this file;
    the spec has it remove the element at the index in constant time without
    keeping the order: the last element takes the place of the removed one. *)
Definition swapAndPop {A} (l : list A) (index : nat) : list A :=
  match nth_error l (List.length l - 1) with
  | Some back => removelast (list_set l index back)
  | None => l
  end.

(** [nextKey += sequentialGap] is an addition of signed 32-bit integers: an
    overflow is undefined behaviour. *)
Definition newKey : actor string :=
  self <- ITree.trigger GetSelf ;;
  if sequential self then
    let n := nextKey self + sequentialGap self in
    if (INT32_MIN <=? n) && (n <=? INT32_MAX) then
      ITree.trigger (SetSelf (set_nextKey self n)) ;;
      Ret (format_08x n)
    else stop UndefinedBehavior
  else
    ITree.trigger RandomUniqueID.

Definition setRange (range : KeyRange) (active : bool) : actor bool :=
  if active then
    success <- ITree.trigger (BlobbifyRange range) ;; Ret success
  else
    success <- ITree.trigger (UnblobbifyRange range) ;; Ret success.

Definition push_active (range : KeyRange) : actor unit :=
  self <- ITree.trigger GetSelf ;;
  ITree.trigger (SetSelf (set_activeRanges self (activeRanges self ++ [range]))).

Definition push_inactive (range : KeyRange) : actor unit :=
  self <- ITree.trigger GetSelf ;;
  ITree.trigger (SetSelf (set_inactiveRanges self (inactiveRanges self ++ [range]))).

Definition registerNewRange : actor unit :=
  k <- newKey ;;
  let nextRangeKey := ("R_" ++ k)%string in
  let range := KeyRangeRef nextRangeKey (strinc nextRangeKey) in
  success <- setRange range true ;;
  ASSERT success ;;
  push_active range.

Definition unregisterRandomRange : actor unit :=
  self <- ITree.trigger GetSelf ;;
  randomRangeIdx <- ITree.trigger (RandomInt 0 (Z.of_nat (List.length (activeRanges self)))) ;;
  if 0 <=? randomRangeIdx then
    match nth_error (activeRanges self) (Z.to_nat randomRangeIdx) with
    | None => stop UndefinedBehavior
    | Some range =>
        ITree.trigger (SetSelf (set_activeRanges self
                         (swapAndPop (activeRanges self) (Z.to_nat randomRangeIdx)))) ;;
        force <- ITree.trigger Coinflip ;;
        (if force : bool then
           purgeKey <- ITree.trigger (PurgeBlobGranules range 1 None true) ;;
           ITree.trigger (WaitPurgeGranulesComplete purgeKey)
         else Ret tt) ;;
        success <- setRange range false ;;
        ASSERT success ;;
        push_inactive range
    end
  else stop UndefinedBehavior.

Definition _setup : actor unit :=
  ITree.trigger (ChangeConfig "blob_granules_enabled=1" true) ;;
  ITree.iter (fun i : Z =>
    self <- ITree.trigger GetSelf ;;
    if i <? targetRanges self then
      registerNewRange ;; Ret (inl (i + 1))
    else Ret (inr tt)) 0.

Definition blobGranuleRangesClient : actor unit :=
  ITree.iter (fun _ : unit =>
    self <- ITree.trigger GetSelf ;;
    register <- (match activeRanges self with
                 | [] => Ret true
                 | _ :: _ => ITree.trigger Coinflip
                 end) ;;
    (if register : bool then registerNewRange else unregisterRandomRange) ;;
    ITree.trigger (Poisson (operationsPerSecond self)) ;;
    Ret (inl tt)) tt.

Definition isRangeActive (range : KeyRange) : actor bool :=
  v <- ITree.trigger (VerifyBlobRange range None) ;;
  Ret (negb (v =? invalidVersion)).

(** The retry loop around [tr.getBlobGranuleRanges]: [body] holds the
    assertions of the [try] block. *)
Definition granules_retry (range : KeyRange) (body : list KeyRange -> actor unit)
  : actor unit :=
  ITree.iter (fun _ : unit =>
    res <- ITree.trigger (GetBlobGranuleRanges range OP_LIMIT) ;;
    match res with
    | inr granules => body granules ;; Ret (inr tt)
    | inl e =>
        rethrown <- ITree.trigger (OnError e) ;;
        match rethrown with
        | None => Ret (inl tt)
        | Some e' => stop (Throw e')
        end
    end) tt.

Definition key_leb (a b : Key) : bool := String.leb a b.

Fixpoint adjacent (granules : list KeyRange) : bool :=
  match granules with
  | g :: ((g' :: _) as rest) =>
      String.eqb (range_end g) (range_begin g') && adjacent rest
  | _ => true
  end.

Definition checkRange (range : KeyRange) (isActive : bool) : actor unit :=
  ITree.iter (fun _ : unit =>
    completed <- isRangeActive range ;;
    if Bool.eqb completed isActive then Ret (inr tt)
    else ITree.trigger (Delay 1%Q) ;; Ret (inl tt)) tt ;;
  blobRanges <- ITree.trigger (ListBlobbifiedRanges range OP_LIMIT) ;;
  (if isActive then
     match blobRanges with
     | [b] =>
         ASSERT (key_leb (range_begin b) (range_begin range)) ;;
         ASSERT (key_leb (range_end range) (range_end b))
     | _ => stop AssertFailed
     end
   else
     ASSERT (match blobRanges with [] => true | _ => false end)) ;;
  granules_retry range (fun granules =>
    if isActive then
      match granules with
      | [] => stop AssertFailed
      | front :: _ =>
          ASSERT (key_leb (range_begin front) (range_begin range)) ;;
          ASSERT (key_leb (range_end range) (range_end (last granules front))) ;;
          ASSERT (adjacent granules)
      end
    else
      ASSERT (match granules with [] => true | _ => false end)).

(** [_check]: the checks the [for] loop over [activeRanges] starts, as the
    arguments of [checkRange]; the loop over [inactiveRanges] is commented
    out in the source. *)
Definition _check_started (self : Workload) : list (KeyRange * bool) :=
  fold_left
    (fun checks i =>
       match nth_error (activeRanges self) i with
       | Some range => checks ++ [(range, true)]
       | None => checks
       end)
    (seq 0 (List.length (activeRanges self))) [].

Definition _check_checks (self : Workload) : list (actor unit) :=
  map (fun c => checkRange (fst c) (snd c)) (_check_started self).

Definition tearDownRangeAfterUnit (range : KeyRange) : actor unit :=
  purgeKey <- ITree.trigger (PurgeBlobGranules range 1 None true) ;;
  ITree.trigger (WaitPurgeGranulesComplete purgeKey) ;;
  success <- setRange range false ;;
  ASSERT success.

(** *** The unit scenarios *)

Definition verifyRangeUnit (range : KeyRange) : actor unit :=
  let activeRange := KeyRangeRef (withSuffix (range_begin range) "A")
                                 (withSuffix (range_begin range) "B") in
  let middleKey := withSuffix (range_begin range) "AF" in
  setSuccess <- setRange activeRange true ;;
  ASSERT setSuccess ;;
  checkRange activeRange true ;;
  success1 <- isRangeActive (KeyRangeRef (range_begin activeRange) middleKey) ;;
  ASSERT success1 ;;
  success2 <- isRangeActive (KeyRangeRef middleKey (range_end activeRange)) ;;
  ASSERT success2 ;;
  fail1 <- isRangeActive range ;;
  ASSERT (negb fail1) ;;
  fail2 <- isRangeActive (KeyRangeRef (range_begin range) (range_begin activeRange)) ;;
  ASSERT (negb fail2) ;;
  fail3 <- isRangeActive (KeyRangeRef (range_end activeRange) (range_end range)) ;;
  ASSERT (negb fail3) ;;
  fail4 <- isRangeActive (KeyRangeRef (range_begin range) middleKey) ;;
  ASSERT (negb fail4) ;;
  fail5 <- isRangeActive (KeyRangeRef middleKey (range_end range)) ;;
  ASSERT (negb fail5) ;;
  fail6 <- isRangeActive (KeyRangeRef (range_begin range) (range_end activeRange)) ;;
  ASSERT (negb fail6) ;;
  fail7 <- isRangeActive (KeyRangeRef (range_begin activeRange) (range_end range)) ;;
  ASSERT (negb fail7) ;;
  tearDownRangeAfterUnit activeRange.

(** The boundary list of [verifyRangeGapUnit]: [range.begin], then one key
    per [i] with [0 <= i < rangeCount - 1], then [range.end]. *)
Definition gap_boundaries (range : KeyRange) (rangeCount : Z) : list Key :=
  [range_begin range]
  ++ map (fun i => withSuffix (range_begin range) (format_04x (Z.of_nat i)))
         (seq 0 (Z.to_nat (rangeCount - 1)))
  ++ [range_end range].

Definition boundary_at (boundaries : list Key) (i : Z) : actor Key :=
  if 0 <=? i then
    match nth_error boundaries (Z.to_nat i) with
    | Some k => Ret k
    | None => stop UndefinedBehavior
    end
  else stop UndefinedBehavior.

Definition verifyRangeGapUnit (range : KeyRange) : actor unit :=
  e <- ITree.trigger (RandomExp 3 6) ;;
  let rangeCount := e + 1 in
  let boundaries := gap_boundaries range rangeCount in
  ASSERT (Z.of_nat (List.length boundaries) - 1 =? rangeCount) ;;
  rangeToNotBlobbify <- ITree.trigger (RandomInt 0 rangeCount) ;;
  ITree.iter (fun i : Z =>
    if i <? rangeCount then
      lo <- boundary_at boundaries i ;;
      hi <- boundary_at boundaries (i + 1) ;;
      let subRange := KeyRangeRef lo hi in
      (if negb (i =? rangeToNotBlobbify) then
         setSuccess <- setRange subRange true ;;
         ASSERT setSuccess ;;
         checkRange subRange true
       else
         checkRange subRange false) ;;
      Ret (inl (i + 1))
    else Ret (inr tt)) 0 ;;
  success <- isRangeActive range ;;
  ASSERT (negb success) ;;
  (if negb (rangeToNotBlobbify =? 0) then
     lo <- boundary_at boundaries 0 ;;
     hi <- boundary_at boundaries rangeToNotBlobbify ;;
     tearDownRangeAfterUnit (KeyRangeRef lo hi)
   else Ret tt) ;;
  (if negb (rangeToNotBlobbify =? rangeCount - 1) then
     lo <- boundary_at boundaries (rangeToNotBlobbify + 1) ;;
     hi <- boundary_at boundaries (Z.of_nat (List.length boundaries) - 1) ;;
     tearDownRangeAfterUnit (KeyRangeRef lo hi)
   else Ret tt).

Definition is_single (l : list KeyRange) (r : KeyRange) : bool :=
  match l with
  | [x] => KeyRange_eqb x r
  | _ => false
  end.

Definition rangesMisalignedUnit (range : KeyRange) : actor unit :=
  setSuccess <- setRange range true ;;
  ASSERT setSuccess ;;
  let subRange := KeyRangeRef (withSuffix (range_begin range) "A")
                              (withSuffix (range_begin range) "B") in
  blobRanges <- ITree.trigger (ListBlobbifiedRanges range OP_LIMIT) ;;
  ASSERT (is_single blobRanges range) ;;
  granules_retry range (fun granules => ASSERT (is_single granules range)) ;;
  purgeKey <- ITree.trigger (PurgeBlobGranules subRange 1 None false) ;;
  ITree.trigger (WaitPurgeGranulesComplete purgeKey) ;;
  success1 <- isRangeActive subRange ;;
  ASSERT success1 ;;
  success2 <- isRangeActive range ;;
  ASSERT success2 ;;
  forcePurgeKey <- ITree.trigger (PurgeBlobGranules subRange 1 None false) ;;
  ITree.trigger (WaitPurgeGranulesComplete forcePurgeKey) ;;
  fail1 <- isRangeActive subRange ;;
  ASSERT (negb fail1) ;;
  fail2 <- isRangeActive range ;;
  ASSERT (negb fail2) ;;
  granules_retry range (fun granules2 =>
    ASSERT (match granules2 with [] => true | _ => false end)).

Definition blobbifyIdempotentUnit (range : KeyRange) : actor unit :=
  let activeRange := KeyRangeRef (withSuffix (range_begin range) "A")
                                 (withSuffix (range_begin range) "B") in
  let middleKey := withSuffix (range_begin range) "AF" in
  let middleKey2 := withSuffix (range_begin range) "AG" in
  first <- ITree.trigger Coinflip ;;
  (if first : bool then
     unblobbifyStartSuccess <- setRange activeRange false ;;
     ASSERT unblobbifyStartSuccess
   else Ret tt) ;;
  success <- setRange activeRange true ;;
  ASSERT success ;;
  checkRange activeRange true ;;
  retrySuccess <- setRange activeRange true ;;
  ASSERT retrySuccess ;;
  checkRange activeRange true ;;
  fail1 <- setRange range true ;;
  ASSERT (negb fail1) ;;
  fail2 <- setRange (KeyRangeRef (range_begin range) (range_end activeRange)) true ;;
  ASSERT (negb fail2) ;;
  fail3 <- setRange (KeyRangeRef (range_begin activeRange) (range_end range)) true ;;
  ASSERT (negb fail3) ;;
  fail4 <- setRange (KeyRangeRef (range_begin range) middleKey) true ;;
  ASSERT (negb fail4) ;;
  fail5 <- setRange (KeyRangeRef middleKey (range_end range)) true ;;
  ASSERT (negb fail5) ;;
  fail6 <- setRange (KeyRangeRef (range_begin activeRange) middleKey) true ;;
  ASSERT (negb fail6) ;;
  fail7 <- setRange (KeyRangeRef middleKey (range_end activeRange)) true ;;
  ASSERT (negb fail7) ;;
  fail8 <- setRange (KeyRangeRef middleKey middleKey2) true ;;
  ASSERT (negb fail8) ;;
  blobRanges <- ITree.trigger (ListBlobbifiedRanges range OP_LIMIT) ;;
  ASSERT (is_single blobRanges activeRange) ;;
  granules_retry range (fun granules => ASSERT (is_single granules activeRange)) ;;
  purgeKey <- ITree.trigger (PurgeBlobGranules range 1 None true) ;;
  ITree.trigger (WaitPurgeGranulesComplete purgeKey) ;;
  unblobbifyFail1 <- setRange range false ;;
  ASSERT (negb unblobbifyFail1) ;;
  unblobbifyFail2 <- setRange (KeyRangeRef (range_begin range) (range_end activeRange)) false ;;
  ASSERT (negb unblobbifyFail2) ;;
  unblobbifyFail3 <- setRange (KeyRangeRef (range_begin activeRange) (range_end range)) false ;;
  ASSERT (negb unblobbifyFail3) ;;
  unblobbifyFail4 <- setRange (KeyRangeRef (range_begin activeRange) middleKey) false ;;
  ASSERT (negb unblobbifyFail4) ;;
  unblobbifyFail5 <- setRange (KeyRangeRef middleKey (range_end activeRange)) false ;;
  ASSERT (negb unblobbifyFail5) ;;
  unblobbifyFail6 <- setRange (KeyRangeRef (range_begin activeRange) middleKey) false ;;
  ASSERT (negb unblobbifyFail6) ;;
  unblobbifyFail7 <- setRange (KeyRangeRef middleKey (range_end activeRange)) false ;;
  ASSERT (negb unblobbifyFail7) ;;
  unblobbifyFail8 <- setRange (KeyRangeRef middleKey middleKey2) false ;;
  ASSERT (negb unblobbifyFail8) ;;
  unblobbifySuccess <- setRange activeRange true ;;
  ASSERT unblobbifySuccess ;;
  unblobbifySuccessAgain <- setRange activeRange true ;;
  ASSERT unblobbifySuccessAgain.

Definition reBlobbifyUnit (range : KeyRange) : actor unit :=
  setSuccess <- setRange range true ;;
  ASSERT setSuccess ;;
  checkRange range true ;;
  purgeKey <- ITree.trigger (PurgeBlobGranules range 1 None true) ;;
  ITree.trigger (WaitPurgeGranulesComplete purgeKey) ;;
  checkRange range false ;;
  unsetSuccess <- setRange range false ;;
  ASSERT unsetSuccess ;;
  checkRange range false ;;
  reSetSuccess <- setRange range true ;;
  ASSERT reSetSuccess ;;
  checkRange range true ;;
  tearDownRangeAfterUnit range.

Inductive UnitTestTypes : Type :=
| VERIFY_RANGE_UNIT
| VERIFY_RANGE_GAP_UNIT
| RANGES_MISALIGNED
| BLOBBIFY_IDEMPOTENT
| RE_BLOBBIFY
| OP_COUNT.

(** The enumerators as the integers C++ gives them. *)
Definition op_value (t : UnitTestTypes) : Z :=
  match t with
  | VERIFY_RANGE_UNIT => 0
  | VERIFY_RANGE_GAP_UNIT => 1
  | RANGES_MISALIGNED => 2
  | BLOBBIFY_IDEMPOTENT => 3
  | RE_BLOBBIFY => 4
  | OP_COUNT => 5
  end.

Definition excludedTypes : list UnitTestTypes :=
  [OP_COUNT; RANGES_MISALIGNED; RE_BLOBBIFY].

(** [excludedTypes.count((UnitTestTypes)op)] *)
Definition excluded_count (op : Z) : bool :=
  existsb (fun t => op_value t =? op) excludedTypes.

(** The inner loop that draws [op] until it is not excluded. *)
Definition pick_op : actor Z :=
  ITree.iter (fun loopTries : Z =>
    op <- ITree.trigger (RandomInt 0 (op_value OP_COUNT)) ;;
    if negb (excluded_count op) then Ret (inr op)
    else
      ASSERT (0 <=? loopTries - 1) ;;
      Ret (inl (loopTries - 1))) 1000.

(** The [if]/[else if] chain on [op]. *)
Definition run_unit (op : Z) (range : KeyRange) : actor unit :=
  if op =? op_value VERIFY_RANGE_UNIT then verifyRangeUnit range
  else if op =? op_value VERIFY_RANGE_GAP_UNIT then verifyRangeGapUnit range
  else if op =? op_value RANGES_MISALIGNED then rangesMisalignedUnit range
  else if op =? op_value BLOBBIFY_IDEMPOTENT then blobbifyIdempotentUnit range
  else if op =? op_value RE_BLOBBIFY then reBlobbifyUnit range
  else stop AssertFailed.

(** One pass through the body of the outer loop, after the test of
    [stopUnitClient]. *)
Definition unit_iteration : actor unit :=
  k <- newKey ;;
  let nextRangeKey := ("U_" ++ k)%string in
  let range := KeyRangeRef nextRangeKey (strinc nextRangeKey) in
  op <- pick_op ;;
  run_unit op range ;;
  ITree.trigger (Delay 1%Q).

Definition blobGranuleRangesUnitTests : actor unit :=
  ITree.iter (fun _ : unit =>
    self <- ITree.trigger GetSelf ;;
    if stopUnitClient self then Ret (inr tt)
    else unit_iteration ;; Ret (inl tt)) tt.

End Actors.

(** ** The constructor *)

(** The product of line 71, [targetRanges * (0.8 + random01() * 0.4)], for
    the draw [e] of [randomExp] and the draw [r] of [random01]: [targetRanges]
    is converted to [double] and the three operations are those of
    doubles. *)
Definition targetRanges_product (e : Z) (r : double) : double :=
  double_mul (double_of_int e) (double_add double_0_8 (double_mul r double_0_4)).

(** [targetRanges] after lines 70 to 75: the product is converted back to
    [int], which is undefined when it is out of range. *)
Definition targetRanges_of (e : Z) (r : double) (clientCount : Z) : option Z :=
  match double_to_int (targetRanges_product e r) with
  | Some targetRanges =>
      let targetRanges := Z.quot targetRanges clientCount in
      Some (if targetRanges <=? 0 then 1 else targetRanges)
  | None => None
  end.

(** [sequential] and [sequentialGap] after lines 76 to 82; [/] and [%] of
    C++ truncate toward zero. *)
Definition sequential_of (sharedRandomNumber : Z) : bool :=
  let rand := Z.quot sharedRandomNumber 10 in
  negb (Z.rem rand 2 =? 0).

Definition sequentialGap_of (sharedRandomNumber : Z) : Z :=
  let rand := Z.quot sharedRandomNumber 10 in
  let rand := Z.quot rand 2 in
  1 + Z.rem rand 2.

Definition BlobGranuleRangesWorkload
    (clientId clientCount sharedRandomNumber : Z) (opsPerSecond : option Z)
  : actor Workload :=
  dflt <- ITree.trigger (RandomInt 1 100) ;;
  let operationsPerSecond :=
    Z.quot (match opsPerSecond with Some v => v | None => dflt end) clientCount in
  let operationsPerSecond :=
    if operationsPerSecond <=? 0 then 1 else operationsPerSecond in
  let rand := sharedRandomNumber in
  e <- ITree.trigger (RandomExp 1 (1 + Z.rem rand 10)) ;;
  r <- ITree.trigger Random01 ;;
  match targetRanges_of e r clientCount with
  | Some targetRanges =>
      Ret (mkWorkload clientId clientCount operationsPerSecond
             targetRanges
             (sequential_of sharedRandomNumber)
             (sequentialGap_of sharedRandomNumber)
             false
             (10000000 * clientId)
             [] [])
  | None => stop UndefinedBehavior
  end.

(** ** Executions *)

Inductive event : Type :=
| Ev {X : Type} (e : wlE X) (x : X).
Inductive call : Type :=
| Call {X : Type} (e : wlE X).

Definition call_of (ev : event) : call :=
  match ev with Ev e _ => Call e end.

(** How an actor can be found: returned, ended by an event without answer, or
    suspended in a [wait] on a call. *)
Inductive outcome (R : Type) : Type :=
| Done (w : Workload) (r : R)
| Stopped (w : Workload) (e : wlE Empty_set)
| Suspended (w : Workload) (c : call).
Arguments Done {R} w r.
Arguments Stopped {R} w e.
Arguments Suspended {R} w c.

(** Modelled from the spec: [deterministicRandom()] of flow/IRandom.h is not
    in this file.  [random01()] is a double in [[0, 1)] (the spec:
    [uniform(0.8, 1.2)] for [0.8 + random01() * 0.4]). *)
Definition double_finite (d : double) : bool :=
  match d with
  | S754_zero _ | S754_finite _ _ _ => true
  | S754_infinity _ | S754_nan => false
  end.

Definition random01_ok (r : double) : Prop :=
  double_finite r = true /\ valid_binary 53 1024 r = true /\
  (0 <= double_value r)%Q /\ (double_value r < 1)%Q.

(** Modelled from the spec: [randomExp] of flow/IRandom.h is not in this
    file.  The spec gives [rangeCount], which is [randomExp(3, 6) + 1], the
    range [[2, 7]]: the draw of [randomExp(3, 6)] lies between 1 and 6.  Of
    [randomExp] with other arguments the spec gives no range. *)
Definition randomExp_3_6 (e : Z) : Prop := 1 <= e <= 6.

Definition randomExp_spec (minExp maxExp e : Z) : Prop :=
  minExp = 3 -> maxExp = 6 -> randomExp_3_6 e.

(** [check] drops the future [client], which cancels the client loop, sets
    [stopUnitClient] and goes on as [_check]; this is what it does to the
    workload object. *)
Definition check (self : Workload) : Workload := set_stopUnitClient self true.

(** *** What the other actors do to the workload object *)

(** No other actor: the actor runs on its own. *)
Definition alone (w w' : Workload) : Prop := w' = w.

(** Beside the driver ([_setup], then the client loop) of a client there are
    the unit runner, which calls [newKey], and [check]: in sequential mode a
    call of [newKey] that returns has added [sequentialGap] to [nextKey];
    [check] sets [stopUnitClient].  They write no other field. *)
Inductive unit_side : Workload -> Workload -> Prop :=
| unit_side_none w : unit_side w w
| unit_side_newKey w w' :
    sequential w = true ->
    in_int32 (nextKey w + sequentialGap w) ->
    unit_side (set_nextKey w (nextKey w + sequentialGap w)) w' ->
    unit_side w w'
| unit_side_check w w' : unit_side (check w) w' -> unit_side w w'.

(** The semantics leaves two things open: what [randomExp(minExp, maxExp)]
    may return, [randomExp_ok minExp maxExp e], and what the other actors
    may do to the workload object while an actor waits for a call,
    [others w w'].  A property stated for every [randomExp_ok] and every
    [others] holds whatever [randomExp] returns and whatever the other
    actors do. *)
Section Model.
Variable randomExp_ok : Z -> Z -> Z -> Prop.
Variable others : Workload -> Workload -> Prop.

Section Steps.
Context {R : Type}.
Variable rec : Workload -> actor R -> list event -> outcome R -> Prop.

(** A draw from the random source is answered at once. *)
Definition draw_step (w : Workload) {X} (e : wlE X) (ok : X -> Prop)
    (k : X -> actor R) (tr : list event) (o : outcome R) : Prop :=
  exists x tr', ok x /\ tr = Ev e x :: tr' /\ rec w (k x) tr' o.

(** A call that is waited for: the actor is suspended on it, or it is
    answered and the actor goes on, with the workload object as the other
    actors have left it in the meantime. *)
Definition wait_step (w : Workload) {X} (e : wlE X)
    (k : X -> actor R) (tr : list event) (o : outcome R) : Prop :=
  (tr = [] /\ o = Suspended w (Call e)) \/
  exists x w' tr', others w w' /\ tr = Ev e x :: tr' /\ rec w' (k x) tr' o.

Definition stop_step (w : Workload) (e : wlE Empty_set)
    (tr : list event) (o : outcome R) : Prop :=
  tr = [] /\ o = Stopped w e.

(** Modelled from the spec: [deterministicRandom()] of flow/IRandom.h is not
    in this file.  [randomInt(min, maxPlusOne)] is uniform in
    [[min, maxPlusOne)] (the spec: "default uniform in [1, 100)" for
    [randomInt(1, 100)]); [random01()] and [randomExp] are as above. *)
Definition vis_step (w : Workload) {X} (e : wlE X)
  : (X -> actor R) -> list event -> outcome R -> Prop :=
  match e in wlE X return (X -> actor R) -> list event -> outcome R -> Prop with
  | GetSelf => fun k tr o => rec w (k w) tr o
  | SetSelf w' => fun k tr o => rec w' (k tt) tr o
  | RandomInt lo hi => draw_step w (RandomInt lo hi) (fun v => lo <= v < hi)
  | Coinflip => draw_step w Coinflip (fun _ => True)
  | RandomExp a b => draw_step w (RandomExp a b) (randomExp_ok a b)
  | RandomUniqueID => draw_step w RandomUniqueID (fun _ => True)
  | Random01 => draw_step w Random01 random01_ok
  | ChangeConfig c f => wait_step w (ChangeConfig c f)
  | BlobbifyRange r => wait_step w (BlobbifyRange r)
  | UnblobbifyRange r => wait_step w (UnblobbifyRange r)
  | PurgeBlobGranules r v t f => wait_step w (PurgeBlobGranules r v t f)
  | WaitPurgeGranulesComplete p => wait_step w (WaitPurgeGranulesComplete p)
  | VerifyBlobRange r v => wait_step w (VerifyBlobRange r v)
  | ListBlobbifiedRanges r l => wait_step w (ListBlobbifiedRanges r l)
  | GetBlobGranuleRanges r l => wait_step w (GetBlobGranuleRanges r l)
  | OnError e' => wait_step w (OnError e')
  | Delay d => wait_step w (Delay d)
  | Poisson m => wait_step w (Poisson m)
  | AssertFailed => fun _ => stop_step w AssertFailed
  | UndefinedBehavior => fun _ => stop_step w UndefinedBehavior
  | Throw e' => fun _ => stop_step w (Throw e')
  end.

End Steps.

(** [exec n w t tr o]: started with the workload object in state [w], the
    actor [t] can, in fewer than [n] steps and with the answers recorded in
    [tr], be found as [o]. *)
Fixpoint exec {R} (n : nat) (w : Workload) (t : actor R)
    (tr : list event) (o : outcome R) {struct n} : Prop :=
  match n with
  | O => False
  | S n' =>
      match observe t with
      | RetF r => tr = [] /\ o = Done w r
      | TauF t' => exec n' w t' tr o
      | VisF e k => vis_step (exec n') w e k tr o
      end
  end.

(** What an execution that started after history [h] establishes: [Q] when
    the actor has returned, [I] where it is suspended. *)
Definition post {R} (Q : Workload -> list event -> R -> Prop)
    (I : Workload -> list event -> call -> Prop)
    (h tr : list event) (o : outcome R) : Prop :=
  match o with
  | Done w r => Q w (h ++ tr) r
  | Stopped _ _ => True
  | Suspended w c => I w (h ++ tr) c
  end.

(** [wp t Q I w h]: every execution of [t] from state [w], the events [h]
    having happened before, satisfies [I] at each suspension and [Q] on
    return. *)
Definition wp {R} (t : actor R) (Q : Workload -> list event -> R -> Prop)
    (I : Workload -> list event -> call -> Prop)
    (w : Workload) (h : list event) : Prop :=
  forall n tr o, exec n w t tr o -> post Q I h tr o.

(** What has to hold of the continuation [k] of an event [e]. *)
Definition vis_wp {R} (Q : Workload -> list event -> R -> Prop)
    (I : Workload -> list event -> call -> Prop)
    (w : Workload) (h : list event) {X} (e : wlE X)
  : (X -> actor R) -> Prop :=
  let draw {X} (e : wlE X) (ok : X -> Prop) (k : X -> actor R) :=
    forall x, ok x -> wp (k x) Q I w (h ++ [Ev e x]) in
  let wait {X} (e : wlE X) (k : X -> actor R) :=
    I w h (Call e) /\
    forall x w', others w w' -> wp (k x) Q I w' (h ++ [Ev e x]) in
  match e in wlE X return (X -> actor R) -> Prop with
  | GetSelf => fun k => wp (k w) Q I w h
  | SetSelf w' => fun k => wp (k tt) Q I w' h
  | RandomInt lo hi => draw (RandomInt lo hi) (fun v => lo <= v < hi)
  | Coinflip => draw Coinflip (fun _ => True)
  | RandomExp a b => draw (RandomExp a b) (randomExp_ok a b)
  | RandomUniqueID => draw RandomUniqueID (fun _ => True)
  | Random01 => draw Random01 random01_ok
  | ChangeConfig c f => wait (ChangeConfig c f)
  | BlobbifyRange r => wait (BlobbifyRange r)
  | UnblobbifyRange r => wait (UnblobbifyRange r)
  | PurgeBlobGranules r v t f => wait (PurgeBlobGranules r v t f)
  | WaitPurgeGranulesComplete p => wait (WaitPurgeGranulesComplete p)
  | VerifyBlobRange r v => wait (VerifyBlobRange r v)
  | ListBlobbifiedRanges r l => wait (ListBlobbifiedRanges r l)
  | GetBlobGranuleRanges r l => wait (GetBlobGranuleRanges r l)
  | OnError e' => wait (OnError e')
  | Delay d => wait (Delay d)
  | Poisson m => wait (Poisson m)
  | AssertFailed => fun _ => True
  | UndefinedBehavior => fun _ => True
  | Throw _ => fun _ => True
  end.

(** The three ways through [x <- t ;; k x]. *)
Definition bind_cases {R S}
    (ex : list event -> outcome R -> Prop)
    (exk : Workload -> R -> list event -> outcome S -> Prop)
    (tr : list event) (o : outcome S) : Prop :=
  (exists w' r tr1 tr2, ex tr1 (Done w' r) /\ exk w' r tr2 o /\ tr = tr1 ++ tr2)
  \/ (exists w' e, ex tr (Stopped w' e) /\ o = Stopped w' e)
  \/ (exists w' c, ex tr (Suspended w' c) /\ o = Suspended w' c).

(** ** Calls and events by kind *)

(** The events an actor waits for. *)
Definition waited {X} (e : wlE X) : bool :=
  match e with
  | ChangeConfig _ _ | BlobbifyRange _ | UnblobbifyRange _
  | PurgeBlobGranules _ _ _ _ | WaitPurgeGranulesComplete _ | VerifyBlobRange _ _
  | ListBlobbifiedRanges _ _ | GetBlobGranuleRanges _ _ | OnError _
  | Delay _ | Poisson _ => true
  | _ => false
  end.

Definition is_wait (ev : event) : bool :=
  match ev with Ev e _ => waited e end.

(** The range a call is made on. *)
Definition call_range (c : call) : option KeyRange :=
  match c with
  | Call (BlobbifyRange r) | Call (UnblobbifyRange r)
  | Call (PurgeBlobGranules r _ _ _) | Call (VerifyBlobRange r _)
  | Call (ListBlobbifiedRanges r _) | Call (GetBlobGranuleRanges r _) => Some r
  | Call _ => None
  end.

(** A purge with [force] set. *)
Definition forced_purge (c : call) : bool :=
  match c with
  | Call (PurgeBlobGranules _ _ _ force) => force
  | Call _ => false
  end.

(** The formula of the spec for [targetRanges], with rounding to the
    nearest integer, to be compared with [targetRanges_of]. *)
Definition Qround_nearest (q : Q) : Z := Qfloor (q + (1 # 2)).

Definition targetRanges_spec (e : Z) (r : Q) (clientCount : Z) : Z :=
  Z.max 1 (Qround_nearest
             (inject_Z e * ((8 # 10) + r * (4 # 10)) / inject_Z clientCount)).

(** [safe P t]: [t] is only ever suspended on calls that satisfy [P]. *)
Definition safe {R} (P : call -> Prop) (t : actor R) : Prop :=
  forall w h, wp t (fun _ _ _ => True) (fun _ _ c => P c) w h.

(** ** Runs of the key generator *)

(** [keys_run w ks w']: successive calls of [newKey], the first with the
    workload object in state [w], return the keys [ks] and leave it in
    state [w']. *)
Inductive keys_run : Workload -> list string -> Workload -> Prop :=
| keys_run_nil w : keys_run w [] w
| keys_run_cons w w1 w' k ks n tr :
    exec n w newKey tr (Done w1 k) ->
    keys_run w1 ks w' ->
    keys_run w (k :: ks) w'.

(** The range [registerNewRange] (prefix ["R_"]) and the unit runner (prefix
    ["U_"]) build from a key. *)
Definition key_range (strinc : Key -> Key) (prefix k : string) : KeyRange :=
  let nextRangeKey := (prefix ++ k)%string in
  KeyRangeRef nextRangeKey (strinc nextRangeKey).

(** What the disjointness of ranges needs of [strinc]: among keys of one
    length, the end of the range of a key is not above the next key. *)
Definition strinc_below_next (strinc : Key -> Key) : Prop :=
  forall a b, String.length a = String.length b -> key_lt a b -> key_le (strinc a) b.

(** Modelled from the spec: [strinc] of flow is not in this file; the spec
    has the end of a registered range be its begin followed by a zero
    byte. *)
Definition strinc_spec (k : Key) : Key := (k ++ String Ascii.zero EmptyString)%string.

(** ** The unit runner *)

(** What a pass through the body of the unit-runner loop comes to: it went
    on from a key [k] and an [op] drawn by [pick_op] as one of
    [verifyRangeUnit], [verifyRangeGapUnit] and [blobbifyIdempotentUnit] on
    the range of [k], followed by the delay; or it ended while the key or
    [op] was drawn, without any call on the database. *)
Definition unit_dispatched (strinc : Key -> Key) (n : nat) (w : Workload)
    (tr : list event) (o : outcome unit) : Prop :=
  (exists w1 k tr1 w2 op tr2 tr3,
      exec n w newKey tr1 (Done w1 k) /\
      exec n w1 pick_op tr2 (Done w2 op) /\
      tr = tr1 ++ tr2 ++ tr3 /\
      let range := key_range strinc "U_" k in
      ((op = op_value VERIFY_RANGE_UNIT /\
        exec n w2 (verifyRangeUnit range ;; ITree.trigger (Delay 1%Q)) tr3 o) \/
       (op = op_value VERIFY_RANGE_GAP_UNIT /\
        exec n w2 (verifyRangeGapUnit range ;; ITree.trigger (Delay 1%Q)) tr3 o) \/
       (op = op_value BLOBBIFY_IDEMPOTENT /\
        exec n w2 (blobbifyIdempotentUnit range ;; ITree.trigger (Delay 1%Q)) tr3 o)))
  \/
  ((exists w' e, o = Stopped w' e) /\ Forall (fun ev => is_wait ev = false) tr).

(** The calls of [blobbifyIdempotentUnit] from the forced purge on, with the
    answers that let every assertion pass. *)
Definition idempotent_tail (range : KeyRange) (purgeKey : Key) : list event :=
  let activeRange := KeyRangeRef (withSuffix (range_begin range) "A")
                                 (withSuffix (range_begin range) "B") in
  let middleKey := withSuffix (range_begin range) "AF" in
  let middleKey2 := withSuffix (range_begin range) "AG" in
  [ Ev (PurgeBlobGranules range 1 None true) purgeKey;
    Ev (WaitPurgeGranulesComplete purgeKey) tt;
    Ev (UnblobbifyRange range) false;
    Ev (UnblobbifyRange (KeyRangeRef (range_begin range) (range_end activeRange))) false;
    Ev (UnblobbifyRange (KeyRangeRef (range_begin activeRange) (range_end range))) false;
    Ev (UnblobbifyRange (KeyRangeRef (range_begin activeRange) middleKey)) false;
    Ev (UnblobbifyRange (KeyRangeRef middleKey (range_end activeRange))) false;
    Ev (UnblobbifyRange (KeyRangeRef (range_begin activeRange) middleKey)) false;
    Ev (UnblobbifyRange (KeyRangeRef middleKey (range_end activeRange))) false;
    Ev (UnblobbifyRange (KeyRangeRef middleKey middleKey2)) false;
    Ev (BlobbifyRange activeRange) true;
    Ev (BlobbifyRange activeRange) true ].

(** ** The driver and its history *)

(** [_setup] in the setup phase, then [blobGranuleRangesClient]. *)
Definition driver (strinc : Key -> Key) : actor unit :=
  _setup strinc ;; blobGranuleRangesClient strinc.

(** A purge or an [unblobbifyRange] on [r]; a [blobbifyRange] on [r] answered
    true; the identifiers drawn in a history. *)
Definition touches (r : KeyRange) (c : call) : bool :=
  match c with
  | Call (PurgeBlobGranules r' _ _ _) | Call (UnblobbifyRange r') => KeyRange_eqb r' r
  | Call _ => false
  end.

Definition blobbified (r : KeyRange) (ev : event) : bool :=
  match ev with
  | Ev (BlobbifyRange r') success => KeyRange_eqb r' r && success
  | Ev _ _ => false
  end.

Definition registered_untouched (r : KeyRange) (h : list event) (pending : list call)
  : Prop :=
  exists h1 ev h2,
    h = h1 ++ ev :: h2 /\
    blobbified r ev = true /\
    Forall (fun c => touches r c = false) (map call_of h2 ++ pending).

Definition uid_of (ev : event) : option string :=
  match ev with
  | Ev RandomUniqueID u => Some u
  | Ev _ _ => None
  end.

Fixpoint uids (h : list event) : list string :=
  match h with
  | [] => []
  | ev :: h' =>
      match uid_of ev with
      | Some u => u :: uids h'
      | None => uids h'
      end
  end.

(** ** The invariant of the driver *)

Section DriverInvariantDefs.
Variable strinc : Key -> Key.
Variable seq0 : bool.
Variable gap0 : Z.

(** Where the range of an entry of [activeRanges] comes from. *)
Definition prov (r : KeyRange) (w : Workload) (h : list event) : Prop :=
  if seq0 then
    exists z, z <= nextKey w /\ in_int32 z /\ r = key_range strinc "R_" (format_08x z)
  else
    exists u, In u (uids h) /\ r = key_range strinc "R_" u.

Definition facts (P : KeyRange -> Prop) (w : Workload) (h : list event) : Prop :=
  NoDup (activeRanges w) /\
  forall r, In r (activeRanges w) ->
            registered_untouched r h [] /\ prov r w h /\ P r.

Definition inv (P : KeyRange -> Prop) (w : Workload) (h : list event) : Prop :=
  sequential w = seq0 /\ sequentialGap w = gap0 /\
  (NoDup (uids h) -> facts P w h).

End DriverInvariantDefs.

(** What holds where the driver is suspended on the call [c]. *)
Definition at_call (w : Workload) (h : list event) (c : call) : Prop :=
  NoDup (uids h) ->
  forall r, In r (activeRanges w) -> registered_untouched r h [c].

(** ** The arguments of a purge *)

(** A call that is no purge, or a purge at version 1 without tenant. *)
Definition purge_args_ok (c : call) : bool :=
  match c with
  | Call (PurgeBlobGranules _ version tenant _) =>
      (version =? 1) && match tenant with None => true | Some _ => false end
  | Call _ => true
  end.

(** The actors of the workload that call the database. *)
Inductive workload_actor (strinc : Key -> Key) : actor unit -> Prop :=
| wa_setup : workload_actor strinc (_setup strinc)
| wa_client : workload_actor strinc (blobGranuleRangesClient strinc)
| wa_unregister : workload_actor strinc unregisterRandomRange
| wa_check range isActive : workload_actor strinc (checkRange range isActive)
| wa_unit_tests : workload_actor strinc (blobGranuleRangesUnitTests strinc)
| wa_tearDown range : workload_actor strinc (tearDownRangeAfterUnit range)
| wa_verifyRange range : workload_actor strinc (verifyRangeUnit range)
| wa_verifyRangeGap range : workload_actor strinc (verifyRangeGapUnit range)
| wa_rangesMisaligned range : workload_actor strinc (rangesMisalignedUnit range)
| wa_blobbifyIdempotent range : workload_actor strinc (blobbifyIdempotentUnit range)
| wa_reBlobbify range : workload_actor strinc (reBlobbifyUnit range).

Definition purge_ok (c : call) : Prop := purge_args_ok c = true.

(** ** Values for the examples *)

Definition w_init : Workload := mkWorkload 0 1 1 1 true 1 false 0 [] [].

(** The doubles 0.5 and 0.25, and the double just below 0.5. *)
Definition double_half : double := S754_finite false 4503599627370496 (-53).
Definition double_quarter : double := S754_finite false 4503599627370496 (-54).
Definition double_below_half : double := S754_finite false 9007199254740991 (-54).

(** The three draws of the constructor. *)
Definition ctor_draws (seed dflt e : Z) (r : double) : list event :=
  [Ev (RandomInt 1 100) dflt; Ev (RandomExp 1 (1 + Z.rem seed 10)) e; Ev Random01 r].

(** What the constructor builds for client 0 of 1 from seed 30, and from
    seed -30. *)
Definition w_seed_30 : Workload := mkWorkload 0 1 10 2 true 2 false 0 [] [].
Definition w_seed_m30 : Workload := mkWorkload 0 1 10 2 true 0 false 0 [] [].

(** What it builds from seed 30 when [randomExp] draws 5 and [random01] the
    double just below 0.5. *)
Definition w_seed_30_e5 : Workload := mkWorkload 0 1 10 5 true 2 false 0 [] [].

(** The two clients of a run with seed 30. *)
Definition w_client0 : Workload := mkWorkload 0 2 5 1 true 2 false 0 [] [].
Definition w_client1 : Workload := mkWorkload 1 2 5 1 true 2 false 10000000 [] [].

(** The two clients of a run with seed -30. *)
Definition w_m30_client0 : Workload := mkWorkload 0 2 5 1 true 0 false 0 [] [].
Definition w_m30_client1 : Workload := mkWorkload 1 2 5 1 true 0 false 10000000 [] [].

(** A unit range and the range the scenarios blobbify inside it. *)
Definition range_U : KeyRange := KeyRangeRef "U_00000002" "U_00000003".
Definition range_UA : KeyRange := KeyRangeRef "U_00000002A" "U_00000002B".

(** A run of [rangesMisalignedUnit] up to its second purge. *)
Definition misaligned_trace : list event :=
  [ Ev (BlobbifyRange range_U) true;
    Ev (ListBlobbifiedRanges range_U OP_LIMIT) [range_U];
    Ev (GetBlobGranuleRanges range_U OP_LIMIT) (inr [range_U]);
    Ev (PurgeBlobGranules range_UA 1 None false) "purge1";
    Ev (WaitPurgeGranulesComplete "purge1") tt;
    Ev (VerifyBlobRange range_UA None) 7;
    Ev (VerifyBlobRange range_U None) 7 ].

(** A workload object at check time. *)
Definition w_checked : Workload :=
  mkWorkload 0 1 1 1 true 1 false 4 [range_UA] [range_U].

(** A pass that draws the excluded 4 and 2, then 3, and is suspended on the
    first call of [blobbifyIdempotentUnit]. *)
Definition unit_pass_trace : list event :=
  [Ev (RandomInt 0 5) 4; Ev (RandomInt 0 5) 2; Ev (RandomInt 0 5) 3; Ev Coinflip false].

(** A full run of [blobbifyIdempotentUnit] on [range_U]: the part before the
    forced purge. *)
Definition idempotent_head : list event :=
  [ Ev Coinflip false;
    Ev (BlobbifyRange range_UA) true;
    Ev (VerifyBlobRange range_UA None) 7;
    Ev (ListBlobbifiedRanges range_UA OP_LIMIT) [range_UA];
    Ev (GetBlobGranuleRanges range_UA OP_LIMIT) (inr [range_UA]);
    Ev (BlobbifyRange range_UA) true;
    Ev (VerifyBlobRange range_UA None) 7;
    Ev (ListBlobbifiedRanges range_UA OP_LIMIT) [range_UA];
    Ev (GetBlobGranuleRanges range_UA OP_LIMIT) (inr [range_UA]);
    Ev (BlobbifyRange range_U) false;
    Ev (BlobbifyRange (KeyRangeRef "U_00000002" "U_00000002B")) false;
    Ev (BlobbifyRange (KeyRangeRef "U_00000002A" "U_00000003")) false;
    Ev (BlobbifyRange (KeyRangeRef "U_00000002" "U_00000002AF")) false;
    Ev (BlobbifyRange (KeyRangeRef "U_00000002AF" "U_00000003")) false;
    Ev (BlobbifyRange (KeyRangeRef "U_00000002A" "U_00000002AF")) false;
    Ev (BlobbifyRange (KeyRangeRef "U_00000002AF" "U_00000002B")) false;
    Ev (BlobbifyRange (KeyRangeRef "U_00000002AF" "U_00000002AG")) false;
    Ev (ListBlobbifiedRanges range_U OP_LIMIT) [range_UA];
    Ev (GetBlobGranuleRanges range_U OP_LIMIT) (inr [range_UA]) ].

(** A run of the driver of client 0: one range registered by [_setup], one
    by the client loop, then the first unregistered with a forced purge. *)
Definition driver_trace : list event :=
  [ Ev (ChangeConfig "blob_granules_enabled=1" true) tt;
    Ev (BlobbifyRange (key_range strinc_spec "R_" "00000002")) true;
    Ev Coinflip true;
    Ev (BlobbifyRange (key_range strinc_spec "R_" "00000004")) true;
    Ev (Poisson 5) tt;
    Ev Coinflip false;
    Ev (RandomInt 0 2) 0;
    Ev Coinflip true ].

Definition w_driver : Workload :=
  mkWorkload 0 2 5 1 true 2 false 4 [] [key_range strinc_spec "R_" "00000004"].

(** The same run when the unit runner of client 0 draws the key 00000004
    while the driver waits for its first [blobbifyRange]: the next key of
    the driver is 00000006. *)
Definition driver_trace_beside : list event :=
  [ Ev (ChangeConfig "blob_granules_enabled=1" true) tt;
    Ev (BlobbifyRange (key_range strinc_spec "R_" "00000002")) true;
    Ev Coinflip true;
    Ev (BlobbifyRange (key_range strinc_spec "R_" "00000006")) true;
    Ev (Poisson 5) tt;
    Ev Coinflip false;
    Ev (RandomInt 0 2) 0;
    Ev Coinflip true ].

Definition w_driver_beside : Workload :=
  mkWorkload 0 2 5 1 true 2 false 6 [] [key_range strinc_spec "R_" "00000006"].

(** The driver of a client built from seed -30 ([sequentialGap = 0]): both
    registrations of [_setup] are on the range of the key 00000000; the
    client loop then unregisters one of the two entries. *)
Definition dup_trace : list event :=
  [ Ev (ChangeConfig "blob_granules_enabled=1" true) tt;
    Ev (BlobbifyRange (key_range strinc_spec "R_" "00000000")) true;
    Ev (BlobbifyRange (key_range strinc_spec "R_" "00000000")) true;
    Ev Coinflip false;
    Ev (RandomInt 0 2) 0;
    Ev Coinflip false ].

Definition w_dup : Workload :=
  mkWorkload 0 1 10 2 true 0 false 0 [] [key_range strinc_spec "R_" "00000000"].

(** ** Executions with their ends *)

(** As [post], with a condition [E] on the event that has ended the actor. *)
Definition postx {R} (Q : Workload -> list event -> R -> Prop)
    (I : Workload -> list event -> call -> Prop)
    (E : Workload -> list event -> wlE Empty_set -> Prop)
    (h tr : list event) (o : outcome R) : Prop :=
  match o with
  | Done w r => Q w (h ++ tr) r
  | Stopped w e => E w (h ++ tr) e
  | Suspended w c => I w (h ++ tr) c
  end.

Definition wpx {R} (t : actor R) (Q : Workload -> list event -> R -> Prop)
    (I : Workload -> list event -> call -> Prop)
    (E : Workload -> list event -> wlE Empty_set -> Prop)
    (w : Workload) (h : list event) : Prop :=
  forall n tr o, exec n w t tr o -> postx Q I E h tr o.

Definition vis_wpx {R} (Q : Workload -> list event -> R -> Prop)
    (I : Workload -> list event -> call -> Prop)
    (E : Workload -> list event -> wlE Empty_set -> Prop)
    (w : Workload) (h : list event) {X} (e : wlE X)
  : (X -> actor R) -> Prop :=
  let draw {X} (e : wlE X) (ok : X -> Prop) (k : X -> actor R) :=
    forall x, ok x -> wpx (k x) Q I E w (h ++ [Ev e x]) in
  let wait {X} (e : wlE X) (k : X -> actor R) :=
    I w h (Call e) /\
    forall x w', others w w' -> wpx (k x) Q I E w' (h ++ [Ev e x]) in
  match e in wlE X return (X -> actor R) -> Prop with
  | GetSelf => fun k => wpx (k w) Q I E w h
  | SetSelf w' => fun k => wpx (k tt) Q I E w' h
  | RandomInt lo hi => draw (RandomInt lo hi) (fun v => lo <= v < hi)
  | Coinflip => draw Coinflip (fun _ => True)
  | RandomExp a b => draw (RandomExp a b) (randomExp_ok a b)
  | RandomUniqueID => draw RandomUniqueID (fun _ => True)
  | Random01 => draw Random01 random01_ok
  | ChangeConfig c f => wait (ChangeConfig c f)
  | BlobbifyRange r => wait (BlobbifyRange r)
  | UnblobbifyRange r => wait (UnblobbifyRange r)
  | PurgeBlobGranules r v t f => wait (PurgeBlobGranules r v t f)
  | WaitPurgeGranulesComplete p => wait (WaitPurgeGranulesComplete p)
  | VerifyBlobRange r v => wait (VerifyBlobRange r v)
  | ListBlobbifiedRanges r l => wait (ListBlobbifiedRanges r l)
  | GetBlobGranuleRanges r l => wait (GetBlobGranuleRanges r l)
  | OnError e' => wait (OnError e')
  | Delay d => wait (Delay d)
  | Poisson m => wait (Poisson m)
  | AssertFailed => fun _ => E w h AssertFailed
  | UndefinedBehavior => fun _ => E w h UndefinedBehavior
  | Throw e' => fun _ => E w h (Throw e')
  end.

(** The workload object an actor is found with. *)
Definition outcome_state {R} (o : outcome R) : Workload :=
  match o with
  | Done w _ | Stopped w _ | Suspended w _ => w
  end.

(** ** The draws of [pick_op] *)

Definition op_draw (op : Z) : event := Ev (RandomInt 0 (op_value OP_COUNT)) op.

(** What [pick_op] can come to after the draws [ops]: it has returned the
    last draw, the ones before being excluded; or the assertion on
    [loopTries] has failed after 1001 excluded draws. *)
Definition pick_op_outcome (w : Workload) (ops : list Z) (o : outcome Z) : Prop :=
  match o with
  | Done w' op =>
      w' = w /\ excluded_count op = false /\
      exists rejected, ops = rejected ++ [op] /\
                       Forall (fun x => excluded_count x = true) rejected
  | Stopped w' e =>
      w' = w /\ e = AssertFailed /\ List.length ops = 1001%nat /\
      Forall (fun x => excluded_count x = true) ops
  | Suspended _ _ => False
  end.

(** ** The ends of the driver *)

(** How the driver can end: an assertion on the answer of [blobbifyRange] or
    [unblobbifyRange], the answer being false, or the overflow of [nextKey]
    in [newKey]. *)
Definition driver_end (w : Workload) (h : list event) (e : wlE Empty_set) : Prop :=
  (e = AssertFailed /\
   exists h0 r, h = h0 ++ [Ev (BlobbifyRange r) false] \/
                h = h0 ++ [Ev (UnblobbifyRange r) false]) \/
  (e = UndefinedBehavior /\ sequential w = true /\
   ~ in_int32 (nextKey w + sequentialGap w)).

Definition driver_outcome (tr : list event) (o : outcome unit) : Prop :=
  match o with
  | Done _ _ => False
  | Stopped w e => driver_end w tr e
  | Suspended _ _ => True
  end.

(** ** The books of the driver *)

(** The range of a [blobbifyRange] answered true, of an [unblobbifyRange]
    answered true; the ranges of such events in a history, in order. *)
Definition blobbify_ok (ev : event) : option KeyRange :=
  match ev with
  | Ev (BlobbifyRange r) success => if success then Some r else None
  | Ev _ _ => None
  end.

Definition unblobbify_ok (ev : event) : option KeyRange :=
  match ev with
  | Ev (UnblobbifyRange r) success => if success then Some r else None
  | Ev _ _ => None
  end.

Fixpoint ranges_of (f : event -> option KeyRange) (h : list event) : list KeyRange :=
  match h with
  | [] => []
  | ev :: h' =>
      match f ev with
      | Some r => r :: ranges_of f h'
      | None => ranges_of f h'
      end
  end.

(** The ranges that are in neither list while the driver waits on a call:
    the range [unregisterRandomRange] has taken out of [activeRanges], until
    it is put into [inactiveRanges]. *)
Definition in_flight (c : call) (fl : list KeyRange) : Prop :=
  match c with
  | Call (UnblobbifyRange r) => fl = [r]
  | Call (PurgeBlobGranules r _ _ _) => fl = [r]
  | Call (WaitPurgeGranulesComplete _) => exists r, fl = [r]
  | Call _ => fl = []
  end.

Definition books (w : Workload) (h : list event) (fl : list KeyRange) : Prop :=
  Permutation (ranges_of blobbify_ok h) (fl ++ activeRanges w ++ inactiveRanges w) /\
  inactiveRanges w = ranges_of unblobbify_ok h.

Definition books_at (w : Workload) (h : list event) (c : call) : Prop :=
  exists fl, in_flight c fl /\ books w h fl.

(** A run of [_setup] for client 0 of [w_client0], whose [targetRanges] is 1. *)
Definition setup_trace : list event :=
  [ Ev (ChangeConfig "blob_granules_enabled=1" true) tt;
    Ev (BlobbifyRange (key_range strinc_spec "R_" "00000002")) true ].

Definition w_setup_done : Workload :=
  mkWorkload 0 2 5 1 true 2 false 2 [] [key_range strinc_spec "R_" "00000002"].

(** ** Actors that leave the workload object alone *)

(** [keeps t]: [t] does not write the workload object: whatever holds of
    the object when [t] starts, and is not undone by the other actors, holds
    of it however [t] is found. *)
Definition keeps {R} (t : actor R) : Prop :=
  forall (P : Workload -> Prop),
    (forall w w', others w w' -> P w -> P w') ->
    forall w h,
      P w ->
      wpx t (fun w' _ _ => P w') (fun w' _ _ => P w') (fun w' _ _ => P w') w h.

Definition writes_self {X} (e : wlE X) : bool :=
  match e with
  | SetSelf _ => true
  | _ => false
  end.

(** The workload object [w'] is [w] but for [nextKey], which has not
    decreased. *)
Definition nextKey_advanced (w w' : Workload) : Prop :=
  w' = set_nextKey w (nextKey w') /\ nextKey w <= nextKey w'.

(** ** What a check that returns has seen *)

(** The key [k] lies in the range [r]; the granules cover the range. *)
Definition in_range (k : Key) (r : KeyRange) : Prop :=
  key_le (range_begin r) k /\ key_lt k (range_end r).

Definition covers (granules : list KeyRange) (range : KeyRange) : Prop :=
  forall k, in_range k range -> exists g, In g granules /\ in_range k g.

(** The answers in the trace of a [checkRange] that has returned: the last
    event is the answer of [getBlobGranuleRanges]; before it
    [verifyBlobRange] and [listBlobbifiedRanges] have given an answer that
    agrees with [isActive]. *)
Definition check_passed (range : KeyRange) (isActive : bool) (tr : list event) : Prop :=
  if isActive then
    exists tr0 granules v b,
      tr = tr0 ++ [Ev (GetBlobGranuleRanges range OP_LIMIT) (inr granules)] /\
      In (Ev (VerifyBlobRange range None) v) tr0 /\ v <> invalidVersion /\
      In (Ev (ListBlobbifiedRanges range OP_LIMIT) [b]) tr0 /\
      key_le (range_begin b) (range_begin range) /\
      key_le (range_end range) (range_end b) /\
      adjacent granules = true /\
      covers granules range
  else
    exists tr0,
      tr = tr0 ++ [Ev (GetBlobGranuleRanges range OP_LIMIT) (inr [])] /\
      In (Ev (VerifyBlobRange range None) invalidVersion) tr0 /\
      In (Ev (ListBlobbifiedRanges range OP_LIMIT) []) tr0.

(** A check of [range_U] that polls twice and meets one transaction error. *)
Definition check_trace : list event :=
  [ Ev (VerifyBlobRange range_U None) invalidVersion;
    Ev (Delay 1) tt;
    Ev (VerifyBlobRange range_U None) 7;
    Ev (ListBlobbifiedRanges range_U OP_LIMIT) [KeyRangeRef "U_" "V_"];
    Ev (GetBlobGranuleRanges range_U OP_LIMIT) (inl 1020);
    Ev (OnError 1020) None;
    Ev (GetBlobGranuleRanges range_U OP_LIMIT)
       (inr [KeyRangeRef "U_" "U_00000002A"; KeyRangeRef "U_00000002A" "U_1"]) ].

(** ** Calls and ends along a history *)

(** [hsafe P F t]: wherever [t] is suspended, [P] holds of the events so far
    and the call; where it has ended other than by returning, [F] holds of
    the events so far and the event that ended it. *)
Definition hsafe {R} (P : list event -> call -> Prop)
    (F : list event -> wlE Empty_set -> Prop) (t : actor R) : Prop :=
  forall w h,
    wpx t (fun _ _ _ => True) (fun _ h' c => P h' c) (fun _ h' e => F h' e) w h.

Definition any_end (h : list event) (e : wlE Empty_set) : Prop := True.

(** A call of [waitPurgeGranulesComplete] is on the key that the event just
    before it, a [purgeBlobGranules], has answered. *)
Definition waits_for_last_purge (h : list event) (c : call) : Prop :=
  match c with
  | Call (WaitPurgeGranulesComplete purgeKey) =>
      exists h0 range version tenant force,
        h = h0 ++ [Ev (PurgeBlobGranules range version tenant force) purgeKey]
  | Call _ => True
  end.

(** ** Calls and ends of the unit tests *)

(** The range of the call, if it has one, begins with [p]. *)
Definition begins (p : Key) (h : list event) (c : call) : Prop :=
  forall r, call_range c = Some r -> String.prefix p (range_begin r) = true.

(** An end by an assertion, or by the error that [onError] has just
    answered. *)
Definition clean_end (h : list event) (e : wlE Empty_set) : Prop :=
  e = AssertFailed \/
  exists err e0 h0, e = Throw err /\ h = h0 ++ [Ev (OnError e0) (Some err)].

(** How the unit runner can end: as a scenario does, or by the overflow of
    [nextKey] in [newKey]; how it can be found at all. *)
Definition unit_tests_end (w : Workload) (h : list event) (e : wlE Empty_set) : Prop :=
  clean_end h e \/
  (e = UndefinedBehavior /\ sequential w = true /\
   ~ in_int32 (nextKey w + sequentialGap w)).

Definition unit_tests_outcome (w : Workload) (tr : list event) (o : outcome unit) : Prop :=
  match o with
  | Done w' _ => stopUnitClient w = true /\ w' = w /\ tr = []
  | Stopped w' e => unit_tests_end w' tr e
  | Suspended _ _ => True
  end.

(** A pass of the unit runner in which the first [blobbifyRange] of the
    scenario answers false. *)
Definition unit_fail_trace : list event :=
  unit_pass_trace ++ [Ev (BlobbifyRange range_UA) false].

(** ** The ranges of the driver *)

(** A range as [registerNewRange] builds it from a key. *)
Definition registered_range (strinc : Key -> Key) (r : KeyRange) : Prop :=
  exists k, r = key_range strinc "R_" k.

Definition on_registered (strinc : Key -> Key) (c : call) : Prop :=
  forall r, call_range c = Some r -> registered_range strinc r.

Definition lists_registered (strinc : Key -> Key) (w : Workload) : Prop :=
  Forall (registered_range strinc) (activeRanges w) /\
  Forall (registered_range strinc) (inactiveRanges w).

(** ** The calls of a scenario that change the database *)

(** [blobbifyRange], [unblobbifyRange], a purge and the wait for it change
    the blob ranges or the granules; the other calls of the scenarios only
    read. *)
Definition is_write (ev : event) : bool :=
  match ev with
  | Ev (BlobbifyRange _) _ | Ev (UnblobbifyRange _) _
  | Ev (PurgeBlobGranules _ _ _ _) _ | Ev (WaitPurgeGranulesComplete _) _ => true
  | Ev _ _ => false
  end.

Definition writes (tr : list event) : list event := filter is_write tr.

(** The events of a [tearDownRangeAfterUnit] that returns. *)
Definition teardown_trace (range : KeyRange) (purgeKey : Key) : list event :=
  [ Ev (PurgeBlobGranules range 1 None true) purgeKey;
    Ev (WaitPurgeGranulesComplete purgeKey) tt;
    Ev (UnblobbifyRange range) true ].

(** The range the scenarios blobbify inside the unit range. *)
Definition unit_active (range : KeyRange) : KeyRange :=
  KeyRangeRef (withSuffix (range_begin range) "A") (withSuffix (range_begin range) "B").

(** A full run of [verifyRangeUnit] on [range_U]. *)
Definition verify_unit_trace : list event :=
  [ Ev (BlobbifyRange range_UA) true;
    Ev (VerifyBlobRange range_UA None) 7;
    Ev (ListBlobbifiedRanges range_UA OP_LIMIT) [range_UA];
    Ev (GetBlobGranuleRanges range_UA OP_LIMIT) (inr [range_UA]);
    Ev (VerifyBlobRange (KeyRangeRef "U_00000002A" "U_00000002AF") None) 7;
    Ev (VerifyBlobRange (KeyRangeRef "U_00000002AF" "U_00000002B") None) 7;
    Ev (VerifyBlobRange range_U None) invalidVersion;
    Ev (VerifyBlobRange (KeyRangeRef "U_00000002" "U_00000002A") None) invalidVersion;
    Ev (VerifyBlobRange (KeyRangeRef "U_00000002B" "U_00000003") None) invalidVersion;
    Ev (VerifyBlobRange (KeyRangeRef "U_00000002" "U_00000002AF") None) invalidVersion;
    Ev (VerifyBlobRange (KeyRangeRef "U_00000002AF" "U_00000003") None) invalidVersion;
    Ev (VerifyBlobRange (KeyRangeRef "U_00000002" "U_00000002B") None) invalidVersion;
    Ev (VerifyBlobRange (KeyRangeRef "U_00000002A" "U_00000003") None) invalidVersion ]
  ++ teardown_trace range_UA "purge1".

(** A full run of [reBlobbifyUnit] on [range_U]. *)
Definition reblobbify_trace : list event :=
  [ Ev (BlobbifyRange range_U) true;
    Ev (VerifyBlobRange range_U None) 7;
    Ev (ListBlobbifiedRanges range_U OP_LIMIT) [range_U];
    Ev (GetBlobGranuleRanges range_U OP_LIMIT) (inr [range_U]);
    Ev (PurgeBlobGranules range_U 1 None true) "purge1";
    Ev (WaitPurgeGranulesComplete "purge1") tt;
    Ev (VerifyBlobRange range_U None) invalidVersion;
    Ev (ListBlobbifiedRanges range_U OP_LIMIT) [];
    Ev (GetBlobGranuleRanges range_U OP_LIMIT) (inr []);
    Ev (UnblobbifyRange range_U) true;
    Ev (VerifyBlobRange range_U None) invalidVersion;
    Ev (ListBlobbifiedRanges range_U OP_LIMIT) [];
    Ev (GetBlobGranuleRanges range_U OP_LIMIT) (inr []);
    Ev (BlobbifyRange range_U) true;
    Ev (VerifyBlobRange range_U None) 8;
    Ev (ListBlobbifiedRanges range_U OP_LIMIT) [range_U];
    Ev (GetBlobGranuleRanges range_U OP_LIMIT) (inr [range_U]) ]
  ++ teardown_trace range_U "purge2".

(** ** The sub-ranges of [verifyRangeGapUnit] *)

(** The history [h'] goes on from [h]. *)
Definition extends (h h' : list event) : Prop := exists trc, h' = h ++ trc.

(** The sub-range [i], from boundary [i] to boundary [i + 1]; the span from
    boundary [i] to boundary [j]. *)
Definition gap_span (range : KeyRange) (rangeCount : Z) (i j : nat) : KeyRange :=
  let boundaries := gap_boundaries range rangeCount in
  KeyRangeRef (nth i boundaries EmptyString) (nth j boundaries EmptyString).

Definition gap_subrange (range : KeyRange) (rangeCount : Z) (i : nat) : KeyRange :=
  gap_span range rangeCount i (S i).

(** [blobbifyRange] answered true for each of the first [upto] sub-ranges
    but sub-range [g]. *)
Definition gap_blobbified (range : KeyRange) (rangeCount : Z) (g upto : nat)
  : list event :=
  map (fun i => Ev (BlobbifyRange (gap_subrange range rangeCount i)) true)
      (filter (fun i => negb (i =? g)%nat) (seq 0 upto)).

(** The calls of a full run of [verifyRangeGapUnit] that change the
    database, for the draws [e] of [randomExp] and [g] of
    [rangeToNotBlobbify]: the sub-ranges but [g] are blobbified, then the
    span before [g] and the span after [g] are torn down, where they are not
    empty. *)
Definition gap_writes (range : KeyRange) (e g : Z) (purgeKey1 purgeKey2 : Key)
  : list event :=
  let rangeCount := e + 1 in
  gap_blobbified range rangeCount (Z.to_nat g) (Z.to_nat rangeCount)
  ++ (if g =? 0 then []
      else teardown_trace (gap_span range rangeCount 0 (Z.to_nat g)) purgeKey1)
  ++ (if g =? rangeCount - 1 then []
      else teardown_trace (gap_span range rangeCount (Z.to_nat g + 1)
                                    (Z.to_nat rangeCount)) purgeKey2).

(** A full run of [verifyRangeGapUnit] on [range_U] with two sub-ranges, the
    second being the gap. *)
Definition range_U0 : KeyRange := KeyRangeRef "U_00000002" "U_000000020000".
Definition range_U1 : KeyRange := KeyRangeRef "U_000000020000" "U_00000003".

Definition gap_unit_trace : list event :=
  [ Ev (RandomExp 3 6) 1;
    Ev (RandomInt 0 2) 1;
    Ev (BlobbifyRange range_U0) true;
    Ev (VerifyBlobRange range_U0 None) 7;
    Ev (ListBlobbifiedRanges range_U0 OP_LIMIT) [range_U0];
    Ev (GetBlobGranuleRanges range_U0 OP_LIMIT) (inr [range_U0]);
    Ev (VerifyBlobRange range_U1 None) invalidVersion;
    Ev (ListBlobbifiedRanges range_U1 OP_LIMIT) [];
    Ev (GetBlobGranuleRanges range_U1 OP_LIMIT) (inr []);
    Ev (VerifyBlobRange range_U None) invalidVersion ]
  ++ teardown_trace range_U0 "purge1".

(** ** [start] and [check] *)

(** [start] stores the client loop in [client] and, in [unitClient], the unit
    runner on client 0 and a future that is already set on the other
    clients; it returns [delay(testDuration)]. *)
Record Started : Type := mkStarted {
  client : actor unit;
  unitClient : actor unit;
  started : actor unit
}.

Definition start (strinc : Key -> Key) (testDuration : Q) (self : Workload) : Started :=
  mkStarted (blobGranuleRangesClient strinc)
            (if clientId self =? 0 then blobGranuleRangesUnitTests strinc else Ret tt)
            (ITree.trigger (Delay testDuration)).

(** Clients 1 and 2 of a run of three clients with seed 30. *)
Definition w3_client1 : Workload := mkWorkload 1 3 3 1 true 2 false 10000000 [] [].
Definition w3_client2 : Workload := mkWorkload 2 3 3 1 true 2 false 20000000 [] [].

(** ** Ranges registered once *)

(** As long as no identifier was drawn twice, no range was blobbified twice,
    and each blobbified range comes from a key of this driver. *)
Definition once (strinc : Key -> Key) (seq0 : bool) (gap0 : Z)
    (w : Workload) (h : list event) : Prop :=
  sequential w = seq0 /\ sequentialGap w = gap0 /\
  (NoDup (uids h) ->
   NoDup (ranges_of blobbify_ok h) /\
   forall r, In r (ranges_of blobbify_ok h) -> prov strinc seq0 r w h).

(** * Properties *)

Lemma KeyRange_eqb_eq r1 r2 : KeyRange_eqb r1 r2 = true <-> r1 = r2.
Proof.
  destruct r1 as [b1 e1], r2 as [b2 e2]; unfold KeyRange_eqb; simpl.
  rewrite andb_true_iff, !String.eqb_eq.
  split; [intros [-> ->]; reflexivity | intros H; inversion H; auto].
Qed.

Lemma KeyRange_eq_dec (r1 r2 : KeyRange) : {r1 = r2} + {r1 <> r2}.
Proof. decide equality; apply string_dec. Defined.

(** ** Executions of composed actors *)

Lemma observe_bind_cases {R S} (t : actor R) (k : R -> actor S) :
  observe (ITree.bind t k) =
  match observe t with
  | RetF r => observe (k r)
  | TauF t' => TauF (ITree.bind t' k)
  | VisF e h => VisF e (fun x => ITree.bind (h x) k)
  end.
Proof.
  transitivity (observe (match observe t with
                         | RetF r => k r
                         | TauF t' => Tau (ITree.bind t' k)
                         | VisF e h => Vis e (fun x => ITree.bind (h x) k)
                         end));
    [reflexivity | destruct (observe t); reflexivity].
Qed.

Lemma observe_iter {R J} (body : J -> actor (J + R)) (i : J) :
  observe (ITree.iter body i) =
  observe (ITree.bind (body i) (fun lr =>
             match lr with
             | inl l => Tau (ITree.iter body l)
             | inr r => Ret r
             end)).
Proof. reflexivity. Qed.

Lemma exec_observe {R} n w (t t' : actor R) tr o :
  observe t = observe t' -> exec n w t tr o -> exec n w t' tr o.
Proof. destruct n; simpl; intros E H; [exact H | rewrite <- E; exact H]. Qed.

Lemma vis_step_mono {R} (rec1 rec2 : Workload -> actor R -> list event -> outcome R -> Prop)
    w X (e : wlE X) k tr o :
  (forall w t tr o, rec1 w t tr o -> rec2 w t tr o) ->
  vis_step rec1 w e k tr o -> vis_step rec2 w e k tr o.
Proof.
  intros M; destruct e; simpl; unfold wait_step, draw_step, stop_step;
    first
      [ solve [auto]
      | solve [intros (x & tr' & ? & ? & ?); exists x, tr'; auto]
      | intros [? | (x & w' & tr' & ? & ? & ?)];
        [left; auto | right; exists x, w', tr'; auto] ].
Qed.

Lemma exec_S {R} n w (t : actor R) tr o : exec n w t tr o -> exec (S n) w t tr o.
Proof.
  revert w t tr o; induction n; intros w t tr o H; [destruct H |].
  simpl in H. change (exec (S (S n)) w t tr o) with
    (match observe t with
     | RetF r => tr = [] /\ o = Done w r
     | TauF t' => exec (S n) w t' tr o
     | VisF e k => vis_step (exec (S n)) w e k tr o
     end).
  destruct (observe t); auto.
  eapply vis_step_mono; [| exact H]; auto.
Qed.

Lemma exec_mono {R} n m w (t : actor R) tr o :
  (n <= m)%nat -> exec n w t tr o -> exec m w t tr o.
Proof. induction 1; auto using exec_S. Qed.

Lemma exec_unfold {R} n w (t : actor R) tr o :
  exec (S n) w t tr o =
  match observe t with
  | RetF r => tr = [] /\ o = Done w r
  | TauF t' => exec n w t' tr o
  | VisF e k => vis_step (exec n) w e k tr o
  end.
Proof. reflexivity. Qed.

Ltac bind_cases_tac :=
  match goal with
  | H : bind_cases _ _ _ _ |- _ =>
      destruct H as [(w1 & r1 & tr1 & tr2 & H1 & H2 & ->)
                    | [(w1 & e1 & H1 & ->) | (w1 & c1 & H1 & ->)]]
  end.

Ltac answered_tac pick fin :=
  bind_cases_tac;
  [ left; do 4 eexists; split; [pick; fin | split; [eassumption | reflexivity]]
  | right; left; do 2 eexists; split; [pick; fin | reflexivity]
  | right; right; do 2 eexists; split; [pick; fin | reflexivity] ].

Lemma vis_step_bind {R S} n w X (e : wlE X) (h : X -> actor R) (k : R -> actor S) tr o :
  (forall w t tr o, exec n w (ITree.bind t k) tr o ->
     bind_cases (exec n w t) (fun w' r => exec n w' (k r)) tr o) ->
  vis_step (exec n) w e (fun x => ITree.bind (h x) k) tr o ->
  bind_cases (vis_step (exec n) w e h) (fun w' r => exec n w' (k r)) tr o.
Proof.
  intros IH.
  destruct e; simpl; unfold wait_step, draw_step, stop_step;
    first
      [ (* the workload object *)
        solve [intros H; apply IH in H; exact H]
      | (* an end *)
        solve [intros [-> ->]; right; left; eexists _, _; split; [split|]; reflexivity]
      | (* a draw *)
        solve [intros (x & tr' & ? & -> & H); apply IH in H;
               answered_tac ltac:(idtac)
                 ltac:(exists x; eexists;
                       split; [eassumption | split; [reflexivity | eassumption]])]
      | (* a call waited for *)
        intros [[-> ->] | (x & w' & tr' & ? & -> & H)];
        [ right; right; eexists _, _; split; [left; split; reflexivity | reflexivity]
        | apply IH in H;
          answered_tac ltac:(right)
            ltac:(exists x, w'; eexists;
                  split; [eassumption | split; [reflexivity | eassumption]]) ] ].
Qed.

Lemma exec_bind_inv {R S} n : forall w (t : actor R) (k : R -> actor S) tr o,
  exec n w (ITree.bind t k) tr o ->
  bind_cases (exec n w t) (fun w' r => exec n w' (k r)) tr o.
Proof.
  induction n; intros w t k tr o H; [destruct H |].
  rewrite exec_unfold, observe_bind_cases in H.
  destruct (observe t) as [r | t' | X e h] eqn:E.
  - left. exists w, r, [], tr. rewrite exec_unfold, E. auto.
  - apply IHn in H. bind_cases_tac.
    + left. exists w1, r1, tr1, tr2. rewrite exec_unfold, E. auto using exec_S.
    + right; left. exists w1, e1. rewrite exec_unfold, E. auto.
    + right; right. exists w1, c1. rewrite exec_unfold, E. auto.
  - apply vis_step_bind in H; [| intros; apply IHn; assumption]. bind_cases_tac.
    + left. exists w1, r1, tr1, tr2. rewrite exec_unfold, E. auto using exec_S.
    + right; left. exists w1, e1. rewrite exec_unfold, E. auto.
    + right; right. exists w1, c1. rewrite exec_unfold, E. auto.
Qed.

(** ** Rules for [wp] *)

Section WpRules.
Context {R : Type}.
Variable Q : Workload -> list event -> R -> Prop.
Variable I : Workload -> list event -> call -> Prop.

Lemma post_app h tr1 tr2 (o : outcome R) :
  post Q I (h ++ tr1) tr2 o -> post Q I h (tr1 ++ tr2) o.
Proof. destruct o; simpl; rewrite ?app_assoc; auto. Qed.

Lemma wp_observe (t t' : actor R) w h :
  observe t = observe t' -> wp t' Q I w h -> wp t Q I w h.
Proof. intros E H n tr o Hex. apply (H n). eapply exec_observe; eauto. Qed.

Lemma wp_ret r w h : Q w h r -> wp (Ret r) Q I w h.
Proof.
  intros HQ [|n] tr o Hex; [destruct Hex |].
  destruct Hex as [-> ->]. simpl. rewrite app_nil_r. exact HQ.
Qed.

Lemma wp_tau (t : actor R) w h : wp t Q I w h -> wp (Tau t) Q I w h.
Proof. intros H [|n] tr o Hex; [destruct Hex |]. exact (H n _ _ Hex). Qed.

Lemma wp_vis (t : actor R) w h X (e : wlE X) (k : X -> actor R) :
  observe t = VisF e k -> vis_wp Q I w h e k -> wp t Q I w h.
Proof.
  intros E H [|n] tr o Hex; [destruct Hex |].
  rewrite exec_unfold, E in Hex. clear E.
  destruct e; simpl in H, Hex; unfold wait_step, draw_step, stop_step in Hex;
    first
      [ exact (H n _ _ Hex)
      | destruct Hex as [-> ->]; exact Logic.I
      | destruct Hex as (x & tr' & Hok & -> & Hex);
        apply (post_app h [Ev _ x] tr'); exact (H x Hok n _ _ Hex)
      | destruct H as [HI H];
        destruct Hex as [[-> ->] | (x & w' & tr' & Hw' & -> & Hex)];
        [ simpl; rewrite app_nil_r; exact HI
        | apply (post_app h [Ev _ x] tr'); exact (H x w' Hw' n _ _ Hex) ] ].
Qed.

Lemma vis_step_no_answer {X} (e : wlE X) (f : X -> Empty_set)
    (rec : Workload -> actor R -> list event -> outcome R -> Prop) w h k tr o :
  vis_step rec w e k tr o -> post Q I h tr o.
Proof.
  destruct e;
    first
      [ destruct (f w) | destruct (f tt) | destruct (f 0) | destruct (f true)
      | destruct (f EmptyString) | destruct (f S754_nan) | destruct (f [])
      | destruct (f (inr [])) | destruct (f None)
      | simpl; intros [-> ->]; exact Logic.I ].
Qed.

Lemma wp_stop (e : wlE Empty_set) w h : wp (stop e) Q I w h.
Proof.
  intros [|n] tr o Hex; [destruct Hex |].
  unfold stop in Hex. rewrite exec_unfold, observe_bind_cases in Hex.
  simpl in Hex. eapply vis_step_no_answer; [exact (fun x => x) | exact Hex].
Qed.

Lemma wp_any (t : actor R) w h :
  (forall w' h' r, Q w' h' r) -> (forall w' h' c, I w' h' c) -> wp t Q I w h.
Proof. intros HQ HI n tr [w' r| |w' c] _; simpl; auto. Qed.

End WpRules.

Lemma wp_mono {R} (t : actor R) (Q Q' : Workload -> list event -> R -> Prop)
    (I I' : Workload -> list event -> call -> Prop) w h :
  (forall w' h' r, Q w' h' r -> Q' w' h' r) ->
  (forall w' h' c, I w' h' c -> I' w' h' c) ->
  wp t Q I w h -> wp t Q' I' w h.
Proof.
  intros HQ HI H n tr o Hex. specialize (H n tr o Hex).
  destruct o; simpl in *; auto.
Qed.

Lemma wp_bind {R S} (t : actor R) (k : R -> actor S) Q I w h :
  wp t (fun w' h' r => wp (k r) Q I w' h') I w h ->
  wp (ITree.bind t k) Q I w h.
Proof.
  intros H n tr o Hex. apply exec_bind_inv in Hex. bind_cases_tac.
  - apply post_app. exact (H n _ _ H1 n _ _ H2).
  - exact Logic.I.
  - exact (H n _ _ H1).
Qed.

(** An event followed by the rest of the actor. *)
Lemma wp_bind_trigger {R} X (e : wlE X) (k : X -> actor R) Q I w h :
  vis_wp Q I w h e k -> wp (ITree.bind (ITree.trigger e) k) Q I w h.
Proof.
  intros H. eapply wp_vis; [rewrite observe_bind_cases; reflexivity |].
  destruct e; simpl in *;
    first
      [ exact Logic.I
      | solve [eapply wp_observe; [| exact H]; rewrite observe_bind_cases; reflexivity]
      | solve [intros x Hx; eapply wp_observe; [| exact (H x Hx)];
               rewrite observe_bind_cases; reflexivity]
      | split; [exact (proj1 H) |];
        intros x w' Hw'; eapply wp_observe; [| exact (proj2 H x w' Hw')];
        rewrite observe_bind_cases; reflexivity ].
Qed.

(** An event as the last step of an actor. *)
Lemma wp_trigger {R} (e : wlE R) Q I w h :
  vis_wp Q I w h e (fun x => Ret x) -> wp (ITree.trigger e) Q I w h.
Proof. intros H. eapply wp_vis; [reflexivity | exact H]. Qed.

(** A loop with invariant [Inv]. *)
Lemma wp_iter {J R} (body : J -> actor (J + R))
    (Inv : J -> Workload -> list event -> Prop) Q I :
  (forall i w h, Inv i w h ->
     wp (body i)
        (fun w' h' lr => match lr with
                         | inl j => Inv j w' h'
                         | inr r => Q w' h' r
                         end) I w h) ->
  forall i w h, Inv i w h -> wp (ITree.iter body i) Q I w h.
Proof.
  intros Hbody i w h HInv n. revert i w h HInv.
  induction n; intros i w h HInv tr o Hex; [destruct Hex |].
  eapply exec_observe in Hex; [| apply observe_iter].
  apply exec_bind_inv in Hex. bind_cases_tac.
  - pose proof (Hbody i w h HInv _ _ _ H1) as HP. simpl in HP.
    apply post_app. destruct r1 as [j | r].
    + exact (IHn j w1 _ HP _ _ H2).
    + destruct H2 as [-> ->]. simpl. rewrite app_nil_r. exact HP.
  - exact Logic.I.
  - exact (Hbody i w h HInv _ _ _ H1).
Qed.

(** One step of symbolic execution. *)
Ltac wp_step :=
  lazymatch goal with
  | |- wp (Ret _) _ _ _ _ => apply wp_ret
  | |- wp (ITree.bind (ITree.trigger _) _) _ _ _ _ =>
      apply wp_bind_trigger; cbv beta iota zeta delta [vis_wp]
  | |- wp (ITree.trigger _) _ _ _ _ =>
      apply wp_trigger; cbv beta iota zeta delta [vis_wp]
  | |- wp (stop _) _ _ _ _ => apply wp_stop
  | |- wp (ASSERT ?b) _ _ _ _ =>
      unfold ASSERT; destruct b eqn:?; [apply wp_ret | apply wp_stop]
  | |- wp (ITree.bind _ _) _ _ _ _ => apply wp_bind
  | |- forall w', others _ w' -> _ => intros ? ?
  end.

Lemma exec_ret_intro {R} n w (t : actor R) r :
  observe t = RetF r -> exec (S n) w t [] (Done w r).
Proof. intros E. rewrite exec_unfold, E. auto. Qed.

Lemma exec_tau_intro {R} n w (t t' : actor R) tr o :
  observe t = TauF t' -> exec n w t' tr o -> exec (S n) w t tr o.
Proof. intros E H. rewrite exec_unfold, E. exact H. Qed.

Lemma exec_vis_intro {R} n w (t : actor R) X (e : wlE X) k tr o :
  observe t = VisF e k -> vis_step (exec n) w e k tr o -> exec (S n) w t tr o.
Proof. intros E H. rewrite exec_unfold, E. exact H. Qed.

(** ** The constructor returns *)

Ltac exec_vis_tac :=
  lazymatch goal with
  | |- exec (S ?n) ?w ?t ?tr ?o =>
      let ot := eval hnf in (observe t) in
      lazymatch ot with
      | VisF ?e ?k => apply (@exec_vis_intro _ n w t _ e k tr o); [reflexivity |];
                      cbv beta iota delta [vis_step draw_step]
      end end.

Lemma exec_bind_ret {X R} n w (x : X) (k : X -> actor R) tr o :
  exec n w (k x) tr o -> exec n w (ITree.bind (Ret x) k) tr o.
Proof. destruct n; [exact (fun H => H) |]. rewrite !exec_unfold. exact (fun H => H). Qed.

(** The constructor returns, with the three draws in its trace, whenever the
    product of line 71 fits an [int]. *)
Lemma exec_BlobGranuleRangesWorkload_intro cid cc seed ops dflt e r t w0 :
  1 <= dflt < 100 -> randomExp_ok 1 (1 + Z.rem seed 10) e -> random01_ok r ->
  targetRanges_of e r cc = Some t ->
  exec 5 w0 (BlobGranuleRangesWorkload cid cc seed ops) (ctor_draws seed dflt e r)
       (Done w0
          (mkWorkload cid cc
             (let operationsPerSecond :=
                Z.quot (match ops with Some v => v | None => dflt end) cc in
              if operationsPerSecond <=? 0 then 1 else operationsPerSecond)
             t (sequential_of seed) (sequentialGap_of seed) false
             (10000000 * cid) [] [])).
Proof.
  intros Hd He Hr Ht. unfold BlobGranuleRangesWorkload, ctor_draws.
  exec_vis_tac.
  exists dflt. eexists. split; [exact Hd |]. split; [reflexivity |].
  exec_vis_tac.
  exists e. eexists. split; [exact He |]. split; [reflexivity |].
  exec_vis_tac.
  exists r. eexists. split; [exact Hr |]. split; [reflexivity |].
  apply exec_bind_ret. cbv beta. rewrite Ht. apply exec_ret_intro. reflexivity.
Qed.

(** ** The constructor: [sequentialGap] and [targetRanges] *)

Lemma wp_BlobGranuleRangesWorkload cid cc seed ops
    (Q : Workload -> list event -> Workload -> Prop) I w0 h :
  (forall dflt e r targetRanges,
     1 <= dflt < 100 -> random01_ok r ->
     targetRanges_of e r cc = Some targetRanges ->
     Q w0 (h ++ ctor_draws seed dflt e r)
       (mkWorkload cid cc
          (let o := Z.quot (match ops with Some v => v | None => dflt end) cc in
           if o <=? 0 then 1 else o)
          targetRanges (sequential_of seed) (sequentialGap_of seed)
          false (10000000 * cid) [] [])) ->
  wp (BlobGranuleRangesWorkload cid cc seed ops) Q I w0 h.
Proof.
  intros HQ. unfold BlobGranuleRangesWorkload.
  wp_step. intros dflt Hdflt. wp_step. intros e _. wp_step. intros r Hr.
  destruct (targetRanges_of e r cc) as [targetRanges |] eqn:Ht; [| wp_step].
  wp_step. rewrite <- !app_assoc. apply HQ; assumption.
Qed.

Lemma sequentialGap_of_zero seed :
  sequentialGap_of seed = 0 <->
  Z.quot seed 20 < 0 /\ Z.odd (Z.quot seed 20) = true.
Proof.
  unfold sequentialGap_of. cbv zeta. rewrite Zquot_Zquot. change (10 * 2) with 20.
  set (q := Z.quot seed 20). rewrite Zrem_odd.
  destruct (Z.odd q); [| split; [lia | intros [_ H]; discriminate H]].
  split; [intros H; split; [lia | reflexivity] | intros [H _]; lia].
Qed.

Lemma sequential_of_odd seed :
  sequential_of seed = true <-> Z.odd (Z.quot seed 10) = true.
Proof.
  unfold sequential_of. cbv zeta. rewrite Zrem_odd.
  destruct (Z.quot seed 10) as [| [p | p |] | [p | p |]]; simpl; split; congruence.
Qed.

Lemma wp_newKey_sequential (Q : Workload -> list event -> string -> Prop) I w h :
  sequential w = true ->
  (in_int32 (nextKey w + sequentialGap w) ->
   Q (set_nextKey w (nextKey w + sequentialGap w)) h
     (format_08x (nextKey w + sequentialGap w))) ->
  wp newKey Q I w h.
Proof.
  intros Hseq HQ. unfold newKey. wp_step. rewrite Hseq.
  destruct ((INT32_MIN <=? nextKey w + sequentialGap w)
            && (nextKey w + sequentialGap w <=? INT32_MAX)) eqn:E.
  - wp_step. wp_step. apply HQ.
    apply andb_true_iff in E. unfold in_int32. lia.
  - wp_step.
Qed.

(** C7, what the code does: [sequentialGap] is [1 + rand % 2] for
    [rand = sharedRandomNumber / 10 / 2], with the [/] and [%] of C++, which
    truncate toward zero.  It is 0, 1 or 2, and 0 exactly when
    [sharedRandomNumber / 20] is negative and odd, so never for a number that
    is not negative; sequential mode is on exactly when
    [sharedRandomNumber / 10] is odd.  A call of [newKey] in sequential mode
    that returns has added [sequentialGap] to [nextKey], and the call returns
    whenever the sum is an [int32_t]: with a gap of 0 it returns the same key
    again. *)
Theorem sequentialGap_by_seed :
  forall cid cc seed ops n w0 tr w0' w,
    exec n w0 (BlobGranuleRangesWorkload cid cc seed ops) tr (Done w0' w) ->
    0 <= sequentialGap w <= 2 /\
    (sequentialGap w = 0 <-> Z.quot seed 20 < 0 /\ Z.odd (Z.quot seed 20) = true) /\
    (0 <= seed -> sequentialGap w = 1 \/ sequentialGap w = 2) /\
    (sequential w = true <-> Z.odd (Z.quot seed 10) = true) /\
    (forall m w1 tr' w1' k,
        sequential w1 = true -> sequentialGap w1 = sequentialGap w ->
        exec m w1 newKey tr' (Done w1' k) ->
        nextKey w1' = nextKey w1 + sequentialGap w /\
        k = format_08x (nextKey w1')) /\
    (forall w1,
        sequential w1 = true -> sequentialGap w1 = sequentialGap w ->
        in_int32 (nextKey w1 + sequentialGap w1) ->
        exec 3 w1 newKey []
             (Done (set_nextKey w1 (nextKey w1 + sequentialGap w1))
                   (format_08x (nextKey w1 + sequentialGap w1)))).
Proof.
  intros cid cc seed ops n w0 tr w0' w Hex.
  assert (Hw : sequentialGap w = sequentialGap_of seed /\
               sequential w = sequential_of seed).
  { refine (@wp_BlobGranuleRangesWorkload cid cc seed ops
              (fun _ _ w => sequentialGap w = sequentialGap_of seed /\
                            sequential w = sequential_of seed)
              (fun _ _ _ => True) w0 [] _ n tr (Done w0' w) Hex).
    intros; simpl. split; reflexivity. }
  destruct Hw as [Hgap Hseq]. rewrite Hgap, Hseq.
  pose proof (sequentialGap_of_zero seed) as Hzero.
  assert (Hbounds : 0 <= sequentialGap_of seed <= 2).
  { unfold sequentialGap_of. cbv zeta. rewrite Zrem_odd.
    set (q := Z.quot (Z.quot seed 10) 2). clearbody q. clear.
    destruct q as [| p | p]; cbn [Z.sgn]; destruct (Z.odd _); lia. }
  split; [exact Hbounds |]. split; [exact Hzero |]. split.
  { intros Hs.
    assert (0 <= Z.quot seed 20) by (apply Z.quot_pos; lia).
    assert (sequentialGap_of seed <> 0) by (rewrite Hzero; lia).
    lia. }
  split; [apply sequential_of_odd |]. split.
  - intros m w1 tr' w1' k Hs1 Hg1 Hk.
    refine (@wp_newKey_sequential
              (fun w' _ k => nextKey w' = nextKey w1 + sequentialGap_of seed /\
                             k = format_08x (nextKey w'))
              (fun _ _ _ => True) w1 [] Hs1 _ m tr' (Done w1' k) Hk).
    intros _. simpl. rewrite Hg1. split; reflexivity.
  - intros w1 Hs1 Hg1 [Hlo Hhi].
    rewrite exec_unfold. simpl. rewrite Hs1.
    replace ((INT32_MIN <=? nextKey w1 + sequentialGap w1)
             && (nextKey w1 + sequentialGap w1 <=? INT32_MAX)) with true.
    + simpl. auto.
    + symmetry. apply andb_true_iff. split; apply Z.leb_le; assumption.
Qed.

Lemma if_max v : (if v <=? 0 then 1 else v) = Z.max 1 v.
Proof. destruct (Z.leb_spec v 0); lia. Qed.

Lemma quot_quot_floor p q c :
  0 < q -> 0 < c ->
  Z.max 1 (Z.quot (Z.quot p q) c) = Z.max 1 (p / (q * c)).
Proof.
  intros Hq Hc.
  destruct (Z.le_gt_cases 0 p) as [Hp | Hp].
  - rewrite (Z.quot_div_nonneg p q) by lia.
    assert (0 <= p / q) by (apply Z.div_pos; lia).
    rewrite Z.quot_div_nonneg by lia.
    rewrite Z.div_div by lia. reflexivity.
  - assert (Z.quot p q <= 0).
    { replace p with (- (- p)) by lia. rewrite Z.quot_opp_l by lia.
      assert (0 <= Z.quot (- p) q) by (apply Z.quot_pos; lia). lia. }
    assert (Z.quot (Z.quot p q) c <= 0).
    { replace (Z.quot p q) with (- (- Z.quot p q)) by lia.
      rewrite Z.quot_opp_l by lia.
      assert (0 <= Z.quot (- Z.quot p q) c) by (apply Z.quot_pos; lia). lia. }
    assert (p / (q * c) < 0) by (apply Z.div_lt_upper_bound; nia).
    lia.
Qed.

Lemma double_to_int_trunc d n :
  double_to_int d = Some n -> n = Qtrunc (double_value d) /\ in_int32 n.
Proof.
  unfold double_to_int, in_int32.
  destruct d as [s | s | | s m e]; try discriminate.
  - intros H. injection H as <-. split; [reflexivity |].
    unfold INT32_MIN, INT32_MAX. lia.
  - set (n' := Qtrunc (double_value (S754_finite s m e))).
    destruct ((INT32_MIN <=? n') && (n' <=? INT32_MAX)) eqn:E; [| discriminate].
    intros H. injection H as <-. apply andb_true_iff in E.
    split; [reflexivity | lia].
Qed.

Lemma targetRanges_of_floor e r cc t :
  1 <= cc ->
  targetRanges_of e r cc = Some t ->
  t = Z.max 1 (Qfloor (double_value (targetRanges_product e r) / inject_Z cc)).
Proof.
  intros Hcc. unfold targetRanges_of.
  destruct (double_to_int (targetRanges_product e r)) as [n |] eqn:E; [| discriminate].
  apply double_to_int_trunc in E. destruct E as [-> _].
  cbv zeta. rewrite if_max. intros H. injection H as <-.
  set (x := double_value (targetRanges_product e r)).
  unfold Qtrunc. destruct x as [p q].
  destruct cc as [|c|c]; try lia.
  unfold Qdiv, Qinv, Qmult, inject_Z, Qfloor. simpl Qnum. simpl Qden.
  rewrite quot_quot_floor by lia.
  rewrite Z.mul_1_r, Pos2Z.inj_mul. reflexivity.
Qed.

(** C6, as amended: for every [clientCount >= 1] the constructor leaves
    [targetRanges] at the maximum of 1 and the integer part (rounded down,
    not to the nearest) of [p / clientCount], where [p] is the product
    [e * (0.8 + r * 0.4)] as computed in doubles, [e] the draw of
    [randomExp(1, 1 + sharedRandomNumber % 10)] and [r] the draw of
    [random01()]; the result is at least 1. *)
Theorem targetRanges_truncated :
  forall cid cc seed ops n w0 tr w0' w,
    1 <= cc ->
    exec n w0 (BlobGranuleRangesWorkload cid cc seed ops) tr (Done w0' w) ->
    exists dflt e r,
      tr = ctor_draws seed dflt e r /\
      random01_ok r /\
      targetRanges w =
        Z.max 1 (Qfloor (double_value (targetRanges_product e r) / inject_Z cc)) /\
      1 <= targetRanges w.
Proof.
  intros cid cc seed ops n w0 tr w0' w Hcc Hex.
  refine (@wp_BlobGranuleRangesWorkload cid cc seed ops
            (fun _ h w => exists dflt e r,
                 h = ctor_draws seed dflt e r /\
                 random01_ok r /\
                 targetRanges w =
                   Z.max 1 (Qfloor (double_value (targetRanges_product e r)
                                    / inject_Z cc)) /\
                 1 <= targetRanges w)
            (fun _ _ _ => True) w0 [] _ n tr (Done w0' w) Hex).
  intros dflt e r t _ Hr Ht. exists dflt, e, r. simpl targetRanges.
  apply targetRanges_of_floor in Ht; [| exact Hcc].
  split; [reflexivity |]. split; [exact Hr |]. split; [exact Ht | lia].
Qed.

(** ** The boundary list of [verifyRangeGapUnit] *)



(** ** The key generator: order of the keys *)

Lemma string_compare_refl s : String.compare s s = Eq.
Proof.
  induction s as [|c s IH]; simpl; [reflexivity |].
  unfold Ascii.compare. rewrite N.compare_refl. exact IH.
Qed.

Lemma hex_digit_compare da db :
  0 <= da < 16 -> 0 <= db < 16 ->
  Ascii.compare (hex_digit da) (hex_digit db) = Z.compare da db.
Proof.
  intros Ha Hb.
  assert (Ea : da = 0 \/ da = 1 \/ da = 2 \/ da = 3 \/ da = 4 \/ da = 5 \/ da = 6 \/ da = 7 \/
               da = 8 \/ da = 9 \/ da = 10 \/ da = 11 \/ da = 12 \/ da = 13 \/ da = 14 \/ da = 15)
    by lia.
  assert (Eb : db = 0 \/ db = 1 \/ db = 2 \/ db = 3 \/ db = 4 \/ db = 5 \/ db = 6 \/ db = 7 \/
               db = 8 \/ db = 9 \/ db = 10 \/ db = 11 \/ db = 12 \/ db = 13 \/ db = 14 \/ db = 15)
    by lia.
  repeat (destruct Ea as [-> | Ea]); try subst da;
    repeat (destruct Eb as [-> | Eb]); try subst db; reflexivity.
Qed.

Lemma hex_fixed_compare k a b :
  0 <= a -> 0 <= b ->
  String.compare (hex_fixed k a) (hex_fixed k b)
  = Z.compare (a mod 16 ^ Z.of_nat k) (b mod 16 ^ Z.of_nat k).
Proof.
  intros Ha Hb. induction k as [|k IH].
  - simpl. rewrite !Z.mod_1_r. reflexivity.
  - cbn [hex_fixed String.compare].
    assert (HP : 0 < 16 ^ Z.of_nat k) by (apply Z.pow_pos_nonneg; lia).
    set (P := 16 ^ Z.of_nat k) in *.
    rewrite hex_digit_compare by (apply Z.mod_pos_bound; lia).
    rewrite IH.
    replace (16 ^ Z.of_nat (S k)) with (P * 16)
      by (rewrite Nat2Z.inj_succ, Z.pow_succ_r by lia; unfold P; lia).
    rewrite !Z.rem_mul_r by lia.
    pose proof (Z.mod_pos_bound a P HP). pose proof (Z.mod_pos_bound b P HP).
    pose proof (Z.mod_pos_bound (a / P) 16 ltac:(lia)).
    pose proof (Z.mod_pos_bound (b / P) 16 ltac:(lia)).
    destruct (Z.compare_spec ((a / P) mod 16) ((b / P) mod 16)) as [E | E | E].
    + rewrite E. destruct (Z.compare_spec (a mod P) (b mod P)); symmetry;
        [apply Z.compare_eq_iff | apply Z.compare_lt_iff | apply Z.compare_gt_iff]; nia.
    + symmetry. apply Z.compare_lt_iff. nia.
    + symmetry. apply Z.compare_gt_iff. nia.
Qed.

Lemma format_08x_compare a b :
  String.compare (format_08x a) (format_08x b)
  = Z.compare (a mod 2 ^ 32) (b mod 2 ^ 32).
Proof.
  unfold format_08x.
  rewrite hex_fixed_compare by (apply Z.mod_pos_bound; lia).
  change (16 ^ Z.of_nat 8) with (2 ^ 32).
  rewrite !Z.mod_mod by lia. reflexivity.
Qed.

Lemma format_08x_inj a b :
  in_int32 a -> in_int32 b -> format_08x a = format_08x b -> a = b.
Proof.
  unfold in_int32, INT32_MIN, INT32_MAX. intros Ha Hb E.
  pose proof (format_08x_compare a b) as H.
  rewrite E, string_compare_refl in H. symmetry in H.
  apply Z.compare_eq_iff in H.
  pose proof (Z.mod_pos_bound a (2^32) ltac:(lia)).
  pose proof (Z.div_mod a (2^32) ltac:(lia)).
  pose proof (Z.div_mod b (2^32) ltac:(lia)).
  assert (a / 2^32 = -1 \/ a / 2^32 = 0).
  { assert (-1 <= a / 2^32) by (apply Z.div_le_lower_bound; lia).
    assert (a / 2^32 < 1) by (apply Z.div_lt_upper_bound; lia). lia. }
  assert (b / 2^32 = -1 \/ b / 2^32 = 0).
  { assert (-1 <= b / 2^32) by (apply Z.div_le_lower_bound; lia).
    assert (b / 2^32 < 1) by (apply Z.div_lt_upper_bound; lia). lia. }
  lia.
Qed.

Lemma hex_fixed_length k v : String.length (hex_fixed k v) = k.
Proof. induction k; simpl; congruence. Qed.

(** ** The key generator: ranges of two clients *)

Lemma sequentialGap_of_bounds seed : 0 <= sequentialGap_of seed <= 2.
Proof.
  unfold sequentialGap_of.
  set (q := Z.quot (Z.quot seed 10) 2).
  destruct (Z.le_gt_cases 0 q).
  - pose proof (Z.rem_bound_pos q 2 ltac:(lia) ltac:(lia)). lia.
  - pose proof (Z.rem_bound_pos_neg q 2 ltac:(lia) ltac:(lia)). lia.
Qed.

Lemma exec_newKey_sequential n w tr w' k :
  sequential w = true ->
  exec n w newKey tr (Done w' k) ->
  w' = set_nextKey w (nextKey w + sequentialGap w) /\
  k = format_08x (nextKey w + sequentialGap w) /\
  in_int32 (nextKey w + sequentialGap w).
Proof.
  intros Hseq Hex.
  refine (@wp_newKey_sequential
            (fun w' _ k => w' = set_nextKey w (nextKey w + sequentialGap w) /\
                           k = format_08x (nextKey w + sequentialGap w) /\
                           in_int32 (nextKey w + sequentialGap w))
            (fun _ _ _ => True) w [] Hseq _ n tr (Done w' k) Hex).
  auto.
Qed.

Lemma format_08x_lt a b :
  0 <= a -> a < b -> b <= INT32_MAX -> key_lt (format_08x a) (format_08x b).
Proof.
  unfold INT32_MAX, key_lt. intros Ha Hab Hb.
  rewrite format_08x_compare, !Z.mod_small by lia.
  apply Z.compare_lt_iff. exact Hab.
Qed.

Lemma keys_run_sequential w ks w' :
  keys_run w ks w' ->
  sequential w = true -> 0 <= sequentialGap w -> in_int32 (nextKey w) ->
  in_int32 (nextKey w') /\
  nextKey w <= nextKey w' /\
  Forall (fun k => exists z, nextKey w + sequentialGap w <= z <= nextKey w'
                             /\ k = format_08x z) ks /\
  (0 <= nextKey w -> 1 <= sequentialGap w -> Sorted key_lt ks).
Proof.
  induction 1 as [w | w w1 w' k ks n tr Hex Hrun IH]; intros Hseq Hgap Hin.
  - split; [exact Hin |]. split; [lia |]. split; [constructor |]. intros; constructor.
  - apply exec_newKey_sequential in Hex; [| exact Hseq].
    destruct Hex as (-> & -> & Hin1).
    simpl in IH. specialize (IH Hseq Hgap Hin1).
    destruct IH as (Hin' & Hle & Hall & Hsorted).
    split; [exact Hin' |]. split; [lia |]. split.
    + constructor.
      * exists (nextKey w + sequentialGap w). split; [lia | reflexivity].
      * eapply Forall_impl; [| exact Hall]. simpl.
        intros k (z & Hz & ->). exists z. split; [lia | reflexivity].
    + intros H0 H1. constructor; [apply Hsorted; lia |].
      destruct Hall as [| k ks (z & Hz & ->) _]; constructor.
      apply format_08x_lt; unfold in_int32 in *; lia.
Qed.

Lemma exec_BlobGranuleRangesWorkload cid cc seed ops n wa tr wa' w :
  exec n wa (BlobGranuleRangesWorkload cid cc seed ops) tr (Done wa' w) ->
  nextKey w = 10000000 * cid /\
  sequential w = sequential_of seed /\
  sequentialGap w = sequentialGap_of seed /\
  activeRanges w = [] /\ inactiveRanges w = [].
Proof.
  intros Hex.
  refine (@wp_BlobGranuleRangesWorkload cid cc seed ops
            (fun _ _ w => nextKey w = 10000000 * cid /\
                          sequential w = sequential_of seed /\
                          sequentialGap w = sequentialGap_of seed /\
                          activeRanges w = [] /\ inactiveRanges w = [])
            (fun _ _ _ => True) wa [] _ n tr (Done wa' w) Hex).
  intros; simpl. auto.
Qed.

Lemma key_le_lt_absurd a b : key_le a b -> key_lt b a -> False.
Proof.
  unfold key_le, key_lt. intros Hle Hlt. apply Hle.
  rewrite String.compare_antisym, Hlt. reflexivity.
Qed.

Lemma ranges_apart strinc a b :
  strinc_below_next strinc ->
  String.length a = String.length b -> key_lt a b ->
  ~ ranges_overlap (KeyRangeRef a (strinc a)) (KeyRangeRef b (strinc b)) /\
  ~ ranges_overlap (KeyRangeRef b (strinc b)) (KeyRangeRef a (strinc a)).
Proof.
  intros Hs Hlen Hlt. pose proof (Hs a b Hlen Hlt) as Hle.
  split; intros [H1 H2]; simpl in *; eapply key_le_lt_absurd; eauto.
Qed.

Lemma string_length_append (s1 s2 : string) :
  String.length (s1 ++ s2)%string = (String.length s1 + String.length s2)%nat.
Proof. induction s1; simpl; congruence. Qed.

Lemma key_lt_same_prefix (p a b : string) :
  key_lt a b -> key_lt (p ++ a)%string (p ++ b)%string.
Proof.
  unfold key_lt. induction p as [|c p IH]; simpl; [auto |].
  intros H. unfold Ascii.compare. rewrite N.compare_refl. auto.
Qed.

Lemma keys_run_gap_0 w ks w' :
  keys_run w ks w' -> sequential w = true -> sequentialGap w = 0 ->
  Forall (eq (format_08x (nextKey w))) ks.
Proof.
  induction 1 as [w | w w1 w' k ks n tr Hex Hrun IH]; intros Hseq Hgap; [constructor |].
  apply exec_newKey_sequential in Hex; [| exact Hseq].
  destruct Hex as (-> & -> & _). rewrite Hgap, Z.add_0_r in *.
  constructor; [reflexivity |].
  simpl in IH. apply IH; [exact Hseq | exact Hgap].
Qed.

Lemma sorted_same_key k ks :
  Forall (eq k) ks -> Sorted key_lt ks -> (List.length ks <= 1)%nat.
Proof.
  intros Hall Hs. destruct ks as [| a [| b ks]]; simpl; [lia | lia |].
  exfalso. inversion Hall as [| ? ? Ha Hall']; subst.
  inversion Hall' as [| ? ? Hb _]; subst.
  inversion Hs as [| ? ? _ Hd]; subst. inversion Hd as [| ? ? Hlt]; subst.
  unfold key_lt in Hlt. rewrite string_compare_refl in Hlt. discriminate Hlt.
Qed.

Lemma sorted_short {A} (lt : A -> A -> Prop) (l : list A) :
  (List.length l <= 1)%nat -> Sorted lt l.
Proof.
  destruct l as [| a [| b l]]; simpl; intros H;
    [constructor | constructor; constructor | lia].
Qed.

(** C4, what the code does: with [strinc] as above, clients 0 and 1 built
    from one shared random number and in sequential mode, the counter of
    client 0 starts at 0 and that of client 1 at 10,000,000; as long as the
    counter of client 0 stays below 10,000,000, no range built from a key of
    client 0 overlaps a range built from a key of client 1, for every shared
    random number.  The keys of a client come in strictly increasing order
    exactly when the gap is at least 1 or the client has drawn at most one
    key; the constructor leaves a gap of 0 exactly for the shared random
    numbers whose quotient by 20 is negative and odd, and then every call
    of [newKey] returns the same key. *)
Theorem clients_ranges_disjoint :
  forall (strinc : Key -> Key) seed cc ops0 ops1 n0 n1 wa wb tra trb wa' wb'
         w0 w1 ks0 ks1 w0' w1',
    strinc_below_next strinc ->
    exec n0 wa (BlobGranuleRangesWorkload 0 cc seed ops0) tra (Done wa' w0) ->
    exec n1 wb (BlobGranuleRangesWorkload 1 cc seed ops1) trb (Done wb' w1) ->
    sequential w0 = true ->
    keys_run w0 ks0 w0' ->
    keys_run w1 ks1 w1' ->
    nextKey w0' < 10000000 ->
    (nextKey w0 = 0 /\ nextKey w1 = 10000000) /\
    (forall k0 k1 p0 p1,
        In k0 ks0 -> In k1 ks1 ->
        In p0 ["R_"; "U_"] -> In p1 ["R_"; "U_"] ->
        ~ ranges_overlap (key_range strinc p0 k0) (key_range strinc p1 k1)) /\
    (Sorted key_lt ks0 <-> 1 <= sequentialGap w0 \/ (List.length ks0 <= 1)%nat) /\
    (Sorted key_lt ks1 <-> 1 <= sequentialGap w0 \/ (List.length ks1 <= 1)%nat) /\
    (sequentialGap w0 = 0 <->
     Z.quot seed 20 < 0 /\ Z.odd (Z.quot seed 20) = true) /\
    (sequentialGap w0 = 0 ->
     Forall (eq (format_08x 0)) ks0 /\ Forall (eq (format_08x 10000000)) ks1).
Proof.
  intros strinc seed cc ops0 ops1 n0 n1 wa wb tra trb wa' wb' w0 w1 ks0 ks1 w0' w1'
         Hstrinc Hc0 Hc1 Hseq Hrun0 Hrun1 Hbelow.
  apply exec_BlobGranuleRangesWorkload in Hc0. destruct Hc0 as (Hn0 & Hs0 & Hg0 & _).
  apply exec_BlobGranuleRangesWorkload in Hc1. destruct Hc1 as (Hn1 & Hs1 & Hg1 & _).
  pose proof (sequentialGap_of_bounds seed) as Hgap.
  assert (Hseq1 : sequential w1 = true) by congruence.
  assert (Hgap1 : sequentialGap w1 = sequentialGap w0) by congruence.
  pose proof (fun H => keys_run_gap_0 Hrun0 Hseq H) as Hsame0.
  pose proof (fun H => keys_run_gap_0 Hrun1 Hseq1 H) as Hsame1.
  apply keys_run_sequential in Hrun0;
    [| exact Hseq | lia | unfold in_int32, INT32_MIN, INT32_MAX; lia].
  apply keys_run_sequential in Hrun1;
    [| congruence | lia | unfold in_int32, INT32_MIN, INT32_MAX; lia].
  destruct Hrun0 as (_ & _ & Hall0 & Hsort0).
  destruct Hrun1 as (Hin1 & _ & Hall1 & Hsort1).
  split; [split; lia |]. split; [| split; [| split; [| split]]].
  - intros k0 k1 p0 p1 Hk0 Hk1 Hp0 Hp1.
    rewrite Forall_forall in Hall0, Hall1.
    destruct (Hall0 _ Hk0) as (z0 & Hz0 & ->).
    destruct (Hall1 _ Hk1) as (z1 & Hz1 & ->).
    assert (Hlt : key_lt (format_08x z0) (format_08x z1))
      by (apply format_08x_lt; unfold in_int32 in *; lia).
    assert (Hlen : forall p q : string,
               String.length p = String.length q ->
               String.length (p ++ format_08x z0)%string
               = String.length (q ++ format_08x z1)%string).
    { intros p q E. rewrite !string_length_append. unfold format_08x.
      rewrite !hex_fixed_length. lia. }
    unfold key_range. cbv zeta.
    simpl in Hp0, Hp1.
    destruct Hp0 as [<- | [<- | []]]; destruct Hp1 as [<- | [<- | []]].
    + exact (proj1 (@ranges_apart strinc _ _ Hstrinc (Hlen _ _ eq_refl)
                      (key_lt_same_prefix "R_" Hlt))).
    + exact (proj1 (@ranges_apart strinc ("R_" ++ format_08x z0)%string
                      ("U_" ++ format_08x z1)%string Hstrinc
                      (Hlen "R_" "U_" eq_refl) eq_refl)).
    + exact (proj2 (@ranges_apart strinc ("R_" ++ format_08x z1)%string
                      ("U_" ++ format_08x z0)%string Hstrinc
                      (eq_sym (Hlen "U_" "R_" eq_refl)) eq_refl)).
    + exact (proj1 (@ranges_apart strinc _ _ Hstrinc (Hlen _ _ eq_refl)
                      (key_lt_same_prefix "U_" Hlt))).
  - split.
    + intros Hs. destruct (Z.eq_dec (sequentialGap w0) 0) as [E | E]; [| left; lia].
      right. exact (sorted_same_key (Hsame0 E) Hs).
    + intros [H | H]; [apply Hsort0; lia | apply sorted_short; exact H].
  - split.
    + intros Hs. destruct (Z.eq_dec (sequentialGap w0) 0) as [E | E]; [| left; lia].
      right. apply (@sorted_same_key (format_08x (nextKey w1))); [| exact Hs].
      apply Hsame1. congruence.
    + intros [H | H]; [apply Hsort1; lia | apply sorted_short; exact H].
  - rewrite Hg0. apply sequentialGap_of_zero.
  - intros E. rewrite <- Hn0 at 1. split; [exact (Hsame0 E) |].
    replace 10000000 with (nextKey w1) by lia. apply Hsame1. congruence.
Qed.

Lemma strinc_spec_below_next : strinc_below_next strinc_spec.
Proof.
  unfold strinc_below_next, strinc_spec, key_lt, key_le.
  induction a as [|c a IH]; destruct b as [|d b]; simpl; try discriminate.
  intros Hlen. destruct (Ascii.compare c d); try discriminate.
  apply IH. congruence.
Qed.

(** ** Suspensions along a trace *)

Lemma exec_suspended_prefix {R} n : forall w (t : actor R) tr o,
  exec n w t tr o ->
  forall tr1 ev tr2, tr = tr1 ++ ev :: tr2 -> is_wait ev = true ->
  exists w', exec n w t tr1 (Suspended w' (call_of ev)).
Proof.
  induction n; intros w t tr o H tr1 ev tr2 Htr Hw; [destruct H |].
  rewrite exec_unfold in H.
  destruct (observe t) as [r | t' | X e k] eqn:E.
  - destruct H as [-> _]. destruct tr1; discriminate.
  - destruct (IHn _ _ _ _ H _ _ _ Htr Hw) as [w' H'].
    exists w'. rewrite exec_unfold, E. exact H'.
  - assert (Hansw : forall x w0 tr',
               tr = Ev e x :: tr' -> exec n w0 (k x) tr' o ->
               (tr1 = [] /\ ev = Ev e x) \/
               exists tr1' w', tr1 = Ev e x :: tr1' /\
                               exec n w0 (k x) tr1' (Suspended w' (call_of ev))).
    { intros x w0 tr' -> Hk. destruct tr1 as [| ev1 tr1']; simpl in Htr.
      - left. injection Htr as Hev _. auto.
      - right. injection Htr as -> ->.
        destruct (IHn _ _ _ _ Hk _ _ _ eq_refl Hw) as [w' H'].
        exists tr1', w'. auto. }
    destruct e; simpl in H; unfold wait_step, draw_step, stop_step in H.
    all: try (destruct H as [-> _]; destruct tr1; discriminate).
    all: try (destruct (IHn _ _ _ _ H _ _ _ Htr Hw) as [w' H'];
              exists w'; rewrite exec_unfold, E; exact H').
    all: try (destruct H as (x & tr' & Hok & Heq & Hk);
              destruct (Hansw x w tr' Heq Hk) as [[-> ->] | (tr1' & w' & -> & H')];
              [ simpl in Hw; discriminate Hw
              | exists w'; rewrite exec_unfold, E; simpl; exists x, tr1'; auto ]).
    all: destruct H as [[-> _] | (x & w0 & tr' & Hok & Heq & Hk)];
           [ destruct tr1; discriminate |];
           destruct (Hansw x w0 tr' Heq Hk) as [[-> ->] | (tr1' & w' & -> & H')];
           [ exists w; rewrite exec_unfold, E; left; split; reflexivity
           | exists w'; rewrite exec_unfold, E; right; exists x, w0, tr1'; auto ].
Qed.

(** ** Properties of the calls alone *)

Lemma safe_ret {R} P (r : R) : safe P (Ret r).
Proof. intros w h. apply wp_ret. exact I. Qed.

Lemma safe_stop {R} P e : safe P (@stop R e).
Proof. intros w h. apply wp_stop. Qed.

Lemma safe_bind {R S} P (t : actor R) (k : R -> actor S) :
  safe P t -> (forall r, safe P (k r)) -> safe P (ITree.bind t k).
Proof.
  intros Ht Hk w h. apply wp_bind.
  eapply wp_mono; [| | apply Ht]; simpl; auto.
  intros w' h' r _. apply Hk.
Qed.

Lemma safe_trigger {X} P (e : wlE X) :
  (waited e = true -> P (Call e)) -> safe P (ITree.trigger e).
Proof.
  intros HP w h. apply wp_trigger.
  destruct e; simpl in *;
    first
      [ exact I
      | solve [apply wp_ret; exact I]
      | solve [intros x _; apply wp_ret; exact I]
      | split; [apply HP; reflexivity | intros x w' _; apply wp_ret; exact I] ].
Qed.

Lemma safe_iter {J R} P (body : J -> actor (J + R)) i :
  (forall j, safe P (body j)) -> safe P (ITree.iter body i).
Proof.
  intros Hb w h.
  apply wp_iter with (Inv := fun _ _ _ => True); [| exact I].
  intros j w' h' _. eapply wp_mono; [| | apply Hb]; simpl; auto.
  intros ? ? [? | ?]; auto.
Qed.

Lemma safe_ASSERT P b : safe P (ASSERT b).
Proof. destruct b; [apply safe_ret | apply safe_stop]. Qed.

Lemma safe_exec {R} P (t : actor R) n w tr w' c :
  safe P t -> exec n w t tr (Suspended w' c) -> P c.
Proof. intros Hs Hex. exact (Hs w [] n tr _ Hex). Qed.

(** Every call in a trace was once the call the actor was suspended on. *)
Lemma safe_trace {R} P (t : actor R) n w tr o :
  safe P t -> exec n w t tr o ->
  forall ev, In ev tr -> is_wait ev = true -> P (call_of ev).
Proof.
  intros Hs Hex ev Hin Hw.
  apply in_split in Hin. destruct Hin as (tr1 & tr2 & ->).
  destruct (@exec_suspended_prefix _ _ _ _ _ _ Hex _ _ _ eq_refl Hw) as [w' H'].
  eapply safe_exec; eauto.
Qed.

Ltac safe_step :=
  lazymatch goal with
  | |- safe _ (Ret _) => apply safe_ret
  | |- safe _ (stop _) => apply safe_stop
  | |- safe _ (ASSERT _) => apply safe_ASSERT
  | |- safe _ (ITree.trigger _) => apply safe_trigger; simpl
  | |- safe _ (ITree.bind _ _) => apply safe_bind; [| intros ?]
  | |- safe _ (ITree.iter _ _) => apply safe_iter; intros ?
  | |- safe _ (if ?b then _ else _) => destruct b
  | |- safe _ (match ?x with _ => _ end) => destruct x
  end.

Lemma safe_setRange P range active :
  P (Call (BlobbifyRange range)) -> P (Call (UnblobbifyRange range)) ->
  safe P (setRange range active).
Proof. intros; unfold setRange; repeat safe_step; auto. Qed.

Lemma safe_isRangeActive P range :
  P (Call (VerifyBlobRange range None)) -> safe P (isRangeActive range).
Proof. intros; unfold isRangeActive; repeat safe_step; auto. Qed.

Lemma safe_granules_retry P range body :
  P (Call (GetBlobGranuleRanges range OP_LIMIT)) ->
  (forall e, P (Call (OnError e))) ->
  (forall g, safe P (body g)) ->
  safe P (granules_retry range body).
Proof. intros; unfold granules_retry; repeat safe_step; auto. Qed.

Lemma rangesMisalignedUnit_no_forced_purge range :
  safe (fun c => forced_purge c = false) (rangesMisalignedUnit range).
Proof.
  unfold rangesMisalignedUnit.
  repeat first
    [ apply safe_setRange; [reflexivity | reflexivity]
    | apply safe_isRangeActive; reflexivity
    | apply safe_granules_retry; [reflexivity | reflexivity | intros ?]
    | safe_step
    | reflexivity
    | intros _; reflexivity ].
Qed.

Lemma not_waited_not_forced ev : is_wait ev = false -> forced_purge (call_of ev) = false.
Proof. destruct ev as [X e x]; destruct e; simpl; congruence. Qed.

(** C2, what the code does: no call of [purgeBlobGranules] that
    [rangesMisalignedUnit] makes, the second one included, has [force] set. *)
Theorem rangesMisaligned_purges_not_forced :
  forall range n w tr o,
    exec n w (rangesMisalignedUnit range) tr o ->
    (forall ev, In ev tr -> forced_purge (call_of ev) = false) /\
    (forall w' c, o = Suspended w' c -> forced_purge c = false).
Proof.
  intros range n w tr o Hex. split.
  - intros ev Hin. destruct (is_wait ev) eqn:Hw.
    + eapply safe_trace with (P := fun c => forced_purge c = false);
        [apply rangesMisalignedUnit_no_forced_purge | exact Hex | exact Hin | exact Hw].
    + apply not_waited_not_forced; exact Hw.
  - intros w' c ->.
    eapply safe_exec with (P := fun c => forced_purge c = false);
      [apply rangesMisalignedUnit_no_forced_purge | exact Hex].
Qed.

(** ** The checks of [_check] *)

Lemma checkRange_calls range isActive :
  safe (fun c => forall r, call_range c = Some r -> r = range) (checkRange range isActive).
Proof.
  unfold checkRange.
  repeat first
    [ apply safe_isRangeActive; simpl; congruence
    | apply safe_granules_retry; [simpl; congruence | simpl; congruence | intros ?]
    | safe_step
    | solve [simpl; congruence]
    | solve [intros _; simpl; congruence] ].
Qed.

Lemma not_waited_no_range ev : is_wait ev = false -> call_range (call_of ev) = None.
Proof. destruct ev as [X e x]; destruct e; simpl; congruence. Qed.

Lemma check_loop_map (l pre : list KeyRange) (acc : list (KeyRange * bool)) :
  fold_left
    (fun checks i =>
       match nth_error (pre ++ l) i with
       | Some range => checks ++ [(range, true)]
       | None => checks
       end)
    (seq (List.length pre) (List.length l)) acc
  = acc ++ map (fun r => (r, true)) l.
Proof.
  revert pre acc. induction l as [| x l IH]; intros pre acc; simpl.
  - rewrite app_nil_r. reflexivity.
  - rewrite nth_error_app2 by lia. rewrite Nat.sub_diag. simpl.
    replace (pre ++ x :: l) with ((pre ++ [x]) ++ l) by (rewrite <- app_assoc; reflexivity).
    replace (S (List.length pre)) with (List.length (pre ++ [x]))
      by (rewrite length_app; simpl; lia).
    rewrite IH. rewrite <- app_assoc. reflexivity.
Qed.

Lemma _check_started_map self :
  _check_started self = map (fun r => (r, true)) (activeRanges self).
Proof. exact (check_loop_map (activeRanges self) [] []). Qed.

(** C9: [_check] starts one [checkRange(range, true)] for each entry of
    [activeRanges], in order, and nothing else, whatever [inactiveRanges]
    holds; every call such a check makes on a range is a call on its own
    range, which is in [activeRanges]. *)
Theorem check_starts_active_only :
  forall self : Workload,
    _check_started self = map (fun r => (r, true)) (activeRanges self) /\
    (forall l, _check_checks (set_inactiveRanges self l) = _check_checks self) /\
    (forall t n w tr o,
        In t (_check_checks self) -> exec n w t tr o ->
        forall c, In c (map call_of tr) \/ (exists w', o = Suspended w' c) ->
        forall r, call_range c = Some r -> In r (activeRanges self)).
Proof.
  intros self. split; [apply _check_started_map |]. split; [reflexivity |].
  intros t n w tr o Ht Hex c Hc r Hr.
  unfold _check_checks in Ht. rewrite _check_started_map, map_map in Ht. simpl in Ht.
  apply in_map_iff in Ht. destruct Ht as (range & <- & Hin).
  assert (r = range); [| subst; exact Hin].
  destruct Hc as [Hc | [w' ->]].
  - apply in_map_iff in Hc. destruct Hc as (ev & <- & Hev).
    destruct (is_wait ev) eqn:Hw.
    + refine (@safe_trace _ (fun c => forall r, call_range c = Some r -> r = range)
                _ _ _ _ _ (checkRange_calls range true) Hex ev Hev Hw r Hr).
    + rewrite not_waited_no_range in Hr by exact Hw. discriminate.
  - refine (@safe_exec _ (fun c => forall r, call_range c = Some r -> r = range)
              _ _ _ _ _ _ (checkRange_calls range true) Hex r Hr).
Qed.

(** ** The scenario of a pass of the unit runner *)

Lemma newKey_no_wait : safe (fun _ => False) newKey.
Proof.
  unfold newKey. repeat first [safe_step | solve [intros H; discriminate H]].
Qed.

Lemma pick_op_no_wait : safe (fun _ => False) pick_op.
Proof.
  unfold pick_op. repeat first [safe_step | solve [intros H; discriminate H]].
Qed.

Lemma excluded_count_false op :
  0 <= op < op_value OP_COUNT -> excluded_count op = false ->
  op = op_value VERIFY_RANGE_UNIT \/ op = op_value VERIFY_RANGE_GAP_UNIT \/
  op = op_value BLOBBIFY_IDEMPOTENT.
Proof.
  simpl. intros Hop He.
  assert (E : op = 0 \/ op = 1 \/ op = 2 \/ op = 3 \/ op = 4) by lia.
  destruct E as [-> | [-> | [-> | [-> | ->]]]]; auto; discriminate He.
Qed.

Lemma pick_op_result n w tr w' op :
  exec n w pick_op tr (Done w' op) ->
  op = op_value VERIFY_RANGE_UNIT \/ op = op_value VERIFY_RANGE_GAP_UNIT \/
  op = op_value BLOBBIFY_IDEMPOTENT.
Proof.
  intros Hex.
  refine (@wp_iter _ _ _ (fun _ _ _ => True)
            (fun _ _ op => op = op_value VERIFY_RANGE_UNIT \/
                           op = op_value VERIFY_RANGE_GAP_UNIT \/
                           op = op_value BLOBBIFY_IDEMPOTENT)
            (fun _ _ _ => True) _ 1000 w [] Logic.I n tr (Done w' op) Hex).
  intros loopTries w0 h0 _. wp_step. intros x Hx.
  destruct (excluded_count x) eqn:He; simpl.
  - wp_step. wp_step. wp_step. exact Logic.I.
  - wp_step. apply excluded_count_false; assumption.
Qed.

Lemma no_wait_trace {R} (t : actor R) n w tr o :
  safe (fun _ => False) t -> exec n w t tr o ->
  Forall (fun ev => is_wait ev = false) tr /\
  (forall w' c, o <> Suspended w' c).
Proof.
  intros Hs Hex. split.
  - apply Forall_forall. intros ev Hin. destruct (is_wait ev) eqn:Hw; [| reflexivity].
    exfalso. exact (@safe_trace _ (fun _ => False) _ _ _ _ _ Hs Hex ev Hin Hw).
  - intros w' c ->. exact (@safe_exec _ (fun _ => False) _ _ _ _ _ _ Hs Hex).
Qed.

(** C8: in every pass through the body of the unit-runner loop the scenario
    run is [verifyRangeUnit], [verifyRangeGapUnit] or
    [blobbifyIdempotentUnit]; [rangesMisalignedUnit] and [reBlobbifyUnit]
    are never run. *)
Theorem unit_iteration_dispatch :
  forall (strinc : Key -> Key) n w tr o,
    exec n w (unit_iteration strinc) tr o ->
    unit_dispatched strinc n w tr o.
Proof.
  intros strinc n w tr o Hex. unfold unit_iteration in Hex.
  apply exec_bind_inv in Hex. bind_cases_tac.
  - cbv zeta in H2. apply exec_bind_inv in H2.
    destruct H2 as [(w2 & op & trp & trr & Hp & Hrun & ->)
                   | [(w2 & e2 & Hp & ->) | (w2 & c2 & Hp & ->)]].
    + left. exists w1, r1, tr1, w2, op, trp, trr.
      split; [exact H1 |]. split; [exact Hp |]. split; [reflexivity |].
      cbv zeta. unfold key_range. cbv zeta.
      destruct (@pick_op_result _ _ _ _ _ Hp) as [-> | [-> | ->]];
        [left | right; left | right; right]; (split; [reflexivity | exact Hrun]).
    + right. split; [eauto |]. apply Forall_app. split.
      * exact (proj1 (@no_wait_trace _ _ _ _ _ _ newKey_no_wait H1)).
      * exact (proj1 (@no_wait_trace _ _ _ _ _ _ pick_op_no_wait Hp)).
    + exfalso. exact (proj2 (@no_wait_trace _ _ _ _ _ _ pick_op_no_wait Hp) _ _ eq_refl).
  - right. split; [eauto |]. exact (proj1 (@no_wait_trace _ _ _ _ _ _ newKey_no_wait H1)).
  - exfalso. exact (proj2 (@no_wait_trace _ _ _ _ _ _ newKey_no_wait H1) _ _ eq_refl).
Qed.

(** ** The end of [blobbifyIdempotentUnit] *)

Lemma wp_skip {R S} (t : actor R) (k : R -> actor S)
    (Q : Workload -> list event -> S -> Prop) w h :
  (forall r w' h', wp (k r) Q (fun _ _ _ => True) w' h') ->
  wp (ITree.bind t k) Q (fun _ _ _ => True) w h.
Proof. intros H. apply wp_bind. apply wp_any; auto. Qed.

Lemma wp_setRange_bind {R} (range : KeyRange) (active : bool) (k : bool -> actor R)
    (Q : Workload -> list event -> R -> Prop) w h :
  (forall b w',
      others w w' ->
      wp (k b) Q (fun _ _ _ => True) w'
         (h ++ [Ev (if active return wlE bool
                     then BlobbifyRange range else UnblobbifyRange range) b])) ->
  wp (ITree.bind (setRange range active) k) Q (fun _ _ _ => True) w h.
Proof.
  intros H. apply wp_bind. unfold setRange. destruct active.
  - wp_step. split; [exact I |]. intros b w' Hw'. wp_step. apply H. exact Hw'.
  - wp_step. split; [exact I |]. intros b w' Hw'. wp_step. apply H. exact Hw'.
Qed.

Lemma wp_ASSERT_bind {R} b (k : unit -> actor R)
    (Q : Workload -> list event -> R -> Prop) I w h :
  (b = true -> wp (k tt) Q I w h) -> wp (ITree.bind (ASSERT b) k) Q I w h.
Proof.
  intros H. apply wp_bind. destruct b; simpl.
  - apply wp_ret. auto.
  - apply wp_stop.
Qed.

(** C1, what the code does: every full run of [blobbifyIdempotentUnit] ends
    with the forced purge, eight calls of [unblobbifyRange] answered false,
    and then two calls of [blobbifyRange] (not [unblobbifyRange]) on the
    active range, both answered true. *)
Theorem blobbifyIdempotent_ends_with_blobbify :
  forall range n w tr w',
    exec n w (blobbifyIdempotentUnit range) tr (Done w' tt) ->
    exists tr0 purgeKey, tr = tr0 ++ idempotent_tail range purgeKey.
Proof.
  intros range n w tr w' Hex.
  assert (H : wp (blobbifyIdempotentUnit range)
                 (fun _ h _ => exists tr0 purgeKey, h = tr0 ++ idempotent_tail range purgeKey)
                 (fun _ _ _ => True) w []); [| exact (H n tr _ Hex)].
  clear. unfold blobbifyIdempotentUnit. cbv zeta.
  repeat lazymatch goal with
         | |- wp (ITree.bind (ITree.trigger (PurgeBlobGranules _ _ _ _)) _) _ _ _ _ => fail
         | |- wp (ITree.bind _ _) _ _ _ _ => apply wp_skip; intros ? ? ?
         end.
  wp_step. split; [exact I |]. intros purgeKey ?wo _.
  wp_step. split; [exact I |]. intros [] ?wo _.
  repeat (apply wp_setRange_bind; intros ? ?wo _; cbv iota;
          apply wp_ASSERT_bind; intros ?).
  apply wp_setRange_bind; intros last ?wo _; cbv iota.
  destruct last; [apply wp_ret | apply wp_stop].
  repeat match goal with
         | H : negb ?b = true |- _ => apply negb_true_iff in H; subst b
         | H : ?b = true |- _ => subst b
         end.
  exists h'25, purgeKey. unfold idempotent_tail. cbv zeta.
  repeat rewrite <- app_assoc. reflexivity.
Qed.

(** ** The driver: ranges in [activeRanges] *)

Lemma list_set_app {A} (l1 l2 : list A) x y :
  list_set (l1 ++ x :: l2) (List.length l1) y = l1 ++ y :: l2.
Proof. induction l1 as [| a l1 IH]; simpl; [reflexivity | rewrite IH; reflexivity]. Qed.

Lemma nth_error_back {A} (l : list A) (y : A) :
  nth_error (l ++ [y]) (List.length (l ++ [y]) - 1) = Some y.
Proof.
  rewrite length_app. simpl. replace (List.length l + 1 - 1)%nat with (List.length l) by lia.
  rewrite nth_error_app2 by lia. rewrite Nat.sub_diag. reflexivity.
Qed.

Lemma swapAndPop_perm {A} (l : list A) i x :
  nth_error l i = Some x -> Permutation l (x :: swapAndPop l i).
Proof.
  intros Hnth. apply nth_error_split in Hnth. destruct Hnth as (l1 & l2 & -> & <-).
  unfold swapAndPop.
  destruct l2 as [| x2 l2].
  - rewrite nth_error_back, list_set_app, removelast_last.
    symmetry. apply Permutation_cons_append.
  - destruct (@exists_last _ (x2 :: l2) ltac:(discriminate)) as (l2' & y & ->).
    assert (H : nth_error (l1 ++ x :: l2' ++ [y])
                          (List.length (l1 ++ x :: l2' ++ [y]) - 1) = Some y).
    { replace (l1 ++ x :: l2' ++ [y]) with ((l1 ++ x :: l2') ++ [y])
        by (rewrite <- app_assoc; reflexivity).
      apply nth_error_back. }
    rewrite H, list_set_app.
    replace (l1 ++ y :: l2' ++ [y]) with ((l1 ++ y :: l2') ++ [y])
      by (rewrite <- app_assoc; reflexivity).
    rewrite removelast_last.
    symmetry. apply Permutation_cons_app, Permutation_app_head.
    apply Permutation_cons_append.
Qed.

Lemma swapAndPop_NoDup {A} (l : list A) i x :
  NoDup l -> nth_error l i = Some x ->
  NoDup (swapAndPop l i) /\ ~ In x (swapAndPop l i) /\
  (forall r, In r (swapAndPop l i) -> In r l).
Proof.
  intros Hnd Hnth. pose proof (swapAndPop_perm _ _ Hnth) as HP.
  pose proof (Permutation_NoDup HP Hnd) as Hnd'. inversion Hnd'; subst.
  repeat split; auto.
  intros r Hr. eapply Permutation_in; [symmetry; exact HP | right; exact Hr].
Qed.

Lemma uids_app h1 h2 : uids (h1 ++ h2) = uids h1 ++ uids h2.
Proof.
  induction h1 as [| ev h1 IH]; simpl; [reflexivity |].
  destruct (uid_of ev); simpl; congruence.
Qed.

Lemma ru_snoc r h ev :
  registered_untouched r h [] -> touches r (call_of ev) = false ->
  registered_untouched r (h ++ [ev]) [].
Proof.
  intros (h1 & e0 & h2 & -> & Hb & Hall) Ht.
  exists h1, e0, (h2 ++ [ev]). split; [rewrite <- app_assoc; reflexivity |].
  split; [exact Hb |].
  rewrite app_nil_r in *. rewrite map_app. apply Forall_app. split; [exact Hall |].
  constructor; [exact Ht | constructor].
Qed.

Lemma ru_pending r h c :
  registered_untouched r h [] -> touches r c = false ->
  registered_untouched r h [c].
Proof.
  intros (h1 & e0 & h2 & -> & Hb & Hall) Ht.
  exists h1, e0, h2. split; [reflexivity |]. split; [exact Hb |].
  rewrite app_nil_r in Hall. apply Forall_app. split; [exact Hall |].
  constructor; [exact Ht | constructor].
Qed.

Lemma ru_new r h ev :
  blobbified r ev = true -> registered_untouched r (h ++ [ev]) [].
Proof.
  intros Hb. exists h, ev, []. split; [reflexivity |]. split; [exact Hb |].
  constructor.
Qed.

Lemma wp_newKey (Q : Workload -> list event -> string -> Prop) I w h :
  (sequential w = true -> in_int32 (nextKey w + sequentialGap w) ->
   Q (set_nextKey w (nextKey w + sequentialGap w)) h
     (format_08x (nextKey w + sequentialGap w))) ->
  (sequential w = false -> forall u, Q w (h ++ [Ev RandomUniqueID u]) u) ->
  wp newKey Q I w h.
Proof.
  intros Hs Hr. destruct (sequential w) eqn:Hseq.
  - apply wp_newKey_sequential; auto.
  - unfold newKey. wp_step. rewrite Hseq. wp_step. intros u _. wp_step. auto.
Qed.

(** What the unit runner and [check] leave as it is. *)
Lemma unit_side_spares w w' :
  unit_side w w' ->
  activeRanges w' = activeRanges w /\ inactiveRanges w' = inactiveRanges w /\
  sequential w' = sequential w /\ sequentialGap w' = sequentialGap w /\
  targetRanges w' = targetRanges w /\
  (0 <= sequentialGap w -> nextKey w <= nextKey w') /\
  (sequential w = false -> nextKey w' = nextKey w).
Proof.
  induction 1 as [w | w w' Hseq Hin Hside IH | w w' Hside IH].
  - repeat split; auto; lia.
  - simpl in IH. destruct IH as (Ha & Hi & Hs & Hg & Ht & Hn & Hr).
    repeat split; auto; [intros; specialize (Hn ltac:(assumption)); lia | congruence].
  - exact IH.
Qed.

Section DriverInvariant.
Variable strinc : Key -> Key.
Variable seq0 : bool.
Variable gap0 : Z.
Hypothesis gap_pos : seq0 = true -> 1 <= gap0.
Hypothesis beside : forall w w', others w w' -> unit_side w w'.

Local Abbreviation prov := (prov strinc seq0).
Local Abbreviation facts := (facts strinc seq0).
Local Abbreviation inv := (inv strinc seq0 gap0).

Lemma prov_snoc r w h ev : prov r w h -> prov r w (h ++ [ev]).
Proof.
  unfold prov. destruct seq0; [auto |].
  intros (u & Hu & ->). exists u. split; [| reflexivity].
  rewrite uids_app. apply in_or_app. left. exact Hu.
Qed.

Lemma inv_snoc P w h ev :
  inv P w h -> (forall r, P r -> touches r (call_of ev) = false) ->
  inv P w (h ++ [ev]).
Proof.
  intros (Hs & Hg & HF) Ht. split; [exact Hs |]. split; [exact Hg |].
  intros Hnd. rewrite uids_app in Hnd. apply NoDup_app_remove_r in Hnd.
  destruct (HF Hnd) as [Hnda Hall]. split; [exact Hnda |].
  intros r Hr. destruct (Hall r Hr) as (Hru & Hpr & HP).
  split; [apply ru_snoc; auto |]. split; [apply prov_snoc; exact Hpr | exact HP].
Qed.

Lemma inv_at_call P w h c :
  inv P w h -> (forall r, P r -> touches r c = false) -> at_call w h c.
Proof.
  intros (_ & _ & HF) Ht Hnd r Hr.
  destruct (HF Hnd) as [_ Hall]. destruct (Hall r Hr) as (Hru & _ & HP).
  apply ru_pending; auto.
Qed.

Lemma inv_weaken (P P' : KeyRange -> Prop) w h :
  inv P w h -> (forall r, P r -> P' r) -> inv P' w h.
Proof.
  intros (Hs & Hg & HF) HPP. split; [exact Hs |]. split; [exact Hg |].
  intros Hnd. destruct (HF Hnd) as [Hnda Hall]. split; [exact Hnda |].
  intros r Hr. destruct (Hall r Hr) as (Hru & Hpr & HP). auto.
Qed.

Lemma key_range_inj p k1 k2 :
  key_range strinc p k1 = key_range strinc p k2 -> k1 = k2.
Proof.
  unfold key_range. cbv zeta. intros H. injection H as H _.
  induction p as [| c p IH]; simpl in H; [exact H |].
  injection H as H. auto.
Qed.

Lemma inv_same P w w' h :
  inv P w h ->
  activeRanges w' = activeRanges w -> nextKey w <= nextKey w' ->
  sequential w' = sequential w -> sequentialGap w' = sequentialGap w ->
  inv P w' h.
Proof.
  intros (Hs & Hg & HF) Ea En Es Eg. split; [congruence |]. split; [congruence |].
  intros Hnd. destruct (HF Hnd) as [Hnda Hall]. unfold facts. rewrite Ea.
  split; [exact Hnda |].
  intros r Hr. destruct (Hall r Hr) as (Hru & Hpr & HP).
  split; [exact Hru |]. split; [| exact HP].
  unfold prov in *. destruct seq0; [| exact Hpr].
  destruct Hpr as (z & Hz & Hzin & ->). exists z. split; [lia | auto].
Qed.

(** The invariant holds on while the driver waits. *)
Lemma inv_beside P w w' h : inv P w h -> others w w' -> inv P w' h.
Proof.
  intros Hinv Hw'. apply beside, unit_side_spares in Hw'.
  destruct Hw' as (Ha & _ & Hs & Hg & _ & Hn & Hr).
  eapply inv_same; [exact Hinv | auto | | auto | auto].
  destruct Hinv as (Hs0 & Hg0 & _).
  destruct (sequential w) eqn:Hseq; [| rewrite Hr; [lia | reflexivity]].
  apply Hn. rewrite Hg0. pose proof (gap_pos (eq_sym Hs0)). lia.
Qed.

Lemma NoDup_snoc {A} (l : list A) x : NoDup l -> ~ In x l -> NoDup (l ++ [x]).
Proof.
  intros Hnd Hx. apply NoDup_app; [exact Hnd | repeat constructor; auto |].
  intros a Ha [<- | []]. exact (Hx Ha).
Qed.

Lemma KeyRange_eqb_refl r : KeyRange_eqb r r = true.
Proof. apply KeyRange_eqb_eq. reflexivity. Qed.

Lemma KeyRange_eqb_neq r r' : r <> r' -> KeyRange_eqb r' r = false.
Proof.
  intros Hne. destruct (KeyRange_eqb r' r) eqn:E; [| reflexivity].
  apply KeyRange_eqb_eq in E. congruence.
Qed.

(** [registerNewRange] after the key [k] is drawn. *)
Lemma wp_register_rest w h k :
  let range := key_range strinc "R_" k in
  inv (fun r => r <> range) w h ->
  prov range w h ->
  wp (success <- setRange range true ;; ASSERT success ;; push_active range)
     (fun w' h' _ => inv (fun _ => True) w' h') at_call w h.
Proof.
  intros range Hinv Hprov.
  apply wp_bind. unfold setRange. wp_step. split.
  - eapply inv_at_call; [exact Hinv | reflexivity].
  - intros success w' Hw'. wp_step. wp_step. wp_step.
    unfold push_active. wp_step. wp_step. wp_step.
    subst success.
    assert (Hprov' : prov range w' h).
    { pose proof (inv_beside Hinv Hw') as (Hs' & _ & _).
      pose proof Hw' as Hsp. apply beside, unit_side_spares in Hsp.
      destruct Hsp as (_ & _ & Hs & Hg & _ & Hn & _).
      unfold prov in *. destruct seq0 eqn:Es; [| exact Hprov].
      destruct Hprov as (z & Hz & Hzin & Hr). exists z.
      split; [| auto].
      destruct Hinv as (_ & Hg0 & _). pose proof (gap_pos eq_refl).
      assert (nextKey w <= nextKey w') by (apply Hn; lia). lia. }
    clear Hprov. rename Hprov' into Hprov.
    apply (fun H => inv_beside H Hw') in Hinv. clear Hw'.
    apply (inv_snoc (Ev (BlobbifyRange range) true)) in Hinv; [| reflexivity].
    destruct Hinv as (Hs & Hg & HF).
    split; [exact Hs |]. split; [exact Hg |].
    intros Hnd. destruct (HF Hnd) as [Hnda Hall]. simpl activeRanges. split.
    + apply NoDup_snoc; [exact Hnda |].
      intros Hin. destruct (Hall _ Hin) as (_ & _ & Hne). apply Hne. reflexivity.
    + intros r Hr. apply in_app_or in Hr. destruct Hr as [Hr | [<- | []]].
      * destruct (Hall r Hr) as (Hru & Hpr & _). auto.
      * split; [| split; [apply prov_snoc; exact Hprov | exact Logic.I]].
        apply ru_new. simpl. rewrite KeyRange_eqb_refl. reflexivity.
Qed.

Lemma wp_registerNewRange w h :
  inv (fun _ => True) w h ->
  wp (registerNewRange strinc) (fun w' h' _ => inv (fun _ => True) w' h') at_call w h.
Proof.
  intros Hinv. unfold registerNewRange. apply wp_bind. apply wp_newKey.
  - intros Hseq Hin. cbv zeta.
    destruct Hinv as (Hs & Hg & HF).
    assert (Es : seq0 = true) by congruence.
    pose proof (gap_pos Es) as Hgap.
    apply wp_register_rest.
    + split; [exact Hs |]. split; [exact Hg |].
      intros Hnd. destruct (HF Hnd) as [Hnda Hall]. split; [exact Hnda |].
      intros r Hr. destruct (Hall r Hr) as (Hru & Hpr & _).
      split; [exact Hru |].
      unfold prov in *. rewrite Es in *. destruct Hpr as (z & Hz & Hzin & ->).
      split.
      * exists z. simpl. split; [lia | auto].
      * intros E. apply key_range_inj in E. apply format_08x_inj in E; auto. lia.
    + unfold prov. rewrite Es. eexists. simpl. split; [apply Z.le_refl |].
      split; [exact Hin | reflexivity].
  - intros Hseq u. cbv zeta.
    destruct Hinv as (Hs & Hg & HF).
    assert (Es : seq0 = false) by congruence.
    apply wp_register_rest.
    + split; [exact Hs |]. split; [exact Hg |].
      intros Hnd. rewrite uids_app in Hnd. simpl in Hnd.
      pose proof (NoDup_app_remove_r _ _ Hnd) as Hnd0.
      destruct (HF Hnd0) as [Hnda Hall]. split; [exact Hnda |].
      intros r Hr. destruct (Hall r Hr) as (Hru & Hpr & _).
      split; [apply ru_snoc; [exact Hru | reflexivity] |].
      split; [apply prov_snoc; exact Hpr |].
      unfold prov in Hpr. rewrite Es in Hpr. destruct Hpr as (u' & Hu' & ->).
      intros E. apply key_range_inj in E. subst u'.
      apply NoDup_remove_2 in Hnd. rewrite app_nil_r in Hnd. exact (Hnd Hu').
    + unfold prov. rewrite Es. exists u. split; [| reflexivity].
      rewrite uids_app. apply in_or_app. right. left. reflexivity.
Qed.

(** [unregisterRandomRange] after the range is taken out of [activeRanges]. *)
Lemma wp_unregister_rest w h range :
  inv (fun r => r <> range) w h ->
  wp (success <- setRange range false ;; ASSERT success ;; push_inactive range)
     (fun w' h' _ => inv (fun _ => True) w' h') at_call w h.
Proof.
  intros Hinv.
  apply wp_bind. unfold setRange. wp_step. split.
  - eapply inv_at_call; [exact Hinv |].
    intros r Hr. simpl. apply KeyRange_eqb_neq. exact Hr.
  - intros success w' Hw'. wp_step. wp_step. wp_step.
    unfold push_inactive. wp_step. wp_step. wp_step.
    apply (fun H => inv_beside H Hw') in Hinv.
    apply (inv_snoc (Ev (UnblobbifyRange range) true)) in Hinv.
    + eapply inv_same; [eapply inv_weaken; [exact Hinv | auto] | | | |];
        first [reflexivity | apply Z.le_refl].
    + intros r Hr. simpl. apply KeyRange_eqb_neq. exact Hr.
Qed.

Lemma wp_unregisterRandomRange w h :
  inv (fun _ => True) w h ->
  wp unregisterRandomRange (fun w' h' _ => inv (fun _ => True) w' h') at_call w h.
Proof.
  intros Hinv. unfold unregisterRandomRange.
  wp_step. wp_step. intros idx Hidx.
  destruct (0 <=? idx); [| wp_step].
  destruct (nth_error (activeRanges w) (Z.to_nat idx)) as [range |] eqn:Hnth; [| wp_step].
  wp_step.
  assert (Hinv1 : inv (fun r => r <> range)
                      (set_activeRanges w (swapAndPop (activeRanges w) (Z.to_nat idx)))
                      (h ++ [Ev (RandomInt 0 (Z.of_nat (List.length (activeRanges w)))) idx])).
  { apply (inv_snoc (Ev (RandomInt 0 (Z.of_nat (List.length (activeRanges w)))) idx))
      in Hinv; [| reflexivity].
    destruct Hinv as (Hs & Hg & HF).
    split; [exact Hs |]. split; [exact Hg |].
    intros Hnd. destruct (HF Hnd) as [Hnda Hall].
    destruct (swapAndPop_NoDup _ Hnda Hnth) as (Hnd' & Hnotin & Hsub).
    split; [exact Hnd' |].
    intros r Hr. simpl in Hr. destruct (Hall r (Hsub r Hr)) as (Hru & Hpr & _).
    split; [exact Hru |]. split; [exact Hpr |].
    intros ->. exact (Hnotin Hr). }
  wp_step. intros force _.
  apply (inv_snoc (Ev Coinflip force)) in Hinv1; [| reflexivity].
  apply wp_bind. destruct force.
  - wp_step. split.
    + eapply inv_at_call; [exact Hinv1 |].
      intros r Hr. simpl. apply KeyRange_eqb_neq. exact Hr.
    + intros purgeKey w1 Hw1.
      apply (fun H => inv_beside H Hw1) in Hinv1.
      apply (inv_snoc (Ev (PurgeBlobGranules range 1 None true) purgeKey)) in Hinv1;
        [| intros r Hr; simpl; apply KeyRange_eqb_neq; exact Hr].
      wp_step. split.
      * eapply inv_at_call; [exact Hinv1 | reflexivity].
      * intros [] w2 Hw2. wp_step.
        apply (fun H => inv_beside H Hw2) in Hinv1.
        apply (inv_snoc (Ev (WaitPurgeGranulesComplete purgeKey) tt)) in Hinv1;
          [| reflexivity].
        apply wp_unregister_rest. exact Hinv1.
  - wp_step. apply wp_unregister_rest. exact Hinv1.
Qed.

Lemma wp_setup w h :
  inv (fun _ => True) w h ->
  wp (_setup strinc) (fun w' h' _ => inv (fun _ => True) w' h') at_call w h.
Proof.
  intros Hinv. unfold _setup. wp_step. split.
  - eapply inv_at_call; [exact Hinv | reflexivity].
  - intros [] w1 Hw1.
    apply (fun H => inv_beside H Hw1) in Hinv.
    apply (inv_snoc (Ev (ChangeConfig "blob_granules_enabled=1" true) tt)) in Hinv;
      [| reflexivity].
    apply wp_iter with (Inv := fun _ w h => inv (fun _ => True) w h); [| exact Hinv].
    clear w h Hinv Hw1. intros i w h Hinv. wp_step.
    destruct (i <? targetRanges w).
    + apply wp_bind. eapply wp_mono; [| | apply wp_registerNewRange; exact Hinv].
      * intros w' h' r H. apply wp_ret. exact H.
      * auto.
    + wp_step. exact Hinv.
Qed.

Lemma wp_client w h :
  inv (fun _ => True) w h ->
  wp (blobGranuleRangesClient strinc) (fun _ _ _ => True) at_call w h.
Proof.
  intros Hinv. unfold blobGranuleRangesClient.
  apply wp_iter with (Inv := fun _ w h => inv (fun _ => True) w h); [| exact Hinv].
  clear w h Hinv. intros [] w h Hinv. wp_step.
  assert (Hop : forall register w1 h1,
             inv (fun _ => True) w1 h1 ->
             wp ((if register : bool then registerNewRange strinc
                  else unregisterRandomRange) ;;
                 ITree.trigger (Poisson (operationsPerSecond w)) ;;
                 Ret (inl tt))
                (fun w' h' (lr : unit + unit) =>
                   match lr with
                   | inl _ => inv (fun _ => True) w' h'
                   | inr _ => True
                   end) at_call w1 h1).
  { intros register w1 h1 H1. apply wp_bind.
    eapply wp_mono with (Q := fun w' h' _ => inv (fun _ => True) w' h');
      [| intros ? ? ? H; exact H |].
    - intros w' h' r H. wp_step. split.
      + eapply inv_at_call; [exact H | reflexivity].
      + intros [] w2 Hw2. wp_step.
        apply inv_snoc; [exact (inv_beside H Hw2) | reflexivity].
    - destruct register; [apply wp_registerNewRange | apply wp_unregisterRandomRange];
        exact H1. }
  apply wp_bind. destruct (activeRanges w).
  - wp_step. apply (Hop true). exact Hinv.
  - wp_step. intros register _. wp_step. apply (Hop register).
    apply inv_snoc; [exact Hinv | reflexivity].
Qed.

Lemma wp_driver w h :
  inv (fun _ => True) w h ->
  wp (driver strinc) (fun _ _ _ => True) at_call w h.
Proof.
  intros Hinv. unfold driver. apply wp_bind.
  eapply wp_mono; [| | apply wp_setup; exact Hinv].
  - intros w' h' r H. apply wp_client. exact H.
  - auto.
Qed.

End DriverInvariant.

(** As long as the keys of the driver have not repeated, each range in
    [activeRanges] is registered and untouched wherever the driver waits,
    when the other actors do to the workload object what the unit runner and
    [check] do. *)
Lemma driver_active_untouched (strinc : Key -> Key) n w0 tr w c :
  (forall a b, others a b -> unit_side a b) ->
  activeRanges w0 = [] ->
  (sequential w0 = true -> 1 <= sequentialGap w0) ->
  exec n w0 (driver strinc) tr (Suspended w c) ->
  NoDup (uids tr) ->
  forall r, In r (activeRanges w) -> registered_untouched r tr [c].
Proof.
  intros Hbeside Hact Hgap Hex Hnd.
  assert (Hinv : inv strinc (sequential w0) (sequentialGap w0) (fun _ => True) w0 []).
  { split; [reflexivity |]. split; [reflexivity |].
    intros _. unfold facts. rewrite Hact. split; [constructor | intros r []]. }
  exact (wp_driver Hgap Hbeside Hinv n tr _ Hex Hnd).
Qed.

(** ** Version and tenant of the purges *)

Ltac purge_side := solve [reflexivity | intros _; reflexivity | intros ?; reflexivity].

Ltac purge_auto :=
  repeat first
    [ apply safe_setRange; [reflexivity | reflexivity]
    | apply safe_isRangeActive; reflexivity
    | apply safe_granules_retry; [reflexivity | reflexivity | intros ?]
    | safe_step
    | purge_side ].

Lemma purge_checkRange range isActive : safe purge_ok (checkRange range isActive).
Proof. unfold checkRange. purge_auto. Qed.

Lemma purge_tearDown range : safe purge_ok (tearDownRangeAfterUnit range).
Proof. unfold tearDownRangeAfterUnit. purge_auto. Qed.

Lemma purge_newKey : safe purge_ok newKey.
Proof. unfold newKey. purge_auto. Qed.

Lemma purge_register strinc : safe purge_ok (registerNewRange strinc).
Proof.
  unfold registerNewRange, push_active.
  repeat first [apply purge_newKey | purge_auto].
Qed.

Lemma purge_unregister : safe purge_ok unregisterRandomRange.
Proof.
  unfold unregisterRandomRange, push_inactive.
  safe_step; [purge_auto |]. safe_step; [purge_auto |].
  destruct (0 <=? _); [| purge_auto].
  destruct (nth_error _ _); purge_auto.
Qed.

Lemma purge_setup strinc : safe purge_ok (_setup strinc).
Proof.
  unfold _setup.
  repeat first [apply purge_register | purge_auto].
Qed.

Lemma purge_client strinc : safe purge_ok (blobGranuleRangesClient strinc).
Proof.
  unfold blobGranuleRangesClient.
  safe_step. safe_step; [purge_auto |].
  safe_step; [destruct (activeRanges _); purge_auto |].
  safe_step; [destruct r0; [apply purge_register | apply purge_unregister] |].
  purge_auto.
Qed.

Lemma purge_verifyRange range : safe purge_ok (verifyRangeUnit range).
Proof.
  unfold verifyRangeUnit. cbv zeta.
  repeat first [apply purge_checkRange | apply purge_tearDown | purge_auto].
Qed.

Lemma purge_boundary_at boundaries i : safe purge_ok (boundary_at boundaries i).
Proof.
  unfold boundary_at. destruct (0 <=? i); [| purge_auto].
  destruct (nth_error _ _); purge_auto.
Qed.

Lemma purge_verifyRangeGap range : safe purge_ok (verifyRangeGapUnit range).
Proof.
  unfold verifyRangeGapUnit. cbv zeta.
  repeat first [apply purge_checkRange | apply purge_tearDown
               | apply purge_boundary_at | purge_auto].
Qed.

Lemma purge_rangesMisaligned range : safe purge_ok (rangesMisalignedUnit range).
Proof. unfold rangesMisalignedUnit. cbv zeta. purge_auto. Qed.

Lemma purge_blobbifyIdempotent range : safe purge_ok (blobbifyIdempotentUnit range).
Proof.
  unfold blobbifyIdempotentUnit. cbv zeta.
  repeat first [apply purge_checkRange | purge_auto].
Qed.

Lemma purge_reBlobbify range : safe purge_ok (reBlobbifyUnit range).
Proof.
  unfold reBlobbifyUnit.
  repeat first [apply purge_checkRange | apply purge_tearDown | purge_auto].
Qed.

Lemma purge_run_unit op range : safe purge_ok (run_unit op range).
Proof.
  unfold run_unit.
  repeat match goal with |- safe _ (if ?b then _ else _) => destruct b end;
    lazymatch goal with
    | |- safe _ (verifyRangeUnit _) => apply purge_verifyRange
    | |- safe _ (verifyRangeGapUnit _) => apply purge_verifyRangeGap
    | |- safe _ (rangesMisalignedUnit _) => apply purge_rangesMisaligned
    | |- safe _ (blobbifyIdempotentUnit _) => apply purge_blobbifyIdempotent
    | |- safe _ (reBlobbifyUnit _) => apply purge_reBlobbify
    | |- _ => apply safe_stop
    end.
Qed.

Lemma purge_unit_tests strinc : safe purge_ok (blobGranuleRangesUnitTests strinc).
Proof.
  unfold blobGranuleRangesUnitTests, unit_iteration, pick_op. cbv zeta.
  repeat first [apply purge_newKey | apply purge_run_unit | purge_auto].
Qed.

Lemma not_waited_purge_ok ev : is_wait ev = false -> purge_args_ok (call_of ev) = true.
Proof. destruct ev as [X e x]; destruct e; simpl; congruence. Qed.

(** C10: every call of [purgeBlobGranules] that an actor of the workload
    makes (the driver with its unregistration, the tear-down helper, every
    scenario, the unit runner, the checks) passes version 1 and no tenant. *)
Theorem purge_calls_version_1_no_tenant :
  forall (strinc : Key -> Key) (t : actor unit) n w tr o,
    workload_actor strinc t ->
    exec n w t tr o ->
    (forall ev, In ev tr -> purge_args_ok (call_of ev) = true) /\
    (forall w' c, o = Suspended w' c -> purge_args_ok c = true).
Proof.
  intros strinc t n w tr o Ht Hex.
  assert (Hs : safe purge_ok t).
  { destruct Ht;
      [ apply purge_setup | apply purge_client | apply purge_unregister
      | apply purge_checkRange | apply purge_unit_tests | apply purge_tearDown
      | apply purge_verifyRange | apply purge_verifyRangeGap
      | apply purge_rangesMisaligned | apply purge_blobbifyIdempotent
      | apply purge_reBlobbify ]. }
  split.
  - intros ev Hin. destruct (is_wait ev) eqn:Hw.
    + exact (@safe_trace _ purge_ok _ _ _ _ _ Hs Hex ev Hin Hw).
    + apply not_waited_purge_ok. exact Hw.
  - intros w' c ->. exact (@safe_exec _ purge_ok _ _ _ _ _ _ Hs Hex).
Qed.

(** * Further properties *)

(** ** Rules for [wpx] *)

Section WpxRules.
Context {R : Type}.
Variable Q : Workload -> list event -> R -> Prop.
Variable I : Workload -> list event -> call -> Prop.
Variable E : Workload -> list event -> wlE Empty_set -> Prop.

Lemma postx_app h tr1 tr2 (o : outcome R) :
  postx Q I E (h ++ tr1) tr2 o -> postx Q I E h (tr1 ++ tr2) o.
Proof. destruct o; simpl; rewrite ?app_assoc; auto. Qed.

Lemma wpx_observe (t t' : actor R) w h :
  observe t = observe t' -> wpx t' Q I E w h -> wpx t Q I E w h.
Proof. intros Eq H n tr o Hex. apply (H n). eapply exec_observe; eauto. Qed.

Lemma wpx_ret r w h : Q w h r -> wpx (Ret r) Q I E w h.
Proof.
  intros HQ [|n] tr o Hex; [destruct Hex |].
  destruct Hex as [-> ->]. simpl. rewrite app_nil_r. exact HQ.
Qed.

Lemma wpx_vis (t : actor R) w h X (e : wlE X) (k : X -> actor R) :
  observe t = VisF e k -> vis_wpx Q I E w h e k -> wpx t Q I E w h.
Proof.
  intros Eq H [|n] tr o Hex; [destruct Hex |].
  rewrite exec_unfold, Eq in Hex. clear Eq.
  destruct e; simpl in H, Hex; unfold wait_step, draw_step, stop_step in Hex;
    first
      [ exact (H n _ _ Hex)
      | destruct Hex as [-> ->]; simpl; rewrite app_nil_r; exact H
      | destruct Hex as (x & tr' & Hok & -> & Hex);
        apply (postx_app h [Ev _ x] tr'); exact (H x Hok n _ _ Hex)
      | destruct H as [HI H];
        destruct Hex as [[-> ->] | (x & w' & tr' & Hw' & -> & Hex)];
        [ simpl; rewrite app_nil_r; exact HI
        | apply (postx_app h [Ev _ x] tr'); exact (H x w' Hw' n _ _ Hex) ] ].
Qed.

Lemma wpx_stop_AssertFailed w h :
  E w h AssertFailed -> wpx (stop AssertFailed) Q I E w h.
Proof.
  intros HE. eapply wpx_vis; [unfold stop; rewrite observe_bind_cases; reflexivity |].
  exact HE.
Qed.

Lemma wpx_stop_UndefinedBehavior w h :
  E w h UndefinedBehavior -> wpx (stop UndefinedBehavior) Q I E w h.
Proof.
  intros HE. eapply wpx_vis; [unfold stop; rewrite observe_bind_cases; reflexivity |].
  exact HE.
Qed.

Lemma wpx_stop_Throw e w h :
  E w h (Throw e) -> wpx (stop (Throw e)) Q I E w h.
Proof.
  intros HE. eapply wpx_vis; [unfold stop; rewrite observe_bind_cases; reflexivity |].
  exact HE.
Qed.

End WpxRules.

Lemma wpx_mono {R} (t : actor R) (Q Q' : Workload -> list event -> R -> Prop)
    (I I' : Workload -> list event -> call -> Prop)
    (E E' : Workload -> list event -> wlE Empty_set -> Prop) w h :
  (forall w' h' r, Q w' h' r -> Q' w' h' r) ->
  (forall w' h' c, I w' h' c -> I' w' h' c) ->
  (forall w' h' e, E w' h' e -> E' w' h' e) ->
  wpx t Q I E w h -> wpx t Q' I' E' w h.
Proof.
  intros HQ HI HE H n tr o Hex. specialize (H n tr o Hex).
  destruct o; simpl in *; auto.
Qed.

Lemma wpx_bind {R S} (t : actor R) (k : R -> actor S) Q I E w h :
  wpx t (fun w' h' r => wpx (k r) Q I E w' h') I E w h ->
  wpx (ITree.bind t k) Q I E w h.
Proof.
  intros H n tr o Hex. apply exec_bind_inv in Hex. bind_cases_tac.
  - apply postx_app. exact (H n _ _ H1 n _ _ H2).
  - exact (H n _ _ H1).
  - exact (H n _ _ H1).
Qed.

Lemma wpx_bind_trigger {R} X (e : wlE X) (k : X -> actor R) Q I E w h :
  vis_wpx Q I E w h e k -> wpx (ITree.bind (ITree.trigger e) k) Q I E w h.
Proof.
  intros H. eapply wpx_vis; [rewrite observe_bind_cases; reflexivity |].
  destruct e; simpl in *;
    first
      [ solve [eapply wpx_observe; [| exact H]; rewrite observe_bind_cases; reflexivity]
      | solve [intros x Hx; eapply wpx_observe; [| exact (H x Hx)];
               rewrite observe_bind_cases; reflexivity]
      | split; [exact (proj1 H) |];
        intros x w' Hw'; eapply wpx_observe; [| exact (proj2 H x w' Hw')];
        rewrite observe_bind_cases; reflexivity
      | exact H ].
Qed.

Lemma wpx_trigger {R} (e : wlE R) Q I E w h :
  vis_wpx Q I E w h e (fun x => Ret x) -> wpx (ITree.trigger e) Q I E w h.
Proof. intros H. eapply wpx_vis; [reflexivity | exact H]. Qed.

Lemma wpx_iter {J R} (body : J -> actor (J + R))
    (Inv : J -> Workload -> list event -> Prop) Q I E :
  (forall i w h, Inv i w h ->
     wpx (body i)
         (fun w' h' lr => match lr with
                          | inl j => Inv j w' h'
                          | inr r => Q w' h' r
                          end) I E w h) ->
  forall i w h, Inv i w h -> wpx (ITree.iter body i) Q I E w h.
Proof.
  intros Hbody i w h HInv n. revert i w h HInv.
  induction n; intros i w h HInv tr o Hex; [destruct Hex |].
  eapply exec_observe in Hex; [| apply observe_iter].
  apply exec_bind_inv in Hex. bind_cases_tac.
  - pose proof (Hbody i w h HInv _ _ _ H1) as HP. simpl in HP.
    apply postx_app. destruct r1 as [j | r].
    + exact (IHn j w1 _ HP _ _ H2).
    + destruct H2 as [-> ->]. simpl. rewrite app_nil_r. exact HP.
  - exact (Hbody i w h HInv _ _ _ H1).
  - exact (Hbody i w h HInv _ _ _ H1).
Qed.

Lemma wpx_ASSERT_bind {R} b (k : unit -> actor R) Q I E w h :
  (b = true -> wpx (k tt) Q I E w h) ->
  (b = false -> E w h AssertFailed) ->
  wpx (ITree.bind (ASSERT b) k) Q I E w h.
Proof.
  intros H HE. apply wpx_bind. destruct b; simpl.
  - apply wpx_ret. auto.
  - apply wpx_stop_AssertFailed. auto.
Qed.

Ltac wpx_step :=
  lazymatch goal with
  | |- wpx (Ret _) _ _ _ _ _ => apply wpx_ret
  | |- wpx (ITree.bind (ITree.trigger _) _) _ _ _ _ _ =>
      apply wpx_bind_trigger; cbv beta iota zeta delta [vis_wpx]
  | |- wpx (ITree.trigger _) _ _ _ _ _ =>
      apply wpx_trigger; cbv beta iota zeta delta [vis_wpx]
  | |- wpx (stop AssertFailed) _ _ _ _ _ => apply wpx_stop_AssertFailed
  | |- wpx (stop UndefinedBehavior) _ _ _ _ _ => apply wpx_stop_UndefinedBehavior
  | |- wpx (stop (Throw _)) _ _ _ _ _ => apply wpx_stop_Throw
  | |- wpx (ITree.bind (ASSERT _) _) _ _ _ _ _ => apply wpx_ASSERT_bind; intros ?
  | |- wpx (ASSERT ?b) _ _ _ _ _ =>
      unfold ASSERT; destruct b eqn:?; [apply wpx_ret | apply wpx_stop_AssertFailed]
  | |- wpx (ITree.bind _ _) _ _ _ _ _ => apply wpx_bind
  | |- forall w', others _ w' -> _ => intros ? ?
  end.

(** Comparisons of integers, from their boolean form. *)
Ltac zbool :=
  repeat match goal with
         | H : (_ <=? _) = true |- _ => apply Z.leb_le in H
         | H : (_ <=? _) = false |- _ => apply Z.leb_gt in H
         | H : (_ <? _) = true |- _ => apply Z.ltb_lt in H
         | H : (_ <? _) = false |- _ => apply Z.ltb_ge in H
         | H : (_ =? _) = true |- _ => apply Z.eqb_eq in H
         | H : (_ =? _) = false |- _ => apply Z.eqb_neq in H
         end.

(** ** The inner loop of the unit runner *)

(** X1: [pick_op] draws at most 1001 times, each draw an [op] of [randomInt(0,
    OP_COUNT)]: it returns the first draw that is not excluded, without a call
    on the database and without a change of the workload object, and the
    assertion on [loopTries] only fails once 1001 draws in a row were
    excluded. *)
Theorem pick_op_at_most_1001_draws :
  forall n w tr o,
    exec n w pick_op tr o ->
    exists ops,
      tr = map op_draw ops /\
      (List.length ops <= 1001)%nat /\
      Forall (fun op => 0 <= op < op_value OP_COUNT) ops /\
      pick_op_outcome w ops o.
Proof.
  intros n w tr o Hex.
  set (P := fun (ops : list Z) (h : list event) =>
              h = map op_draw ops /\
              Forall (fun op => 0 <= op < op_value OP_COUNT) ops).
  assert (H : wpx pick_op
                (fun w' h op => exists ops, P ops h /\ (List.length ops <= 1001)%nat /\
                                            pick_op_outcome w ops (Done w' op))
                (fun _ _ _ => False)
                (fun w' h e => exists ops, P ops h /\ (List.length ops <= 1001)%nat /\
                                           pick_op_outcome w ops (Stopped w' e))
                w []).
  { unfold pick_op.
    apply wpx_iter with
      (Inv := fun loopTries w' h =>
                w' = w /\ 0 <= loopTries /\
                exists ops, P ops h /\ Z.of_nat (List.length ops) = 1000 - loopTries /\
                            Forall (fun x => excluded_count x = true) ops).
    - intros loopTries w1 h (-> & Hlt & ops & [-> Hr] & Hlen & Hex').
      wpx_step. intros op Hop.
      assert (HP : P (ops ++ [op]) (map op_draw ops ++ [op_draw op])).
      { split; [rewrite map_app; reflexivity |].
        apply Forall_app. split; [exact Hr | constructor; [exact Hop | constructor]]. }
      assert (Hlen' : Z.of_nat (List.length (ops ++ [op])) = 1000 - loopTries + 1)
        by (rewrite length_app, Nat2Z.inj_add; simpl List.length; lia).
      destruct (excluded_count op) eqn:Hx; cbn [negb].
      + wpx_step; zbool.
        * wpx_step. split; [reflexivity |]. split; [lia |].
          exists (ops ++ [op]). split; [exact HP |]. split; [lia |].
          apply Forall_app. split; [exact Hex' | constructor; [exact Hx | constructor]].
        * exists (ops ++ [op]). split; [exact HP |]. split; [lia |].
          split; [reflexivity |]. split; [reflexivity |].
          split; [lia |].
          apply Forall_app. split; [exact Hex' | constructor; [exact Hx | constructor]].
      + wpx_step. exists (ops ++ [op]). split; [exact HP |]. split; [lia |].
        split; [reflexivity |]. split; [exact Hx |].
        exists ops. split; [reflexivity | exact Hex'].
    - split; [reflexivity |]. split; [lia |].
      exists []. split; [split; [reflexivity | constructor] |].
      split; [reflexivity | constructor]. }
  specialize (H n tr o Hex).
  destruct o as [w' op | w' e | w' c]; simpl in H.
  - destruct H as (ops & [-> Hr] & Hlen & Ho). exists ops. auto.
  - destruct H as (ops & [-> Hr] & Hlen & Ho). exists ops. auto.
  - destruct H.
Qed.

(** ** How the driver ends *)

Lemma wpx_newKey (Q : Workload -> list event -> string -> Prop) I E w h :
  (sequential w = true -> in_int32 (nextKey w + sequentialGap w) ->
   Q (set_nextKey w (nextKey w + sequentialGap w)) h
     (format_08x (nextKey w + sequentialGap w))) ->
  (sequential w = true -> ~ in_int32 (nextKey w + sequentialGap w) ->
   E w h UndefinedBehavior) ->
  (sequential w = false -> forall u, Q w (h ++ [Ev RandomUniqueID u]) u) ->
  wpx newKey Q I E w h.
Proof.
  intros Hs Hu Hr. unfold newKey. wpx_step.
  destruct (sequential w) eqn:Hseq.
  - destruct ((INT32_MIN <=? nextKey w + sequentialGap w)
              && (nextKey w + sequentialGap w <=? INT32_MAX)) eqn:Hb.
    + wpx_step. wpx_step. apply Hs; [reflexivity |].
      apply andb_true_iff in Hb. destruct Hb. zbool. split; assumption.
    + wpx_step. apply Hu; [reflexivity |].
      intros [Hlo Hhi]. apply andb_false_iff in Hb. destruct Hb; zbool; lia.
  - wpx_step. intros u _. wpx_step. apply Hr. reflexivity.
Qed.

Lemma wpx_setRange_bind {R} (range : KeyRange) (active : bool) (k : bool -> actor R)
    Q I E w h :
  I w h (Call (if active return wlE bool
               then BlobbifyRange range else UnblobbifyRange range)) ->
  (forall b w',
      others w w' ->
      wpx (k b) Q I E w'
          (h ++ [Ev (if active return wlE bool
                     then BlobbifyRange range else UnblobbifyRange range) b])) ->
  wpx (ITree.bind (setRange range active) k) Q I E w h.
Proof.
  intros HI H. apply wpx_bind. unfold setRange. destruct active.
  - wpx_step. split; [exact HI |]. intros b w' Hw'. wpx_step. apply H. exact Hw'.
  - wpx_step. split; [exact HI |]. intros b w' Hw'. wpx_step. apply H. exact Hw'.
Qed.

Lemma ends_registerNewRange strinc w h :
  wpx (registerNewRange strinc) (fun _ _ _ => True) (fun _ _ _ => True) driver_end w h.
Proof.
  unfold registerNewRange. apply wpx_bind. apply wpx_newKey.
  - intros _ _. cbv zeta. apply wpx_setRange_bind; [exact Logic.I |]. intros b ?wo _.
    wpx_step.
    + unfold push_active. do 3 wpx_step. exact Logic.I.
    + subst b. left. split; [reflexivity |]. eexists _, _. left. reflexivity.
  - intros Hs Ho. right. auto.
  - intros _ u. cbv zeta. apply wpx_setRange_bind; [exact Logic.I |]. intros b ?wo _.
    wpx_step.
    + unfold push_active. do 3 wpx_step. exact Logic.I.
    + subst b. left. split; [reflexivity |]. eexists _, _. left. reflexivity.
Qed.

Lemma ends_unregisterRandomRange w h :
  wpx unregisterRandomRange (fun _ _ _ => True) (fun _ _ _ => True) driver_end w h.
Proof.
  unfold unregisterRandomRange. wpx_step. wpx_step. intros idx Hidx.
  destruct (0 <=? idx) eqn:H0; [| zbool; lia].
  destruct (nth_error (activeRanges w) (Z.to_nat idx)) as [range |] eqn:Hnth.
  - wpx_step. wpx_step. intros force _.
    assert (Hrest : forall w1 h1,
               wpx (success <- setRange range false ;; ASSERT success ;; push_inactive range)
                   (fun _ _ _ => True) (fun _ _ _ => True) driver_end w1 h1).
    { intros w1 h1. apply wpx_setRange_bind; [exact Logic.I |]. intros b ?wo _.
      wpx_step.
      - unfold push_inactive. do 3 wpx_step. exact Logic.I.
      - subst b. left. split; [reflexivity |]. eexists _, _. right. reflexivity. }
    apply wpx_bind. destruct force.
    + wpx_step. split; [exact Logic.I |]. intros purgeKey ?wo _.
      wpx_step. split; [exact Logic.I |]. intros [] ?wo _. wpx_step. apply Hrest.
    + wpx_step. apply Hrest.
  - apply nth_error_None in Hnth. zbool. lia.
Qed.

Lemma ends_setup strinc w h :
  wpx (_setup strinc) (fun _ _ _ => True) (fun _ _ _ => True) driver_end w h.
Proof.
  unfold _setup. wpx_step. split; [exact Logic.I |]. intros [] ?wo _.
  apply wpx_iter with (Inv := fun _ _ _ => True); [| exact Logic.I].
  intros i w1 h1 _. wpx_step. destruct (i <? targetRanges w1).
  - apply wpx_bind.
    eapply wpx_mono; [| | | apply ends_registerNewRange]; simpl; auto.
    intros w' h' r _. wpx_step. exact Logic.I.
  - wpx_step. exact Logic.I.
Qed.

Lemma ends_client strinc w h :
  wpx (blobGranuleRangesClient strinc) (fun _ _ _ => False) (fun _ _ _ => True)
      driver_end w h.
Proof.
  unfold blobGranuleRangesClient.
  apply wpx_iter with (Inv := fun _ _ _ => True); [| exact Logic.I].
  intros [] w1 h1 _. wpx_step. apply wpx_bind.
  assert (Hop : forall (register : bool) w2 h2,
             wpx ((if register then registerNewRange strinc else unregisterRandomRange) ;;
                  ITree.trigger (Poisson (operationsPerSecond w1)) ;; Ret (inl tt))
                 (fun _ _ (lr : unit + unit) =>
                    match lr with inl _ => True | inr _ => False end)
                 (fun _ _ _ => True) driver_end w2 h2).
  { intros register w2 h2. apply wpx_bind.
    eapply wpx_mono with (Q := fun _ _ _ => True);
      [| intros ? ? ? H; exact H | intros ? ? ? H; exact H
       | destruct register; [apply ends_registerNewRange | apply ends_unregisterRandomRange]].
    intros w' h' r _. wpx_step. split; [exact Logic.I |]. intros [] ?wo _.
    wpx_step. exact Logic.I. }
  destruct (activeRanges w1).
  - wpx_step. apply (Hop true).
  - wpx_step. intros register _. wpx_step. apply (Hop register).
Qed.

(** X2: The driver ([_setup], then the client loop) never returns; it ends
    only on an assertion, after [blobbifyRange] or [unblobbifyRange] has
    answered false, or on the overflow of the key counter in sequential mode.
    The index drawn by [unregisterRandomRange] is always inside
    [activeRanges]. *)
Theorem driver_ends_on_false_answer_or_overflow :
  forall (strinc : Key -> Key) n w tr o,
    exec n w (driver strinc) tr o -> driver_outcome tr o.
Proof.
  intros strinc n w tr o Hex.
  assert (H : wpx (driver strinc) (fun _ _ _ => False) (fun _ _ _ => True)
                  driver_end w []).
  { unfold driver. apply wpx_bind.
    eapply wpx_mono with (Q := fun _ _ _ => True);
      [| intros ? ? ? H; exact H | intros ? ? ? H; exact H | apply ends_setup].
    intros w' h' r _. apply ends_client. }
  specialize (H n tr o Hex). destruct o; exact H.
Qed.

(** ** The books of the driver *)

Lemma ranges_of_app f h1 h2 : ranges_of f (h1 ++ h2) = ranges_of f h1 ++ ranges_of f h2.
Proof.
  induction h1 as [| ev h1 IH]; simpl; [reflexivity |].
  destruct (f ev); simpl; congruence.
Qed.

Lemma books_snoc w h fl ev :
  books w h fl -> blobbify_ok ev = None -> unblobbify_ok ev = None ->
  books w (h ++ [ev]) fl.
Proof.
  intros [HP HN] Hb Hu. unfold books. rewrite !ranges_of_app. simpl.
  rewrite Hb, Hu, !app_nil_r. auto.
Qed.

Lemma books_registered w h range :
  books w h [] ->
  books (set_activeRanges w (activeRanges w ++ [range]))
        (h ++ [Ev (BlobbifyRange range) true]) [].
Proof.
  intros [HP HN]. unfold books. rewrite !ranges_of_app. simpl in *.
  rewrite app_nil_r. split; [| exact HN].
  rewrite <- app_assoc. simpl.
  eapply Permutation_trans; [symmetry; apply Permutation_cons_append |].
  eapply Permutation_trans; [apply perm_skip; exact HP |].
  apply Permutation_middle.
Qed.

Lemma books_taken w h i range :
  books w h [] -> nth_error (activeRanges w) i = Some range ->
  books (set_activeRanges w (swapAndPop (activeRanges w) i)) h [range].
Proof.
  intros [HP HN] Hnth. split; [| exact HN]. simpl in *.
  eapply Permutation_trans; [exact HP |].
  apply (Permutation_app_tail (inactiveRanges w) (swapAndPop_perm _ _ Hnth)).
Qed.

Lemma books_unregistered w h range :
  books w h [range] ->
  books (set_inactiveRanges w (inactiveRanges w ++ [range]))
        (h ++ [Ev (UnblobbifyRange range) true]) [].
Proof.
  intros [HP HN]. unfold books. rewrite !ranges_of_app. simpl in *.
  rewrite !app_nil_r. split; [| congruence].
  eapply Permutation_trans; [exact HP |].
  rewrite app_assoc. apply Permutation_cons_append.
Qed.

Section DriverBooks.
Hypothesis beside : forall w w', others w w' -> unit_side w w'.

(** The books stay balanced while the driver waits. *)
Lemma books_beside w w' h fl : books w h fl -> others w w' -> books w' h fl.
Proof.
  intros [HP HN] Hw'. apply beside, unit_side_spares in Hw'.
  destruct Hw' as (Ha & Hi & _). unfold books. rewrite Ha, Hi. auto.
Qed.

Lemma books_registerNewRange strinc w h :
  books w h [] ->
  wpx (registerNewRange strinc) (fun w' h' _ => books w' h' []) books_at
      (fun _ _ _ => True) w h.
Proof.
  intros HB.
  assert (Hrest : forall k w1 h1,
             books w1 h1 [] ->
             wpx (success <- setRange (key_range strinc "R_" k) true ;;
                  ASSERT success ;; push_active (key_range strinc "R_" k))
                 (fun w' h' _ => books w' h' []) books_at (fun _ _ _ => True) w1 h1).
  { intros k w1 h1 H1. apply wpx_setRange_bind.
    - exists []. split; [reflexivity | exact H1].
    - intros b wo Hwo. wpx_step; [| exact Logic.I]. subst b.
      unfold push_active. do 3 wpx_step. apply books_registered.
      exact (books_beside H1 Hwo). }
  unfold registerNewRange. apply wpx_bind. apply wpx_newKey.
  - intros _ _. apply Hrest. exact HB.
  - intros _ _. exact Logic.I.
  - intros _ u. apply Hrest. apply books_snoc; [exact HB | reflexivity | reflexivity].
Qed.

Lemma books_unregisterRandomRange w h :
  books w h [] ->
  wpx unregisterRandomRange (fun w' h' _ => books w' h' []) books_at
      (fun _ _ _ => True) w h.
Proof.
  intros HB. unfold unregisterRandomRange. wpx_step. wpx_step. intros idx Hidx.
  destruct (0 <=? idx); [| wpx_step; exact Logic.I].
  destruct (nth_error (activeRanges w) (Z.to_nat idx)) as [range |] eqn:Hnth;
    [| wpx_step; exact Logic.I].
  wpx_step.
  pose proof (books_taken _ HB Hnth) as H1.
  apply (@books_snoc _ _ _ (Ev (RandomInt 0 (Z.of_nat (List.length (activeRanges w)))) idx))
    in H1; [| reflexivity | reflexivity].
  wpx_step. intros force _.
  apply (@books_snoc _ _ _ (Ev Coinflip force)) in H1; [| reflexivity | reflexivity].
  assert (Hrest : forall w1 h1,
             books w1 h1 [range] ->
             wpx (success <- setRange range false ;; ASSERT success ;; push_inactive range)
                 (fun w' h' _ => books w' h' []) books_at (fun _ _ _ => True) w1 h1).
  { intros w1 h1 H2. apply wpx_setRange_bind.
    - exists [range]. split; [reflexivity | exact H2].
    - intros b wo Hwo. wpx_step; [| exact Logic.I]. subst b.
      unfold push_inactive. do 3 wpx_step.
      apply (books_unregistered (books_beside H2 Hwo)). }
  apply wpx_bind. destruct force.
  - wpx_step. split; [exists [range]; split; [reflexivity | exact H1] |].
    intros purgeKey w1 Hw1. apply (fun H => books_beside H Hw1) in H1.
    apply (@books_snoc _ _ _ (Ev (PurgeBlobGranules range 1 None true) purgeKey))
      in H1; [| reflexivity | reflexivity].
    wpx_step. split; [exists [range]; split; [exists range; reflexivity | exact H1] |].
    intros [] w2 Hw2. apply (fun H => books_beside H Hw2) in H1.
    wpx_step. apply Hrest.
    apply books_snoc; [exact H1 | reflexivity | reflexivity].
  - wpx_step. apply Hrest. exact H1.
Qed.

Lemma books_setup strinc w h :
  books w h [] ->
  wpx (_setup strinc) (fun w' h' _ => books w' h' []) books_at (fun _ _ _ => True) w h.
Proof.
  intros HB. unfold _setup. wpx_step.
  split; [exists []; split; [reflexivity | exact HB] |]. intros [] w1 Hw1.
  apply (fun H => books_beside H Hw1) in HB.
  apply wpx_iter with (Inv := fun _ w' h' => books w' h' []);
    [| apply books_snoc; [exact HB | reflexivity | reflexivity]].
  clear w h HB Hw1. intros i w h HB. wpx_step. destruct (i <? targetRanges w).
  - apply wpx_bind.
    eapply wpx_mono; [| | | apply books_registerNewRange; exact HB]; simpl; auto.
    intros w' h' r H. wpx_step. exact H.
  - wpx_step. exact HB.
Qed.

Lemma books_client strinc w h :
  books w h [] ->
  wpx (blobGranuleRangesClient strinc) (fun _ _ _ => True) books_at
      (fun _ _ _ => True) w h.
Proof.
  intros HB. unfold blobGranuleRangesClient.
  apply wpx_iter with (Inv := fun _ w' h' => books w' h' []); [| exact HB].
  clear w h HB. intros [] w h HB. wpx_step. apply wpx_bind.
  assert (Hop : forall (register : bool) w2 h2,
             books w2 h2 [] ->
             wpx ((if register then registerNewRange strinc else unregisterRandomRange) ;;
                  ITree.trigger (Poisson (operationsPerSecond w)) ;; Ret (inl tt))
                 (fun w' h' (lr : unit + unit) =>
                    match lr with inl _ => books w' h' [] | inr _ => True end)
                 books_at (fun _ _ _ => True) w2 h2).
  { intros register w2 h2 H2. apply wpx_bind.
    eapply wpx_mono with (Q := fun w' h' _ => books w' h' []);
      [| intros ? ? ? H; exact H | intros ? ? ? H; exact H
       | destruct register;
         [apply books_registerNewRange | apply books_unregisterRandomRange]; exact H2].
    intros w' h' r H. wpx_step.
    split; [exists []; split; [reflexivity | exact H] |]. intros [] wo Hwo.
    wpx_step. apply books_snoc; [exact (books_beside H Hwo) | reflexivity | reflexivity]. }
  destruct (activeRanges w) eqn:Ha.
  - wpx_step. apply (Hop true). exact HB.
  - wpx_step. intros register _. wpx_step. apply (Hop register).
    apply books_snoc; [exact HB | reflexivity | reflexivity].
Qed.

Lemma books_driver strinc w h :
  books w h [] ->
  wpx (driver strinc) (fun _ _ _ => True) books_at (fun _ _ _ => True) w h.
Proof.
  intros HB. unfold driver. apply wpx_bind.
  eapply wpx_mono; [| | | apply books_setup; exact HB]; simpl; auto.
  intros w' h' r H. apply books_client. exact H.
Qed.

End DriverBooks.

(** ** The ranges of [_setup] *)

Section SetupCount.
Hypothesis beside : forall w w', others w w' -> unit_side w w'.

Lemma count_registerNewRange strinc w h :
  wpx (registerNewRange strinc)
      (fun w' h' _ =>
         targetRanges w' = targetRanges w /\ inactiveRanges w' = inactiveRanges w /\
         exists r, activeRanges w' = activeRanges w ++ [r] /\
                   ranges_of blobbify_ok h' = ranges_of blobbify_ok h ++ [r])
      (fun _ _ _ => True) (fun _ _ _ => True) w h.
Proof.
  assert (Hrest : forall k w1 h1,
             targetRanges w1 = targetRanges w -> inactiveRanges w1 = inactiveRanges w ->
             activeRanges w1 = activeRanges w ->
             ranges_of blobbify_ok h1 = ranges_of blobbify_ok h ->
             wpx (success <- setRange (key_range strinc "R_" k) true ;;
                  ASSERT success ;; push_active (key_range strinc "R_" k))
                 (fun w' h' _ =>
                    targetRanges w' = targetRanges w /\
                    inactiveRanges w' = inactiveRanges w /\
                    exists r, activeRanges w' = activeRanges w ++ [r] /\
                              ranges_of blobbify_ok h' = ranges_of blobbify_ok h ++ [r])
                 (fun _ _ _ => True) (fun _ _ _ => True) w1 h1).
  { intros k w1 h1 Ht Hi Ha Hh. apply wpx_setRange_bind; [exact Logic.I |].
    intros b wo Hwo. wpx_step; [| exact Logic.I]. subst b.
    apply beside, unit_side_spares in Hwo. destruct Hwo as (Ha' & Hi' & _ & _ & Ht' & _).
    unfold push_active. do 3 wpx_step. simpl.
    split; [congruence |]. split; [congruence |].
    exists (key_range strinc "R_" k). rewrite Ha', Ha, ranges_of_app, Hh. auto. }
  unfold registerNewRange. apply wpx_bind. apply wpx_newKey.
  - intros _ _. apply Hrest; reflexivity.
  - intros _ _. exact Logic.I.
  - intros _ u. apply Hrest; try reflexivity.
    rewrite ranges_of_app. simpl. apply app_nil_r.
Qed.

Lemma setup_count (strinc : Key -> Key) n w tr w' :
  exec n w (_setup strinc) tr (Done w' tt) ->
  activeRanges w' = activeRanges w ++ ranges_of blobbify_ok tr /\
  Z.of_nat (List.length (ranges_of blobbify_ok tr)) = Z.max 0 (targetRanges w) /\
  inactiveRanges w' = inactiveRanges w.
Proof.
  intros Hex.
  set (Inv := fun (i : Z) (w1 : Workload) (h1 : list event) =>
                0 <= i <= Z.max 0 (targetRanges w) /\
                targetRanges w1 = targetRanges w /\
                inactiveRanges w1 = inactiveRanges w /\
                activeRanges w1 = activeRanges w ++ ranges_of blobbify_ok h1 /\
                Z.of_nat (List.length (ranges_of blobbify_ok h1)) = i).
  assert (H : wpx (_setup strinc)
                  (fun w1 h1 _ => Inv (Z.max 0 (targetRanges w)) w1 h1)
                  (fun _ _ _ => True) (fun _ _ _ => True) w []).
  { unfold _setup. wpx_step. split; [exact Logic.I |]. intros [] w0 Hw0.
    apply beside, unit_side_spares in Hw0. destruct Hw0 as (Ha0 & Hi0 & _ & _ & Ht0 & _).
    apply wpx_iter with (Inv := Inv).
    - intros i w1 h1 (Hi & Ht & Hin & Ha & Hl). wpx_step.
      destruct (i <? targetRanges w1) eqn:Hlt; zbool.
      + apply wpx_bind.
        eapply wpx_mono; [| | | apply count_registerNewRange]; simpl; auto.
        intros w2 h2 _ (Ht2 & Hin2 & r & Ha2 & Hh2). wpx_step.
        unfold Inv. rewrite Ht2, Hin2, Ha2, Hh2, Ha, length_app, <- app_assoc.
        simpl List.length. repeat split; try congruence; lia.
      + wpx_step. unfold Inv in *. replace (Z.max 0 (targetRanges w)) with i by lia.
        repeat split; auto; lia.
    - unfold Inv. simpl. rewrite app_nil_r. repeat split; auto; lia. }
  specialize (H n tr _ Hex). simpl in H. destruct H as (_ & _ & Hin & Ha & Hl).
  auto.
Qed.

End SetupCount.

(** ** The workload object and the unit tests *)

Lemma vis_step_stopped {R X} (e : wlE X) (f : X -> Empty_set)
    (rec : Workload -> actor R -> list event -> outcome R -> Prop) w k tr o :
  vis_step rec w e k tr o -> tr = [] /\ exists e', o = Stopped w e'.
Proof.
  destruct e;
    first
      [ destruct (f w) | destruct (f tt) | destruct (f 0) | destruct (f true)
      | destruct (f EmptyString) | destruct (f S754_nan) | destruct (f [])
      | destruct (f (inr [])) | destruct (f None)
      | simpl; intros [-> ->]; split; [reflexivity | eexists; reflexivity] ].
Qed.

Lemma keeps_ret {R} (r : R) : keeps (Ret r).
Proof. intros P HS w h HP. apply wpx_ret. exact HP. Qed.

Lemma keeps_stop {R} e : keeps (@stop R e).
Proof.
  intros P HS w h HP [|n] tr o Hex; [destruct Hex |].
  unfold stop in Hex. rewrite exec_unfold, observe_bind_cases in Hex. simpl in Hex.
  apply (vis_step_stopped e (fun x => x)) in Hex. destruct Hex as [-> [e' ->]].
  exact HP.
Qed.

Lemma keeps_bind {R S} (t : actor R) (k : R -> actor S) :
  keeps t -> (forall r, keeps (k r)) -> keeps (ITree.bind t k).
Proof.
  intros Ht Hk P HS w h HP. apply wpx_bind.
  eapply wpx_mono; [| | | apply (Ht P HS); exact HP]; simpl; auto.
  intros w' h' r HP'. apply Hk; [exact HS | exact HP'].
Qed.

Lemma keeps_trigger {X} (e : wlE X) : writes_self e = false -> keeps (ITree.trigger e).
Proof.
  intros He P HS w h HP. apply wpx_trigger.
  destruct e; simpl in *;
    first
      [ discriminate He
      | exact HP
      | solve [apply wpx_ret; exact HP]
      | solve [intros x _; apply wpx_ret; exact HP]
      | split; [exact HP | intros x w' Hw'; apply wpx_ret; exact (HS _ _ Hw' HP)] ].
Qed.

Lemma keeps_iter {J R} (body : J -> actor (J + R)) i :
  (forall j, keeps (body j)) -> keeps (ITree.iter body i).
Proof.
  intros Hb P HS w h HP.
  apply wpx_iter with (Inv := fun _ w' _ => P w'); [| exact HP].
  intros j w' h' HP'. eapply wpx_mono; [| | | apply (Hb j P HS); exact HP']; simpl; auto.
  intros ? ? [? | ?]; auto.
Qed.

Lemma keeps_ASSERT b : keeps (ASSERT b).
Proof. destruct b; [apply keeps_ret | apply keeps_stop]. Qed.

Ltac keeps_step :=
  lazymatch goal with
  | |- keeps (Ret _) => apply keeps_ret
  | |- keeps (stop _) => apply keeps_stop
  | |- keeps (ASSERT _) => apply keeps_ASSERT
  | |- keeps (ITree.trigger _) => apply keeps_trigger; reflexivity
  | |- keeps (ITree.bind _ _) => apply keeps_bind; [| intros ?]
  | |- keeps (ITree.iter _ _) => apply keeps_iter; intros ?
  | |- keeps (if ?b then _ else _) => destruct b
  | |- keeps (match ?x with _ => _ end) => destruct x
  end.

Lemma keeps_setRange range active : keeps (setRange range active).
Proof. unfold setRange. repeat keeps_step. Qed.

Lemma keeps_isRangeActive range : keeps (isRangeActive range).
Proof. unfold isRangeActive. repeat keeps_step. Qed.

Lemma keeps_granules_retry range body :
  (forall g, keeps (body g)) -> keeps (granules_retry range body).
Proof. intros Hb. unfold granules_retry. repeat first [apply Hb | keeps_step]. Qed.

Lemma keeps_checkRange range isActive : keeps (checkRange range isActive).
Proof.
  unfold checkRange.
  repeat first [ apply keeps_isRangeActive
               | apply keeps_granules_retry; intros ?
               | keeps_step ].
Qed.

Lemma keeps_tearDown range : keeps (tearDownRangeAfterUnit range).
Proof. unfold tearDownRangeAfterUnit. repeat first [apply keeps_setRange | keeps_step]. Qed.

Ltac keeps_auto :=
  repeat first [ apply keeps_setRange | apply keeps_isRangeActive
               | apply keeps_checkRange | apply keeps_tearDown
               | apply keeps_granules_retry; intros ?
               | keeps_step ].

Lemma keeps_verifyRangeUnit range : keeps (verifyRangeUnit range).
Proof. unfold verifyRangeUnit. cbv zeta. keeps_auto. Qed.

Lemma keeps_boundary_at boundaries i : keeps (boundary_at boundaries i).
Proof.
  unfold boundary_at. destruct (0 <=? i); [| keeps_auto].
  destruct (nth_error _ _); keeps_auto.
Qed.

Lemma keeps_verifyRangeGapUnit range : keeps (verifyRangeGapUnit range).
Proof.
  unfold verifyRangeGapUnit. cbv zeta.
  repeat first [apply keeps_boundary_at | keeps_auto].
Qed.

Lemma keeps_rangesMisalignedUnit range : keeps (rangesMisalignedUnit range).
Proof. unfold rangesMisalignedUnit. cbv zeta. keeps_auto. Qed.

Lemma keeps_blobbifyIdempotentUnit range : keeps (blobbifyIdempotentUnit range).
Proof. unfold blobbifyIdempotentUnit. cbv zeta. keeps_auto. Qed.

Lemma keeps_reBlobbifyUnit range : keeps (reBlobbifyUnit range).
Proof. unfold reBlobbifyUnit. keeps_auto. Qed.

Lemma keeps_run_unit op range : keeps (run_unit op range).
Proof.
  unfold run_unit.
  repeat match goal with |- keeps (if ?b then _ else _) => destruct b end;
    lazymatch goal with
    | |- keeps (verifyRangeUnit _) => apply keeps_verifyRangeUnit
    | |- keeps (verifyRangeGapUnit _) => apply keeps_verifyRangeGapUnit
    | |- keeps (rangesMisalignedUnit _) => apply keeps_rangesMisalignedUnit
    | |- keeps (blobbifyIdempotentUnit _) => apply keeps_blobbifyIdempotentUnit
    | |- keeps (reBlobbifyUnit _) => apply keeps_reBlobbifyUnit
    | |- _ => apply keeps_stop
    end.
Qed.

Lemma keeps_pick_op : keeps pick_op.
Proof. unfold pick_op. keeps_auto. Qed.

Lemma nextKey_advanced_refl w : nextKey_advanced w w.
Proof. split; [destruct w; reflexivity | lia]. Qed.

Lemma keeps_unit_rest range :
  keeps (op <- pick_op ;; run_unit op range ;; ITree.trigger (Delay 1%Q)).
Proof.
  apply keeps_bind; [apply keeps_pick_op | intros op].
  apply keeps_bind; [apply keeps_run_unit | intros ?].
  apply keeps_trigger. reflexivity.
Qed.

(** The unit runner writes the workload object in [newKey] only: whatever
    holds of the object when it starts, and is undone neither by the other
    actors nor by a call of [newKey], holds of it however the unit runner is
    found. *)
Lemma unit_tests_frame (strinc : Key -> Key) (P : Workload -> Prop) :
  (forall w w', others w w' -> P w -> P w') ->
  (forall w, P w -> sequential w = true ->
             in_int32 (nextKey w + sequentialGap w) ->
             P (set_nextKey w (nextKey w + sequentialGap w))) ->
  forall w h,
    P w ->
    wpx (blobGranuleRangesUnitTests strinc)
        (fun w' _ _ => P w') (fun w' _ _ => P w') (fun w' _ _ => P w') w h.
Proof.
  intros HS HK w h HP0. unfold blobGranuleRangesUnitTests.
  apply wpx_iter with (Inv := fun _ w' _ => P w'); [| exact HP0].
  intros [] w1 h1 HP. wpx_step. destruct (stopUnitClient w1); [wpx_step; exact HP |].
  apply wpx_bind. unfold unit_iteration. apply wpx_bind.
  apply wpx_newKey.
  - intros Hseq Hin. cbv zeta.
    eapply wpx_mono; [| | | apply (@keeps_unit_rest _ P HS); apply HK; assumption];
      simpl; auto.
    intros w3 h3 r HP3. wpx_step. exact HP3.
  - intros _ _. exact HP.
  - intros _ u. cbv zeta.
    eapply wpx_mono; [| | | apply (@keeps_unit_rest _ P HS); exact HP]; simpl; auto.
    intros w3 h3 r HP3. wpx_step. exact HP3.
Qed.

Lemma nextKey_advanced_newKey w0 w :
  0 <= sequentialGap w0 -> nextKey_advanced w0 w ->
  nextKey_advanced w0 (set_nextKey w (nextKey w + sequentialGap w)).
Proof.
  intros Hgap [H1 H2]. split.
  - rewrite H1. reflexivity.
  - rewrite H1. simpl. rewrite H1 in H2. simpl in H2. lia.
Qed.

(** ** The order of keys *)

Lemma ascii_compare_lt_trans x y z :
  Ascii.compare x y = Lt -> Ascii.compare y z = Lt -> Ascii.compare x z = Lt.
Proof.
  unfold Ascii.compare. rewrite !N.compare_lt_iff. apply N.lt_trans.
Qed.

Lemma key_lt_trans a b c : key_lt a b -> key_lt b c -> key_lt a c.
Proof.
  unfold key_lt. revert b c.
  induction a as [| x a IH]; intros [| y b] [| z c]; simpl; try discriminate; auto.
  intros H1 H2. destruct (Ascii.compare x y) eqn:Exy; try discriminate.
  - apply Ascii.compare_eq_iff in Exy. subst y.
    destruct (Ascii.compare x z); try discriminate; eauto.
  - destruct (Ascii.compare y z) eqn:Eyz; try discriminate.
    + apply Ascii.compare_eq_iff in Eyz. subst z. rewrite Exy. reflexivity.
    + rewrite (ascii_compare_lt_trans _ _ _ Exy Eyz). reflexivity.
Qed.

Lemma key_le_cases a b : key_le a b <-> a = b \/ key_lt a b.
Proof.
  unfold key_le, key_lt. split.
  - intros H. destruct (String.compare a b) eqn:E.
    + left. apply String.compare_eq_iff. exact E.
    + right. reflexivity.
    + congruence.
  - intros [-> | H]; [rewrite string_compare_refl | rewrite H]; discriminate.
Qed.

Lemma key_lt_le_trans a b c : key_lt a b -> key_le b c -> key_lt a c.
Proof.
  intros H1 H2. apply (proj1 (key_le_cases _ _)) in H2.
  destruct H2 as [<- | H2]; [exact H1 |].
  eapply key_lt_trans; eauto.
Qed.

Lemma key_le_trans a b c : key_le a b -> key_le b c -> key_le a c.
Proof.
  intros H1 H2. apply (proj1 (key_le_cases _ _)) in H1.
  destruct H1 as [-> | H1]; [exact H2 |].
  apply key_le_cases. right. eapply key_lt_le_trans; eauto.
Qed.

Lemma key_lt_or_le a b : key_lt a b \/ key_le b a.
Proof.
  unfold key_lt, key_le. rewrite (String.compare_antisym a b).
  destruct (String.compare b a); simpl; auto; right; discriminate.
Qed.

Lemma key_leb_le a b : key_leb a b = true <-> key_le a b.
Proof.
  unfold key_leb, String.leb, key_le.
  destruct (String.compare a b); split; congruence.
Qed.

(** ** What a check that returns has seen *)

Lemma last_cons_default {A} (l : list A) a d d' : last (a :: l) d = last (a :: l) d'.
Proof.
  revert a. induction l as [| b l IH]; intros a; [reflexivity |].
  change (last (b :: l) d = last (b :: l) d'). apply IH.
Qed.

(** Granules in a chain, each ending where the next begins: a key at or
    after the begin of the first and before the end of the last lies in one
    of them. *)
Lemma adjacent_chain_covers k granules front :
  adjacent (front :: granules) = true ->
  key_le (range_begin front) k ->
  key_lt k (range_end (last (front :: granules) front)) ->
  exists g, In g (front :: granules) /\ in_range k g.
Proof.
  revert front. induction granules as [| g2 rest IH]; intros front Hadj Hlo Hhi.
  - exists front. split; [left; reflexivity | split; assumption].
  - cbn [adjacent] in Hadj. apply andb_true_iff in Hadj. destruct Hadj as [He Hadj].
    apply String.eqb_eq in He.
    destruct (key_lt_or_le k (range_end front)) as [Hlt | Hle].
    + exists front. split; [left; reflexivity | split; assumption].
    + destruct (IH g2 Hadj) as (g & Hin & Hg).
      * rewrite <- He. exact Hle.
      * rewrite (last_cons_default rest g2 g2 front). exact Hhi.
      * exists g. split; [right; exact Hin | exact Hg].
Qed.

(** X6: A [checkRange] returns only after answers that agree with [isActive].
    For an active range: [verifyBlobRange] has answered a valid version,
    [listBlobbifiedRanges] a single range that encloses the range, and the
    last answer of [getBlobGranuleRanges] is a chain of granules that covers
    every key of the range. For an inactive range: [verifyBlobRange] has
    answered [invalidVersion] and both lists were empty. Errors of the
    transaction are retried and do not show in the result. *)
Theorem checkRange_returns_after_agreeing_answers :
  forall range isActive n w tr w',
    exec n w (checkRange range isActive) tr (Done w' tt) ->
    check_passed range isActive tr.
Proof.
  intros range isActive n w tr w' Hex.
  assert (H : wpx (checkRange range isActive)
                  (fun _ h _ => check_passed range isActive h)
                  (fun _ _ _ => True) (fun _ _ _ => True) w []);
    [| exact (H n tr _ Hex)].
  clear. unfold checkRange. apply wpx_bind.
  eapply wpx_mono with
    (Q := fun _ h _ => exists v, In (Ev (VerifyBlobRange range None) v) h /\
                                 (v =? invalidVersion) = negb isActive);
    [| intros ? ? ? H; exact H | intros ? ? ? H; exact H |].
  2: { apply wpx_iter with (Inv := fun _ _ _ => True); [| exact Logic.I].
       intros [] w1 h1 _. apply wpx_bind. unfold isRangeActive.
       wpx_step. split; [exact Logic.I |]. intros v ?wo _. wpx_step.
       destruct (Bool.eqb (negb (v =? invalidVersion)) isActive) eqn:Eb.
       - wpx_step. exists v. split; [apply in_or_app; right; left; reflexivity |].
         apply Bool.eqb_prop in Eb. rewrite <- Eb, negb_involutive. reflexivity.
       - wpx_step. split; [exact Logic.I |]. intros [] ?wo _. wpx_step. exact Logic.I. }
  intros w1 h1 _ (v & Hv & Hvb).
  wpx_step. split; [exact Logic.I |]. intros blobRanges ?wo _.
  apply wpx_bind. destruct isActive; cbv beta iota.
  - (* an active range *)
    destruct blobRanges as [| b [| b' rest']];
      [wpx_step; exact Logic.I | | wpx_step; exact Logic.I].
    apply wpx_ASSERT_bind; [intros Hb1 | intros _; exact Logic.I].
    unfold ASSERT at 1.
    destruct (key_leb (range_end range) (range_end b)) eqn:Hb2;
      [apply wpx_ret | apply wpx_stop_AssertFailed; exact Logic.I].
    unfold granules_retry.
    apply wpx_iter with
      (Inv := fun _ _ h => In (Ev (VerifyBlobRange range None) v) h /\
                           In (Ev (ListBlobbifiedRanges range OP_LIMIT) [b]) h).
    2: { split; apply in_or_app; [left; exact Hv | right; left; reflexivity]. }
    intros [] w2 h2 [Hv2 Hl2]. wpx_step. split; [exact Logic.I |].
    intros [e | granules] ?wo _.
    + wpx_step. split; [exact Logic.I |]. intros [e' |] ?wo _.
      * wpx_step. exact Logic.I.
      * wpx_step. split; apply in_or_app; left; apply in_or_app; left; assumption.
    + apply wpx_bind. destruct granules as [| front rest]; [wpx_step; exact Logic.I |].
      apply wpx_ASSERT_bind; [intros Hg1 | intros _; exact Logic.I].
      apply wpx_ASSERT_bind; [intros Hg2 | intros _; exact Logic.I].
      unfold ASSERT.
      destruct (adjacent (front :: rest)) eqn:Hadj;
        [apply wpx_ret | apply wpx_stop_AssertFailed; exact Logic.I].
      wpx_step. apply key_leb_le in Hb1, Hb2, Hg1, Hg2.
      exists h2, (front :: rest), v, b.
      split; [reflexivity |]. split; [exact Hv2 |].
      split; [intros ->; discriminate Hvb |].
      split; [exact Hl2 |]. split; [exact Hb1 |]. split; [exact Hb2 |].
      split; [exact Hadj |].
      intros k [Hlo Hhi]. apply adjacent_chain_covers.
      * exact Hadj.
      * eapply key_le_trans; eauto.
      * eapply key_lt_le_trans; eauto.
  - (* an inactive range *)
    unfold ASSERT at 1.
    destruct blobRanges as [| b rest'];
      [apply wpx_ret | apply wpx_stop_AssertFailed; exact Logic.I].
    unfold granules_retry.
    apply wpx_iter with
      (Inv := fun _ _ h => In (Ev (VerifyBlobRange range None) v) h /\
                           In (Ev (ListBlobbifiedRanges range OP_LIMIT) []) h).
    2: { split; apply in_or_app; [left; exact Hv | right; left; reflexivity]. }
    intros [] w2 h2 [Hv2 Hl2]. wpx_step. split; [exact Logic.I |].
    intros [e | granules] ?wo _.
    + wpx_step. split; [exact Logic.I |]. intros [e' |] ?wo _.
      * wpx_step. exact Logic.I.
      * wpx_step. split; apply in_or_app; left; apply in_or_app; left; assumption.
    + apply wpx_bind. unfold ASSERT.
      destruct granules as [| front rest];
        [apply wpx_ret | apply wpx_stop_AssertFailed; exact Logic.I].
      wpx_step. exists h2. split; [reflexivity |]. split; [| exact Hl2].
      apply Z.eqb_eq in Hvb. subst v. exact Hv2.
Qed.

(** ** Calls and ends along a history *)

Section Hsafe.
Variable P : list event -> call -> Prop.
Variable F : list event -> wlE Empty_set -> Prop.

Lemma hsafe_ret {R} (r : R) : hsafe P F (Ret r).
Proof. intros w h. apply wpx_ret. exact I. Qed.

Lemma hsafe_stop_AssertFailed {R} :
  (forall h, F h AssertFailed) -> hsafe P F (@stop R AssertFailed).
Proof. intros HF w h. apply wpx_stop_AssertFailed. apply HF. Qed.

Lemma hsafe_stop_UndefinedBehavior {R} :
  (forall h, F h UndefinedBehavior) -> hsafe P F (@stop R UndefinedBehavior).
Proof. intros HF w h. apply wpx_stop_UndefinedBehavior. apply HF. Qed.

Lemma hsafe_stop_Throw {R} e :
  (forall h, F h (Throw e)) -> hsafe P F (@stop R (Throw e)).
Proof. intros HF w h. apply wpx_stop_Throw. apply HF. Qed.

Lemma hsafe_bind {R S} (t : actor R) (k : R -> actor S) :
  hsafe P F t -> (forall r, hsafe P F (k r)) -> hsafe P F (ITree.bind t k).
Proof.
  intros Ht Hk w h. apply wpx_bind.
  eapply wpx_mono; [| | | apply Ht]; simpl; auto.
  intros w' h' r _. apply Hk.
Qed.

Lemma hsafe_trigger {X} (e : wlE X) :
  (waited e = true -> forall h, P h (Call e)) ->
  (forall h, match e with
             | AssertFailed => F h AssertFailed
             | UndefinedBehavior => F h UndefinedBehavior
             | Throw e' => F h (Throw e')
             | _ => True
             end) ->
  hsafe P F (ITree.trigger e).
Proof.
  intros HP HF w h. apply wpx_trigger.
  destruct e; simpl in *;
    first
      [ solve [apply wpx_ret; exact I]
      | solve [intros x _; apply wpx_ret; exact I]
      | split; [apply HP; reflexivity | intros x w' _; apply wpx_ret; exact I]
      | apply HF ].
Qed.

Lemma hsafe_iter {J R} (body : J -> actor (J + R)) i :
  (forall j, hsafe P F (body j)) -> hsafe P F (ITree.iter body i).
Proof.
  intros Hb w h.
  apply wpx_iter with (Inv := fun _ _ _ => True); [| exact I].
  intros j w' h' _. eapply wpx_mono; [| | | apply Hb]; simpl; auto.
  intros ? ? [? | ?]; auto.
Qed.

Lemma hsafe_ASSERT b : (forall h, F h AssertFailed) -> hsafe P F (ASSERT b).
Proof. intros HF. destruct b; [apply hsafe_ret | apply hsafe_stop_AssertFailed, HF]. Qed.

End Hsafe.

(** One step; [side] proves what is asked of the calls and the ends. *)
Ltac hsafe_step side :=
  lazymatch goal with
  | |- hsafe _ _ (Ret _) => apply hsafe_ret
  | |- hsafe _ _ (stop AssertFailed) => apply hsafe_stop_AssertFailed; side
  | |- hsafe _ _ (stop UndefinedBehavior) => apply hsafe_stop_UndefinedBehavior; side
  | |- hsafe _ _ (stop (Throw _)) => apply hsafe_stop_Throw; side
  | |- hsafe _ _ (ASSERT _) => apply hsafe_ASSERT; side
  | |- hsafe _ _ (ITree.trigger _) => apply hsafe_trigger; [side | intros ?; exact I]
  | |- hsafe _ _ (ITree.bind _ _) => apply hsafe_bind; [| intros ?]
  | |- hsafe _ _ (ITree.iter _ _) => apply hsafe_iter; intros ?
  | |- hsafe _ _ (if ?b then _ else _) => destruct b
  | |- hsafe _ _ (match ?x with _ => _ end) => destruct x
  end.

(** ** The key of a purge *)

Lemma threads_purge_wait_bind {R} range version tenant force (k : unit -> actor R) :
  (forall u, hsafe waits_for_last_purge any_end (k u)) ->
  hsafe waits_for_last_purge any_end
    (purgeKey <- ITree.trigger (PurgeBlobGranules range version tenant force) ;;
     ITree.bind (ITree.trigger (WaitPurgeGranulesComplete purgeKey)) k).
Proof.
  intros Hk w h. wpx_step. split; [exact I |]. intros purgeKey ?wo _.
  wpx_step. split; [exists h, range, version, tenant, force; reflexivity |].
  intros u ?wo _. apply Hk.
Qed.

Lemma threads_purge_wait range version tenant force :
  hsafe waits_for_last_purge any_end
    (purgeKey <- ITree.trigger (PurgeBlobGranules range version tenant force) ;;
     ITree.trigger (WaitPurgeGranulesComplete purgeKey)).
Proof.
  intros w h. wpx_step. split; [exact I |]. intros purgeKey ?wo _.
  wpx_step. split; [exists h, range, version, tenant, force; reflexivity |].
  intros u ?wo _. wpx_step. exact I.
Qed.

Ltac threads_side :=
  first [ intros _ ?; exact I | intros H; discriminate H | intros ?; exact I ].

Ltac threads_step :=
  lazymatch goal with
  | |- hsafe _ _ (ITree.bind (ITree.trigger (PurgeBlobGranules _ _ _ _)) _) =>
      first [apply threads_purge_wait | apply threads_purge_wait_bind; intros ?]
  | |- _ => hsafe_step threads_side
  end.

Lemma threads_setRange range active : hsafe waits_for_last_purge any_end (setRange range active).
Proof. unfold setRange. repeat threads_step. Qed.

Lemma threads_isRangeActive range : hsafe waits_for_last_purge any_end (isRangeActive range).
Proof. unfold isRangeActive. repeat threads_step. Qed.

Lemma threads_granules_retry range body :
  (forall g, hsafe waits_for_last_purge any_end (body g)) ->
  hsafe waits_for_last_purge any_end (granules_retry range body).
Proof. intros Hb. unfold granules_retry. repeat first [apply Hb | threads_step]. Qed.

Ltac threads_auto :=
  repeat first [ apply threads_setRange | apply threads_isRangeActive
               | apply threads_granules_retry; intros ?
               | threads_step ].

Lemma threads_checkRange range isActive :
  hsafe waits_for_last_purge any_end (checkRange range isActive).
Proof. unfold checkRange. threads_auto. Qed.

Lemma threads_tearDown range : hsafe waits_for_last_purge any_end (tearDownRangeAfterUnit range).
Proof. unfold tearDownRangeAfterUnit. threads_auto. Qed.

Lemma threads_newKey : hsafe waits_for_last_purge any_end newKey.
Proof. unfold newKey. threads_auto. Qed.

Lemma threads_register strinc : hsafe waits_for_last_purge any_end (registerNewRange strinc).
Proof.
  unfold registerNewRange, push_active.
  repeat first [apply threads_newKey | threads_auto].
Qed.

Lemma threads_unregister : hsafe waits_for_last_purge any_end unregisterRandomRange.
Proof.
  unfold unregisterRandomRange, push_inactive.
  threads_step; [threads_auto |]. threads_step; [threads_auto |].
  destruct (0 <=? _); [| threads_auto].
  destruct (nth_error _ _); threads_auto.
Qed.

Lemma threads_setup strinc : hsafe waits_for_last_purge any_end (_setup strinc).
Proof. unfold _setup. repeat first [apply threads_register | threads_auto]. Qed.

Lemma threads_client strinc : hsafe waits_for_last_purge any_end (blobGranuleRangesClient strinc).
Proof.
  unfold blobGranuleRangesClient.
  threads_step. threads_step; [threads_auto |].
  threads_step; [destruct (activeRanges _); threads_auto |].
  threads_step; [destruct r0; [apply threads_register | apply threads_unregister] |].
  threads_auto.
Qed.

Ltac threads_unit :=
  repeat first [ apply threads_checkRange | apply threads_tearDown | threads_auto ].

Lemma threads_verifyRange range : hsafe waits_for_last_purge any_end (verifyRangeUnit range).
Proof. unfold verifyRangeUnit. cbv zeta. threads_unit. Qed.

Lemma threads_boundary_at boundaries i :
  hsafe waits_for_last_purge any_end (boundary_at boundaries i).
Proof.
  unfold boundary_at. destruct (0 <=? i); [| threads_auto].
  destruct (nth_error _ _); threads_auto.
Qed.

Lemma threads_verifyRangeGap range : hsafe waits_for_last_purge any_end (verifyRangeGapUnit range).
Proof.
  unfold verifyRangeGapUnit. cbv zeta.
  repeat first [apply threads_boundary_at | threads_unit].
Qed.

Lemma threads_rangesMisaligned range :
  hsafe waits_for_last_purge any_end (rangesMisalignedUnit range).
Proof. unfold rangesMisalignedUnit. cbv zeta. threads_unit. Qed.

Lemma threads_blobbifyIdempotent range :
  hsafe waits_for_last_purge any_end (blobbifyIdempotentUnit range).
Proof. unfold blobbifyIdempotentUnit. cbv zeta. threads_unit. Qed.

Lemma threads_reBlobbify range : hsafe waits_for_last_purge any_end (reBlobbifyUnit range).
Proof. unfold reBlobbifyUnit. threads_unit. Qed.

Lemma threads_run_unit op range : hsafe waits_for_last_purge any_end (run_unit op range).
Proof.
  unfold run_unit.
  repeat match goal with |- hsafe _ _ (if ?b then _ else _) => destruct b end;
    lazymatch goal with
    | |- hsafe _ _ (verifyRangeUnit _) => apply threads_verifyRange
    | |- hsafe _ _ (verifyRangeGapUnit _) => apply threads_verifyRangeGap
    | |- hsafe _ _ (rangesMisalignedUnit _) => apply threads_rangesMisaligned
    | |- hsafe _ _ (blobbifyIdempotentUnit _) => apply threads_blobbifyIdempotent
    | |- hsafe _ _ (reBlobbifyUnit _) => apply threads_reBlobbify
    | |- _ => apply hsafe_stop_AssertFailed; threads_side
    end.
Qed.

Lemma threads_unit_tests strinc :
  hsafe waits_for_last_purge any_end (blobGranuleRangesUnitTests strinc).
Proof.
  unfold blobGranuleRangesUnitTests, unit_iteration, pick_op. cbv zeta.
  repeat first [apply threads_newKey | apply threads_run_unit | threads_auto].
Qed.

Lemma not_waited_no_wait_purge ev h :
  is_wait ev = false -> waits_for_last_purge h (call_of ev).
Proof. destruct ev as [X e x]; destruct e; simpl; first [discriminate | intros _; exact I]. Qed.

(** X7: Every actor of the workload waits for the purge it has just issued: a
    call of [waitPurgeGranulesComplete] is always on the key that the event
    directly before it, a [purgeBlobGranules], has answered. *)
Theorem wait_purge_on_key_of_last_purge :
  forall (strinc : Key -> Key) (t : actor unit) n w tr o,
    workload_actor strinc t ->
    exec n w t tr o ->
    (forall w' c, o = Suspended w' c -> waits_for_last_purge tr c) /\
    (forall tr1 ev tr2, tr = tr1 ++ ev :: tr2 -> waits_for_last_purge tr1 (call_of ev)).
Proof.
  intros strinc t n w tr o Ht Hex.
  assert (Hs : hsafe waits_for_last_purge any_end t).
  { destruct Ht;
      [ apply threads_setup | apply threads_client | apply threads_unregister
      | apply threads_checkRange | apply threads_unit_tests | apply threads_tearDown
      | apply threads_verifyRange | apply threads_verifyRangeGap
      | apply threads_rangesMisaligned | apply threads_blobbifyIdempotent
      | apply threads_reBlobbify ]. }
  split.
  - intros w' c ->. exact (Hs w [] n tr _ Hex).
  - intros tr1 ev tr2 Htr. destruct (is_wait ev) eqn:Hw.
    + destruct (@exec_suspended_prefix _ _ _ _ _ _ Hex _ _ _ Htr Hw) as [w' H'].
      exact (Hs w [] n tr1 _ H').
    + apply not_waited_no_wait_purge. exact Hw.
Qed.

(** ** Calls and ends of the unit scenarios *)

Lemma prefix_append p b s :
  String.prefix p b = true -> String.prefix p (b ++ s)%string = true.
Proof.
  revert p. induction b as [| c b IH]; intros p H.
  - destruct p; [destruct s; reflexivity | discriminate H].
  - destruct p as [| a p]; [reflexivity |]. simpl in *.
    destruct (ascii_dec a c); [apply IH; exact H | discriminate H].
Qed.

Lemma prefix_withSuffix p b s :
  String.prefix p b = true -> String.prefix p (withSuffix b s) = true.
Proof. apply prefix_append. Qed.

Lemma hsafe_wpx_bind {R S} P F (t : actor R) (k : R -> actor S) Q w h :
  hsafe P F t ->
  (forall r w' h',
      wpx (k r) Q (fun _ h' c => P h' c) (fun _ h' e => F h' e) w' h') ->
  wpx (ITree.bind t k) Q (fun _ h' c => P h' c) (fun _ h' e => F h' e) w h.
Proof.
  intros Ht Hk. apply wpx_bind.
  eapply wpx_mono; [| | | apply Ht]; simpl; auto.
Qed.

(** What is asked of a call on a range that begins with [p], and of an end
    by an assertion. *)
Ltac begins_side :=
  first
    [ intros ?; left; reflexivity
    | intros H; discriminate H
    | intros _ ? ? Hr; cbn [call_range] in Hr;
      first [ discriminate Hr
            | injection Hr as <-; cbn [range_begin range_end];
              auto using prefix_withSuffix ] ].

Lemma gap_boundaries_length range rc :
  List.length (gap_boundaries range rc) = S (S (Z.to_nat (rc - 1))).
Proof.
  unfold gap_boundaries. rewrite !length_app, length_map, length_seq. simpl. lia.
Qed.

Lemma gap_boundaries_inner p range rc i k :
  String.prefix p (range_begin range) = true ->
  (i <= Z.to_nat (rc - 1))%nat ->
  nth_error (gap_boundaries range rc) i = Some k ->
  String.prefix p k = true.
Proof.
  intros Hp Hi Hn. unfold gap_boundaries in Hn. destruct i as [| j]; simpl in Hn.
  - injection Hn as <-. exact Hp.
  - rewrite nth_error_app1 in Hn by (rewrite length_map, length_seq; lia).
    apply nth_error_In, in_map_iff in Hn. destruct Hn as (x & <- & _).
    apply prefix_withSuffix, Hp.
Qed.

(** An index between 0 and [rangeCount] is inside the boundary list. *)
Lemma wpx_boundary_at range rc i (Q : Workload -> list event -> Key -> Prop) I E w h :
  0 <= i <= rc -> 1 <= rc ->
  (forall k, nth_error (gap_boundaries range rc) (Z.to_nat i) = Some k -> Q w h k) ->
  wpx (boundary_at (gap_boundaries range rc) i) Q I E w h.
Proof.
  intros Hi Hrc HQ. unfold boundary_at.
  destruct (0 <=? i) eqn:H0; [| zbool; lia].
  destruct (nth_error (gap_boundaries range rc) (Z.to_nat i)) as [k |] eqn:Hn.
  - wpx_step. apply HQ. reflexivity.
  - apply nth_error_None in Hn. rewrite gap_boundaries_length in Hn. lia.
Qed.

Section UnitCalls.
Variable p : Key.

Lemma unit_setRange range active :
  String.prefix p (range_begin range) = true ->
  hsafe (begins p) clean_end (setRange range active).
Proof. intros Hp. unfold setRange. repeat hsafe_step begins_side. Qed.

Lemma unit_isRangeActive range :
  String.prefix p (range_begin range) = true ->
  hsafe (begins p) clean_end (isRangeActive range).
Proof. intros Hp. unfold isRangeActive. repeat hsafe_step begins_side. Qed.

Lemma unit_granules_retry range body :
  String.prefix p (range_begin range) = true ->
  (forall g, hsafe (begins p) clean_end (body g)) ->
  hsafe (begins p) clean_end (granules_retry range body).
Proof.
  intros Hp Hb w h. unfold granules_retry.
  apply wpx_iter with (Inv := fun _ _ _ => True); [| exact I].
  intros [] w1 h1 _. wpx_step. split.
  - intros r Hr. injection Hr as <-. exact Hp.
  - intros [e | granules] ?wo _.
    + wpx_step. split; [intros r Hr; discriminate Hr |]. intros [e' |] ?wo _.
      * wpx_step. right. eexists _, _, _. split; reflexivity.
      * wpx_step. exact I.
    + apply hsafe_wpx_bind; [apply Hb |]. intros. wpx_step. exact I.
Qed.

Ltac unit_auto :=
  repeat first
    [ apply unit_setRange; cbn [range_begin range_end]; auto using prefix_withSuffix
    | apply unit_isRangeActive; cbn [range_begin range_end]; auto using prefix_withSuffix
    | apply unit_granules_retry;
      [cbn [range_begin range_end]; auto using prefix_withSuffix | intros ?]
    | hsafe_step begins_side ].

Lemma unit_checkRange range isActive :
  String.prefix p (range_begin range) = true ->
  hsafe (begins p) clean_end (checkRange range isActive).
Proof. intros Hp. unfold checkRange. unit_auto. Qed.

Lemma unit_tearDown range :
  String.prefix p (range_begin range) = true ->
  hsafe (begins p) clean_end (tearDownRangeAfterUnit range).
Proof. intros Hp. unfold tearDownRangeAfterUnit. unit_auto. Qed.

Ltac unit_scenario :=
  repeat first
    [ apply unit_checkRange; cbn [range_begin range_end]; auto using prefix_withSuffix
    | apply unit_tearDown; cbn [range_begin range_end]; auto using prefix_withSuffix
    | unit_auto ].

Lemma unit_verifyRange range :
  String.prefix p (range_begin range) = true ->
  hsafe (begins p) clean_end (verifyRangeUnit range).
Proof. intros Hp. unfold verifyRangeUnit. cbv zeta. unit_scenario. Qed.

Lemma unit_rangesMisaligned range :
  String.prefix p (range_begin range) = true ->
  hsafe (begins p) clean_end (rangesMisalignedUnit range).
Proof. intros Hp. unfold rangesMisalignedUnit. cbv zeta. unit_scenario. Qed.

Lemma unit_blobbifyIdempotent range :
  String.prefix p (range_begin range) = true ->
  hsafe (begins p) clean_end (blobbifyIdempotentUnit range).
Proof. intros Hp. unfold blobbifyIdempotentUnit. cbv zeta. unit_scenario. Qed.

Lemma unit_reBlobbify range :
  String.prefix p (range_begin range) = true ->
  hsafe (begins p) clean_end (reBlobbifyUnit range).
Proof. intros Hp. unfold reBlobbifyUnit. unit_scenario. Qed.

Lemma unit_verifyRangeGap range :
  String.prefix p (range_begin range) = true ->
  hsafe (begins p) clean_end (verifyRangeGapUnit range).
Proof.
  intros Hp w h. unfold verifyRangeGapUnit. wpx_step. intros e _. cbv zeta.
  apply wpx_ASSERT_bind; [intros Hsize | intros _; left; reflexivity].
  assert (He : 0 <= e).
  { zbool. rewrite gap_boundaries_length in Hsize. lia. }
  wpx_step. intros g Hg.
  apply wpx_bind.
  eapply wpx_mono with (Q := fun _ _ _ => True);
    [| intros ? ? ? H; exact H | intros ? ? ? H; exact H |].
  2: { apply wpx_iter with (Inv := fun i _ _ => 0 <= i); [| lia].
       intros i w1 h1 Hi. destruct (i <? e + 1) eqn:Hlt; [| wpx_step; exact I]. zbool.
       apply wpx_bind. apply wpx_boundary_at; [lia | lia |]. intros lo Hlo.
       apply wpx_bind. apply wpx_boundary_at; [lia | lia |]. intros hi _.
       assert (Hplo : String.prefix p lo = true)
         by (eapply gap_boundaries_inner; [exact Hp | | exact Hlo]; lia).
       apply hsafe_wpx_bind.
       - destruct (negb (i =? g)); unit_scenario.
       - intros. wpx_step. lia. }
  intros w1 h1 _ _.
  apply hsafe_wpx_bind; [apply unit_isRangeActive; exact Hp |]. intros success w2 h2.
  apply wpx_ASSERT_bind; [intros _ | intros _; left; reflexivity].
  apply wpx_bind.
  eapply wpx_mono with (Q := fun _ _ _ => True);
    [| intros ? ? ? H; exact H | intros ? ? ? H; exact H |].
  2: { destruct (negb (g =? 0)); [| wpx_step; exact I].
       apply wpx_bind. apply wpx_boundary_at; [lia | lia |]. intros lo Hlo.
       apply wpx_bind. apply wpx_boundary_at; [lia | lia |]. intros hi _.
       apply unit_tearDown. cbn [range_begin].
       eapply gap_boundaries_inner; [exact Hp | | exact Hlo]. lia. }
  intros w3 h3 _ _.
  destruct (negb (g =? e + 1 - 1)) eqn:Hlast; [| wpx_step; exact I].
  apply negb_true_iff in Hlast. zbool.
  apply wpx_bind. apply wpx_boundary_at; [lia | lia |]. intros lo Hlo.
  apply wpx_bind.
  apply wpx_boundary_at; [rewrite gap_boundaries_length; lia | lia |]. intros hi _.
  apply unit_tearDown. cbn [range_begin].
  eapply gap_boundaries_inner; [exact Hp | | exact Hlo]. lia.
Qed.

Lemma unit_run_unit op range :
  String.prefix p (range_begin range) = true ->
  hsafe (begins p) clean_end (run_unit op range).
Proof.
  intros Hp. unfold run_unit.
  repeat match goal with |- hsafe _ _ (if ?b then _ else _) => destruct b end;
    lazymatch goal with
    | |- hsafe _ _ (verifyRangeUnit _) => apply unit_verifyRange, Hp
    | |- hsafe _ _ (verifyRangeGapUnit _) => apply unit_verifyRangeGap, Hp
    | |- hsafe _ _ (rangesMisalignedUnit _) => apply unit_rangesMisaligned, Hp
    | |- hsafe _ _ (blobbifyIdempotentUnit _) => apply unit_blobbifyIdempotent, Hp
    | |- hsafe _ _ (reBlobbifyUnit _) => apply unit_reBlobbify, Hp
    | |- _ => apply hsafe_stop_AssertFailed; intros ?; left; reflexivity
    end.
Qed.

Lemma unit_pick_op : hsafe (begins p) clean_end pick_op.
Proof. unfold pick_op. unit_auto. Qed.

Lemma unit_rest range :
  String.prefix p (range_begin range) = true ->
  hsafe (begins p) clean_end
        (op <- pick_op ;; run_unit op range ;; ITree.trigger (Delay 1%Q)).
Proof.
  intros Hp. apply hsafe_bind; [apply unit_pick_op | intros op].
  apply hsafe_bind; [apply unit_run_unit, Hp | intros ?].
  hsafe_step begins_side.
Qed.

End UnitCalls.

(** ** Calls and ends of the unit runner *)

Lemma wpx_conj {R} (t : actor R) Q1 I1 E1 Q2 I2 E2 w h :
  wpx t Q1 I1 E1 w h -> wpx t Q2 I2 E2 w h ->
  wpx t (fun w' h' r => Q1 w' h' r /\ Q2 w' h' r)
        (fun w' h' c => I1 w' h' c /\ I2 w' h' c)
        (fun w' h' e => E1 w' h' e /\ E2 w' h' e) w h.
Proof.
  intros H1 H2 n tr o Hex.
  specialize (H1 n tr o Hex). specialize (H2 n tr o Hex).
  destruct o; simpl in *; auto.
Qed.

Lemma prefix_U k : String.prefix "U_" ("U_" ++ k) = true.
Proof. simpl. destruct k; reflexivity. Qed.

(** Whatever the other actors do: the unit runner returns only when it finds
    [stopUnitClient] set, calls on ranges that begin with [U_], and ends as
    [unit_tests_end] says. *)
Lemma wpx_unit_tests strinc w h :
  wpx (blobGranuleRangesUnitTests strinc)
      (fun w' _ _ => stopUnitClient w' = true)
      (fun _ h' c => begins "U_" h' c)
      unit_tests_end w h.
Proof.
  unfold blobGranuleRangesUnitTests.
  apply wpx_iter with (Inv := fun _ _ _ => True); [| exact I].
  intros [] w1 h1 _. wpx_step.
  destruct (stopUnitClient w1) eqn:Hflag; [wpx_step; exact Hflag |].
  apply wpx_bind. unfold unit_iteration. apply wpx_bind.
  assert (Hrest : forall k w2 h2,
             wpx (op <- pick_op ;;
                  run_unit op (key_range strinc "U_" k) ;; ITree.trigger (Delay 1%Q))
                 (fun w' h' _ =>
                    wpx (Ret (inl tt))
                        (fun w'' h'' (lr : unit + unit) =>
                           match lr with
                           | inl _ => True
                           | inr _ => stopUnitClient w'' = true
                           end)
                        (fun _ h'' c => begins "U_" h'' c) unit_tests_end w' h')
                 (fun _ h' c => begins "U_" h' c) unit_tests_end w2 h2).
  { intros k w2 h2.
    eapply wpx_mono;
      [| | | exact (@unit_rest "U_" (key_range strinc "U_" k) (prefix_U k) w2 h2)];
      simpl.
    - intros w' h' r _. wpx_step. exact I.
    - intros ? ? ? H. exact H.
    - intros ? ? ? H. left. exact H. }
  apply wpx_newKey.
  + intros _ _. apply Hrest.
  + intros Hs Ho. right. auto.
  + intros _ u. apply Hrest.
Qed.

(** X8: The calls of the unit runner are on ranges whose begin starts with
    [U_]: the call it is suspended on, and every call in its trace, whatever
    the scenario. *)
Theorem unit_tests_call_on_U_ranges :
  forall (strinc : Key -> Key) n w tr o,
    exec n w (blobGranuleRangesUnitTests strinc) tr o ->
    (forall w' c r, o = Suspended w' c -> call_range c = Some r ->
                    String.prefix "U_" (range_begin r) = true) /\
    (forall ev r, In ev tr -> call_range (call_of ev) = Some r ->
                  String.prefix "U_" (range_begin r) = true).
Proof.
  intros strinc n w tr o Hex. split.
  - intros w' c r -> Hr. exact (wpx_unit_tests strinc w [] n tr _ Hex r Hr).
  - intros ev r Hin Hr. destruct (is_wait ev) eqn:Hw.
    + apply in_split in Hin. destruct Hin as (tr1 & tr2 & ->).
      destruct (@exec_suspended_prefix _ _ _ _ _ _ Hex _ _ _ eq_refl Hw) as [w' H'].
      exact (wpx_unit_tests strinc w [] n tr1 _ H' r Hr).
    + rewrite not_waited_no_range in Hr by exact Hw. discriminate Hr.
Qed.

(** The unit runner on its own: it returns only when it has found
    [stopUnitClient] set before its first pass. *)
Lemma wpx_unit_tests_alone strinc w :
  (forall a b, others a b -> b = a) ->
  wpx (blobGranuleRangesUnitTests strinc)
      (fun w' h' _ => stopUnitClient w = true /\ w' = w /\ h' = [])
      (fun _ h' c => begins "U_" h' c)
      unit_tests_end w [].
Proof.
  intros Halone.
  assert (HS : forall a b, others a b -> stopUnitClient a = false ->
                           stopUnitClient b = false).
  { intros a b Hab. rewrite (Halone a b Hab). auto. }
  unfold blobGranuleRangesUnitTests.
  apply wpx_iter with
    (Inv := fun _ w1 h1 => stopUnitClient w1 = stopUnitClient w /\
                           (stopUnitClient w = true -> w1 = w /\ h1 = [])).
  2: { split; [reflexivity | auto]. }
  intros [] w1 h1 [Hf Hst]. wpx_step.
  destruct (stopUnitClient w1) eqn:Hflag.
  - wpx_step. symmetry in Hf. destruct (Hst Hf). auto.
  - apply wpx_bind. unfold unit_iteration. apply wpx_bind.
    assert (Hrest : forall k w2 h2,
               stopUnitClient w2 = false ->
               wpx (op <- pick_op ;;
                    run_unit op (key_range strinc "U_" k) ;; ITree.trigger (Delay 1%Q))
                   (fun w' h' _ =>
                      wpx (Ret (inl tt))
                          (fun w'' h'' (lr : unit + unit) =>
                             match lr with
                             | inl _ =>
                                 stopUnitClient w'' = stopUnitClient w /\
                                 (stopUnitClient w = true -> w'' = w /\ h'' = [])
                             | inr _ => stopUnitClient w = true /\ w'' = w /\ h'' = []
                             end)
                          (fun _ h'' c => begins "U_" h'' c) unit_tests_end w' h')
                   (fun _ h' c => begins "U_" h' c) unit_tests_end w2 h2).
    { intros k w2 h2 H2.
      pose proof (wpx_conj
                    (@unit_rest "U_" (key_range strinc "U_" k) (prefix_U k) w2 h2)
                    (@keeps_unit_rest (key_range strinc "U_" k)
                       (fun w' => stopUnitClient w' = false) HS w2 h2 H2)) as HC.
      eapply wpx_mono; [| | | exact HC]; simpl.
      - intros w' h' r [_ Hfl]. wpx_step. split; [congruence |].
        intros Ht. congruence.
      - intros ? ? ? [H _]. exact H.
      - intros ? ? ? [H _]. left. exact H. }
    apply wpx_newKey.
    + intros _ _. apply Hrest. exact Hflag.
    + intros Hs Ho. right. auto.
    + intros _ u. apply Hrest. exact Hflag.
Qed.

(** ** The ranges of the driver *)

Section DriverRanges.
Variable strinc : Key -> Key.

Local Abbreviation J := (lists_registered strinc).
Local Abbreviation Jq := (fun (w' : Workload) (_ : list event) (_ : unit) =>
                            lists_registered strinc w').
Local Abbreviation Ji := (fun (w' : Workload) (_ : list event) (c : call) =>
                            lists_registered strinc w' /\ on_registered strinc c).
Local Abbreviation Je := (fun (w' : Workload) (_ : list event) (_ : wlE Empty_set) =>
                            lists_registered strinc w').

Hypothesis beside : forall w w', others w w' -> unit_side w w'.

Lemma lists_registered_beside w w' : J w -> others w w' -> J w'.
Proof.
  intros [Ha Hi] Hw'. apply beside, unit_side_spares in Hw'.
  destruct Hw' as (Ea & Ei & _). unfold lists_registered. rewrite Ea, Ei. auto.
Qed.

Lemma ranges_registerNewRange w h :
  J w -> wpx (registerNewRange strinc) Jq Ji Je w h.
Proof.
  intros HJ.
  assert (Hrest : forall k w1 h1,
             J w1 ->
             wpx (success <- setRange (key_range strinc "R_" k) true ;;
                  ASSERT success ;; push_active (key_range strinc "R_" k))
                 Jq Ji Je w1 h1).
  { intros k w1 h1 H1. apply wpx_setRange_bind.
    - split; [exact H1 |]. intros r Hr. injection Hr as <-. exists k. reflexivity.
    - intros b wo Hwo. apply (fun H => lists_registered_beside H Hwo) in H1.
      wpx_step; [| exact H1].
      unfold push_active. do 3 wpx_step. destruct H1 as [Ha Hi].
      split; [| exact Hi]. simpl. apply Forall_app. split; [exact Ha |].
      constructor; [exists k; reflexivity | constructor]. }
  unfold registerNewRange. apply wpx_bind. apply wpx_newKey.
  - intros _ _. apply Hrest. exact HJ.
  - intros _ _. exact HJ.
  - intros _ u. apply Hrest. exact HJ.
Qed.

Lemma ranges_unregisterRandomRange w h :
  J w -> wpx unregisterRandomRange Jq Ji Je w h.
Proof.
  intros [Ha Hi]. unfold unregisterRandomRange. wpx_step. wpx_step. intros idx Hidx.
  destruct (0 <=? idx); [| wpx_step; split; assumption].
  destruct (nth_error (activeRanges w) (Z.to_nat idx)) as [range |] eqn:Hnth;
    [| wpx_step; split; assumption].
  assert (Hreg : registered_range strinc range).
  { rewrite Forall_forall in Ha. apply Ha. eapply nth_error_In. exact Hnth. }
  assert (H1 : J (set_activeRanges w (swapAndPop (activeRanges w) (Z.to_nat idx)))).
  { split; [| exact Hi]. simpl.
    pose proof (Permutation_Forall (swapAndPop_perm _ _ Hnth) Ha) as HF.
    inversion HF; assumption. }
  wpx_step. wpx_step. intros force _.
  assert (Hrest : forall w1 h1,
             J w1 ->
             wpx (success <- setRange range false ;; ASSERT success ;; push_inactive range)
                 Jq Ji Je w1 h1).
  { intros w1 h1 H2. apply wpx_setRange_bind.
    - split; [exact H2 |]. intros r Hr. injection Hr as <-. exact Hreg.
    - intros b wo Hwo. apply (fun H => lists_registered_beside H Hwo) in H2.
      wpx_step; [| exact H2].
      unfold push_inactive. do 3 wpx_step. destruct H2 as [Ha1 Hi1].
      split; [exact Ha1 |]. simpl. apply Forall_app. split; [exact Hi1 |].
      constructor; [exact Hreg | constructor]. }
  apply wpx_bind. destruct force.
  - wpx_step. split.
    + split; [exact H1 |]. intros r Hr. injection Hr as <-. exact Hreg.
    + intros purgeKey w1 Hw1. apply (fun H => lists_registered_beside H Hw1) in H1.
      wpx_step. split.
      * split; [exact H1 |]. intros r Hr. discriminate Hr.
      * intros [] w2 Hw2. apply (fun H => lists_registered_beside H Hw2) in H1.
        wpx_step. apply Hrest. exact H1.
  - wpx_step. apply Hrest. exact H1.
Qed.

Lemma ranges_setup w h : J w -> wpx (_setup strinc) Jq Ji Je w h.
Proof.
  intros HJ. unfold _setup. wpx_step.
  split; [split; [exact HJ | intros r Hr; discriminate Hr] |]. intros [] w1 Hw1.
  apply (fun H => lists_registered_beside H Hw1) in HJ.
  apply wpx_iter with (Inv := fun _ w' _ => J w'); [| exact HJ].
  clear w h HJ Hw1. intros i w h HJ. wpx_step. destruct (i <? targetRanges w).
  - apply wpx_bind.
    eapply wpx_mono; [| | | apply ranges_registerNewRange; exact HJ]; simpl; auto.
    intros w' h' r H. wpx_step. exact H.
  - wpx_step. exact HJ.
Qed.

Lemma ranges_client w h : J w -> wpx (blobGranuleRangesClient strinc) Jq Ji Je w h.
Proof.
  intros HJ. unfold blobGranuleRangesClient.
  apply wpx_iter with (Inv := fun _ w' _ => J w'); [| exact HJ].
  clear w h HJ. intros [] w h HJ. wpx_step. apply wpx_bind.
  assert (Hop : forall (register : bool) w2 h2,
             J w2 ->
             wpx ((if register then registerNewRange strinc else unregisterRandomRange) ;;
                  ITree.trigger (Poisson (operationsPerSecond w)) ;; Ret (inl tt))
                 (fun w' _ (lr : unit + unit) =>
                    match lr with inl _ => J w' | inr _ => J w' end)
                 Ji Je w2 h2).
  { intros register w2 h2 H2. apply wpx_bind.
    eapply wpx_mono with (Q := Jq);
      [| intros ? ? ? H; exact H | intros ? ? ? H; exact H
       | destruct register;
         [apply ranges_registerNewRange | apply ranges_unregisterRandomRange]; exact H2].
    intros w' h' r H. wpx_step.
    split; [split; [exact H | intros r' Hr; discriminate Hr] |]. intros [] wo Hwo.
    wpx_step. exact (lists_registered_beside H Hwo). }
  destruct (activeRanges w) eqn:Ha.
  - wpx_step. apply (Hop true). exact HJ.
  - wpx_step. intros register _. wpx_step. apply (Hop register). exact HJ.
Qed.

Lemma ranges_driver w h : J w -> wpx (driver strinc) Jq Ji Je w h.
Proof.
  intros HJ. unfold driver. apply wpx_bind.
  eapply wpx_mono; [| | | apply ranges_setup; exact HJ]; simpl; auto.
  intros w' h' r H. eapply wpx_mono; [| | | apply ranges_client; exact H]; simpl; auto.
Qed.

End DriverRanges.

Lemma driver_on_registered (strinc : Key -> Key) n w0 tr o :
  (forall a b, others a b -> unit_side a b) ->
  lists_registered strinc w0 ->
  exec n w0 (driver strinc) tr o ->
  lists_registered strinc (outcome_state o) /\
  (forall w' c, o = Suspended w' c -> on_registered strinc c) /\
  (forall ev, In ev tr -> on_registered strinc (call_of ev)).
Proof.
  intros Hbeside HJ Hex.
  pose proof (ranges_driver Hbeside [] HJ) as H.
  split; [| split].
  - specialize (H n tr o Hex). destruct o; simpl in *; tauto.
  - intros w' c ->. exact (proj2 (H n tr _ Hex)).
  - intros ev Hin. destruct (is_wait ev) eqn:Hw.
    + apply in_split in Hin. destruct Hin as (tr1 & tr2 & ->).
      destruct (@exec_suspended_prefix _ _ _ _ _ _ Hex _ _ _ eq_refl Hw) as [w' H'].
      exact (proj2 (H n tr1 _ H')).
    + intros r Hr. rewrite not_waited_no_range in Hr by exact Hw. discriminate Hr.
Qed.

(** ** The calls of a scenario that change the database *)

Lemma writes_snoc h ev :
  writes (h ++ [ev]) = writes h ++ (if is_write ev then [ev] else []).
Proof. unfold writes. rewrite filter_app. reflexivity. Qed.

(** [isRangeActive], [checkRange] and the retry loop make no call that
    changes the database. *)
Lemma reads_isRangeActive_bind {R} range (k : bool -> actor R) Q w h :
  (forall h', writes h' = writes h -> forall b w',
      wpx (k b) Q (fun _ _ _ => True) (fun _ _ _ => True) w' h') ->
  wpx (ITree.bind (isRangeActive range) k) Q (fun _ _ _ => True) (fun _ _ _ => True) w h.
Proof.
  intros Hk. apply wpx_bind. unfold isRangeActive.
  wpx_step. split; [exact I |]. intros v wo _. wpx_step. apply Hk.
  rewrite writes_snoc. apply app_nil_r.
Qed.

Lemma reads_granules_retry range body w h :
  (forall g w' h', wpx (body g) (fun _ h'' _ => writes h'' = writes h')
                       (fun _ _ _ => True) (fun _ _ _ => True) w' h') ->
  wpx (granules_retry range body) (fun _ h' _ => writes h' = writes h)
      (fun _ _ _ => True) (fun _ _ _ => True) w h.
Proof.
  intros Hb. unfold granules_retry.
  apply wpx_iter with (Inv := fun _ _ h' => writes h' = writes h); [| reflexivity].
  intros [] w1 h1 H1. wpx_step. split; [exact I |]. intros [e | granules] ?wo _.
  - wpx_step. split; [exact I |]. intros [e' |] ?wo _.
    + wpx_step. exact I.
    + wpx_step. rewrite !writes_snoc, !app_nil_r. exact H1.
  - apply wpx_bind.
    eapply wpx_mono; [| | | apply Hb]; simpl; auto.
    intros w' h' r H. wpx_step. rewrite H, writes_snoc, app_nil_r. exact H1.
Qed.

Lemma reads_ASSERT b w h :
  wpx (ASSERT b) (fun _ h' _ => writes h' = writes h)
      (fun _ _ _ => True) (fun _ _ _ => True) w h.
Proof. wpx_step; [reflexivity | exact I]. Qed.

Lemma reads_checkRange range isActive w h :
  wpx (checkRange range isActive) (fun _ h' _ => writes h' = writes h)
      (fun _ _ _ => True) (fun _ _ _ => True) w h.
Proof.
  unfold checkRange. apply wpx_bind.
  eapply wpx_mono with (Q := fun _ h' _ => writes h' = writes h);
    [| intros ? ? ? H; exact H | intros ? ? ? H; exact H |].
  2: { apply wpx_iter with (Inv := fun _ _ h' => writes h' = writes h); [| reflexivity].
       intros [] w1 h1 H1. apply reads_isRangeActive_bind. intros h2 H2 completed ?wo.
       destruct (Bool.eqb completed isActive).
       - wpx_step. congruence.
       - wpx_step. split; [exact I |]. intros [] ?wo _. wpx_step.
         rewrite writes_snoc, app_nil_r. congruence. }
  intros w1 h1 _ H1. wpx_step. split; [exact I |]. intros blobRanges ?wo _.
  assert (H2 : writes (h1 ++ [Ev (ListBlobbifiedRanges range OP_LIMIT) blobRanges])
               = writes h) by (rewrite writes_snoc, app_nil_r; exact H1).
  apply wpx_bind.
  eapply wpx_mono with (Q := fun _ h' _ => writes h' = writes h);
    [| intros ? ? ? H; exact H | intros ? ? ? H; exact H |].
  2: { destruct isActive.
       - destruct blobRanges as [| b [| b' rest]]; try (wpx_step; exact I).
         wpx_step; [| exact I]. wpx_step; [exact H2 | exact I].
       - wpx_step; [exact H2 | exact I]. }
  intros w2 h2 _ H3. rewrite <- H3. apply reads_granules_retry.
  intros g w' h'. destruct isActive.
  - destruct g as [| front rest]; [wpx_step; exact I |].
    wpx_step; [| exact I]. wpx_step; [| exact I]. apply reads_ASSERT.
  - apply reads_ASSERT.
Qed.

Lemma reads_checkRange_bind {R} range isActive (k : unit -> actor R) Q w h :
  (forall h', writes h' = writes h -> forall w',
      wpx (k tt) Q (fun _ _ _ => True) (fun _ _ _ => True) w' h') ->
  wpx (ITree.bind (checkRange range isActive) k) Q
      (fun _ _ _ => True) (fun _ _ _ => True) w h.
Proof.
  intros Hk. apply wpx_bind.
  eapply wpx_mono; [| | | apply reads_checkRange]; simpl; auto.
  intros w' h' [] H. apply Hk. exact H.
Qed.

(** Rewriting [writes] of the history built so far. *)
Ltac writes_norm :=
  repeat match goal with
         | |- context [writes (_ ++ [_])] => rewrite writes_snoc
         | H : writes ?h = _ |- context [writes ?h] => rewrite H
         end;
  cbn [is_write app]; rewrite ?app_nil_r.

(** X11: A full run of [verifyRangeUnit] changes the database by one
    [blobbifyRange] of the active range, answered true, and by the tear-down
    of that same range at its end (forced purge, wait for it,
    [unblobbifyRange] answered true); every other call only reads. *)
Theorem verifyRangeUnit_blobbifies_and_tears_down :
  forall range n w tr w',
    exec n w (verifyRangeUnit range) tr (Done w' tt) ->
    exists purgeKey,
      writes tr = Ev (BlobbifyRange (unit_active range)) true
                  :: teardown_trace (unit_active range) purgeKey.
Proof.
  intros range n w tr w' Hex.
  assert (H : wpx (verifyRangeUnit range)
                  (fun _ h _ => exists purgeKey,
                       writes h = Ev (BlobbifyRange (unit_active range)) true
                                  :: teardown_trace (unit_active range) purgeKey)
                  (fun _ _ _ => True) (fun _ _ _ => True) w []);
    [| exact (H n tr _ Hex)].
  clear. unfold verifyRangeUnit. cbv zeta.
  apply wpx_setRange_bind; [exact I |]. intros b ?wo _.
  apply wpx_ASSERT_bind; [intros -> | intros _; exact I].
  apply reads_checkRange_bind. intros h1 H1 w1.
  repeat (apply reads_isRangeActive_bind; intros ? ? ? ?wo;
          apply wpx_ASSERT_bind; [intros _ | intros _; exact I]).
  unfold tearDownRangeAfterUnit.
  wpx_step. split; [exact I |]. intros purgeKey ?wo _.
  wpx_step. split; [exact I |]. intros [] ?wo _.
  apply wpx_setRange_bind; [exact I |]. intros success ?wo _.
  wpx_step; [| exact I]. subst success.
  exists purgeKey. writes_norm. reflexivity.
Qed.

(** X12: A full run of [reBlobbifyUnit] changes the database by the same four
    calls twice: [blobbifyRange] of the range answered true, forced purge,
    wait for it, [unblobbifyRange] answered true; the second round is the
    tear-down. The checks in between only read. *)
Theorem reBlobbifyUnit_blobbifies_twice :
  forall range n w tr w',
    exec n w (reBlobbifyUnit range) tr (Done w' tt) ->
    exists purgeKey1 purgeKey2,
      writes tr = (Ev (BlobbifyRange range) true :: teardown_trace range purgeKey1)
                  ++ Ev (BlobbifyRange range) true :: teardown_trace range purgeKey2.
Proof.
  intros range n w tr w' Hex.
  assert (H : wpx (reBlobbifyUnit range)
                  (fun _ h _ => exists purgeKey1 purgeKey2,
                       writes h
                       = (Ev (BlobbifyRange range) true :: teardown_trace range purgeKey1)
                         ++ Ev (BlobbifyRange range) true
                            :: teardown_trace range purgeKey2)
                  (fun _ _ _ => True) (fun _ _ _ => True) w []);
    [| exact (H n tr _ Hex)].
  clear. unfold reBlobbifyUnit.
  apply wpx_setRange_bind; [exact I |]. intros b1 ?wo _.
  apply wpx_ASSERT_bind; [intros Hb1 | intros _; exact I].
  apply reads_checkRange_bind. intros h1 H1 w1.
  wpx_step. split; [exact I |]. intros purgeKey1 ?wo _.
  wpx_step. split; [exact I |]. intros [] ?wo _.
  apply reads_checkRange_bind. intros h2 H2 w2.
  apply wpx_setRange_bind; [exact I |]. intros b2 ?wo _.
  apply wpx_ASSERT_bind; [intros Hb2 | intros _; exact I].
  apply reads_checkRange_bind. intros h3 H3 w3.
  apply wpx_setRange_bind; [exact I |]. intros b3 ?wo _.
  apply wpx_ASSERT_bind; [intros Hb3 | intros _; exact I].
  apply reads_checkRange_bind. intros h4 H4 w4.
  unfold tearDownRangeAfterUnit.
  wpx_step. split; [exact I |]. intros purgeKey2 ?wo _.
  wpx_step. split; [exact I |]. intros [] ?wo _.
  apply wpx_setRange_bind; [exact I |]. intros b4 ?wo _.
  wpx_step; [| exact I]. subst b1 b2 b3 b4.
  exists purgeKey1, purgeKey2. writes_norm. reflexivity.
Qed.

(** ** The sub-ranges of [verifyRangeGapUnit] *)

Lemma extends_refl h : extends h h.
Proof. exists []. symmetry. apply app_nil_r. Qed.

Lemma extends_trans h1 h2 h3 : extends h1 h2 -> extends h2 h3 -> extends h1 h3.
Proof. intros [a ->] [b ->]. exists (a ++ b). symmetry. apply app_assoc. Qed.

Lemma extends_app h l : extends h (h ++ l).
Proof. exists l. reflexivity. Qed.

Lemma wpx_extends {R} (t : actor R) Q w h :
  wpx t Q (fun _ _ _ => True) (fun _ _ _ => True) w h ->
  wpx t (fun w' h' r => Q w' h' r /\ extends h h')
      (fun _ _ _ => True) (fun _ _ _ => True) w h.
Proof.
  intros H n tr o Hex. specialize (H n tr o Hex).
  destruct o; simpl in *; auto. split; [exact H | apply extends_app].
Qed.

Lemma writes_tearDown range w h :
  wpx (tearDownRangeAfterUnit range)
      (fun _ h' _ => (exists purgeKey,
                         writes h' = writes h ++ teardown_trace range purgeKey) /\
                     extends h h')
      (fun _ _ _ => True) (fun _ _ _ => True) w h.
Proof.
  apply wpx_extends. unfold tearDownRangeAfterUnit.
  wpx_step. split; [exact I |]. intros purgeKey ?wo _.
  wpx_step. split; [exact I |]. intros [] ?wo _.
  apply wpx_setRange_bind; [exact I |]. intros success ?wo _.
  wpx_step; [| exact I]. subst success.
  exists purgeKey. writes_norm. rewrite <- !app_assoc. reflexivity.
Qed.

Lemma gap_blobbified_S range rc g n :
  gap_blobbified range rc g (S n)
  = gap_blobbified range rc g n
    ++ (if (n =? g)%nat then []
        else [Ev (BlobbifyRange (gap_subrange range rc n)) true]).
Proof.
  unfold gap_blobbified. rewrite seq_S, filter_app, map_app. simpl.
  destruct (n =? g)%nat; reflexivity.
Qed.

Lemma gap_span_nth range rc i j lo hi :
  nth_error (gap_boundaries range rc) i = Some lo ->
  nth_error (gap_boundaries range rc) j = Some hi ->
  KeyRangeRef lo hi = gap_span range rc i j.
Proof.
  intros Hlo Hhi. unfold gap_span. cbv zeta.
  f_equal; symmetry; apply nth_error_nth; assumption.
Qed.

(** X13: A full run of [verifyRangeGapUnit] blobbifies every sub-range but the
    one drawn as [rangeToNotBlobbify], in order, and then tears down the span
    of the sub-ranges before it and the span of those after it, each by one
    forced purge and one [unblobbifyRange] over the whole span, leaving out a
    span that is empty. Every other call only reads. *)
Theorem verifyRangeGapUnit_blobbifies_all_but_the_gap :
  forall range n w tr w',
    exec n w (verifyRangeGapUnit range) tr (Done w' tt) ->
    exists e g purgeKey1 purgeKey2 rest,
      0 <= e /\ 0 <= g < e + 1 /\
      tr = Ev (RandomExp 3 6) e :: Ev (RandomInt 0 (e + 1)) g :: rest /\
      writes tr = gap_writes range e g purgeKey1 purgeKey2.
Proof.
  intros range n w tr w' Hex.
  assert (H : wpx (verifyRangeGapUnit range)
                  (fun _ h _ => exists e g purgeKey1 purgeKey2,
                       0 <= e /\ 0 <= g < e + 1 /\
                       extends [Ev (RandomExp 3 6) e; Ev (RandomInt 0 (e + 1)) g] h /\
                       writes h = gap_writes range e g purgeKey1 purgeKey2)
                  (fun _ _ _ => True) (fun _ _ _ => True) w []).
  { clear. unfold verifyRangeGapUnit. wpx_step. intros e _. cbv zeta.
    apply wpx_ASSERT_bind; [intros Hsize | intros _; exact I].
    assert (He : 0 <= e).
    { zbool. rewrite gap_boundaries_length in Hsize. lia. }
    wpx_step. intros g Hg.
    set (h0 := ([] ++ [Ev (RandomExp 3 6) e]) ++ [Ev (RandomInt 0 (e + 1)) g]).
    set (rc := e + 1) in *.
    apply wpx_bind.
    eapply wpx_mono with
      (Q := fun _ h' _ =>
              extends h0 h' /\
              writes h' = gap_blobbified range rc (Z.to_nat g) (Z.to_nat rc));
      [| intros ? ? ? H; exact H | intros ? ? ? H; exact H |].
    2: { apply wpx_iter with
           (Inv := fun i _ h' =>
                     0 <= i <= rc /\ extends h0 h' /\
                     writes h' = gap_blobbified range rc (Z.to_nat g) (Z.to_nat i)).
         2: { split; [lia |]. split; [apply extends_refl | reflexivity]. }
         intros i w1 h1 (Hi & Hx & Hw). destruct (i <? rc) eqn:Hlt; zbool.
         2: { wpx_step. replace i with rc in * by lia. auto. }
         apply wpx_bind. apply wpx_boundary_at; [lia | lia |]. intros lo Hlo.
         apply wpx_bind. apply wpx_boundary_at; [lia | lia |]. intros hi Hhi.
         replace (Z.to_nat (i + 1)) with (S (Z.to_nat i)) in Hhi by lia.
         rewrite (gap_span_nth _ _ _ _ Hlo Hhi).
         change (gap_span range rc (Z.to_nat i) (S (Z.to_nat i)))
           with (gap_subrange range rc (Z.to_nat i)).
         pose proof (gap_blobbified_S range rc (Z.to_nat g) (Z.to_nat i)) as HS.
         apply wpx_bind. destruct (i =? g) eqn:Hig; zbool; cbn [negb].
         - subst i. rewrite Nat.eqb_refl, app_nil_r in HS.
           eapply wpx_mono; [| | | apply wpx_extends, reads_checkRange]; simpl; auto.
           intros w2 h2 _ [Hw2 Hx2]. wpx_step.
           split; [lia |]. split; [eapply extends_trans; eauto |].
           replace (Z.to_nat (g + 1)) with (S (Z.to_nat g)) by lia. congruence.
         - assert (Hne : (Z.to_nat i =? Z.to_nat g)%nat = false)
             by (apply Nat.eqb_neq; lia).
           rewrite Hne in HS.
           apply wpx_setRange_bind; [exact I |]. intros success ?wo _.
           apply wpx_ASSERT_bind; [intros -> | intros _; exact I].
           eapply wpx_mono; [| | | apply wpx_extends, reads_checkRange]; simpl; auto.
           intros w2 h2 _ [Hw2 Hx2]. wpx_step.
           split; [lia |]. split.
           + eapply extends_trans; [| exact Hx2].
             eapply extends_trans; [exact Hx | apply extends_app].
           + replace (Z.to_nat (i + 1)) with (S (Z.to_nat i)) by lia.
             rewrite HS, Hw2, writes_snoc, Hw. reflexivity. }
    intros w1 h1 _ [Hx1 Hw1].
    apply wpx_bind. unfold isRangeActive.
    wpx_step. split; [exact I |]. intros v ?wo _. wpx_step.
    apply wpx_ASSERT_bind; [intros _ | intros _; exact I].
    assert (Hx2 : extends h0 (h1 ++ [Ev (VerifyBlobRange range None) v]))
      by (eapply extends_trans; [exact Hx1 | apply extends_app]).
    assert (Hw2 : writes (h1 ++ [Ev (VerifyBlobRange range None) v])
                  = gap_blobbified range rc (Z.to_nat g) (Z.to_nat rc))
      by (rewrite writes_snoc, app_nil_r; exact Hw1).
    revert Hx2 Hw2. generalize (h1 ++ [Ev (VerifyBlobRange range None) v]).
    clear h1 Hx1 Hw1. intros h2 Hx2 Hw2.
    apply wpx_bind.
    eapply wpx_mono with
      (Q := fun _ h' _ =>
              extends h0 h' /\
              exists purgeKey1,
                writes h' = gap_blobbified range rc (Z.to_nat g) (Z.to_nat rc)
                            ++ (if g =? 0 then []
                                else teardown_trace (gap_span range rc 0 (Z.to_nat g))
                                                    purgeKey1));
      [| intros ? ? ? H; exact H | intros ? ? ? H; exact H |].
    2: { destruct (g =? 0) eqn:Hg0; zbool; cbn [negb].
         - wpx_step. split; [exact Hx2 |]. exists EmptyString.
           rewrite app_nil_r. exact Hw2.
         - apply wpx_bind. apply wpx_boundary_at; [lia | lia |]. intros lo Hlo.
           apply wpx_bind. apply wpx_boundary_at; [lia | lia |]. intros hi Hhi.
           rewrite (gap_span_nth _ _ _ _ Hlo Hhi). change (Z.to_nat 0) with 0%nat.
           eapply wpx_mono; [| | | apply writes_tearDown]; simpl; auto.
           intros w3 h3 _ [[purgeKey1 Hw3] Hx3].
           split; [eapply extends_trans; eauto |].
           exists purgeKey1. rewrite Hw3, Hw2. reflexivity. }
    intros w3 h3 _ [Hx3 [purgeKey1 Hw3]].
    destruct (g =? rc - 1) eqn:Hlast; cbn [negb].
    - wpx_step. exists e, g, purgeKey1, EmptyString.
      split; [exact He |]. split; [exact Hg |]. split; [exact Hx3 |].
      unfold gap_writes. cbv zeta. fold rc. rewrite Hlast, app_nil_r. exact Hw3.
    - zbool.
      apply wpx_bind. apply wpx_boundary_at; [lia | lia |]. intros lo Hlo.
      apply wpx_bind.
      apply wpx_boundary_at; [rewrite gap_boundaries_length; lia | lia |].
      intros hi Hhi.
      rewrite (gap_span_nth _ _ _ _ Hlo Hhi).
      replace (Z.to_nat (g + 1)) with (Z.to_nat g + 1)%nat by lia.
      replace (Z.to_nat (Z.of_nat (List.length (gap_boundaries range rc)) - 1))
        with (Z.to_nat rc) by (rewrite gap_boundaries_length; lia).
      eapply wpx_mono; [| | | apply writes_tearDown]; simpl; auto.
      intros w4 h4 _ [[purgeKey2 Hw4] Hx4].
      exists e, g, purgeKey1, purgeKey2.
      split; [exact He |]. split; [exact Hg |].
      split; [eapply extends_trans; eauto |].
      unfold gap_writes. cbv zeta. fold rc.
      assert (Hl : (g =? rc - 1) = false) by (apply Z.eqb_neq; exact Hlast).
      rewrite Hl, Hw4, Hw3, <- app_assoc. reflexivity. }
  specialize (H n tr _ Hex). simpl in H.
  destruct H as (e & g & purgeKey1 & purgeKey2 & He & Hg & [rest ->] & Hw).
  exists e, g, purgeKey1, purgeKey2, rest. auto.
Qed.

(** ** The constructor: [operationsPerSecond] *)

Lemma max_quot_div v cc : 1 <= cc -> Z.max 1 (Z.quot v cc) = Z.max 1 (v / cc).
Proof.
  intros Hcc. destruct (Z.le_gt_cases 0 v) as [Hv | Hv].
  - rewrite Z.quot_div_nonneg by lia. reflexivity.
  - assert (Z.quot v cc <= 0).
    { replace v with (- (- v)) by lia. rewrite Z.quot_opp_l by lia.
      assert (0 <= Z.quot (- v) cc) by (apply Z.quot_pos; lia). lia. }
    assert (v / cc < 0) by (apply Z.div_lt_upper_bound; lia).
    lia.
Qed.

(** X14: For every [clientCount >= 1] the constructor leaves
    [operationsPerSecond] at the maximum of 1 and the option [opsPerSecond]
    (by default a draw of [randomInt(1, 100)]) divided by [clientCount] and
    rounded down: it is at least 1, so that the mean [1.0 /
    operationsPerSecond] of the client loop is defined, and at most 99 when
    the option is not given. The constructor draws three times and calls
    nothing. *)
Theorem operationsPerSecond_at_least_1 :
  forall cid cc seed ops n w0 tr w0' w,
    1 <= cc ->
    exec n w0 (BlobGranuleRangesWorkload cid cc seed ops) tr (Done w0' w) ->
    exists dflt e r,
      tr = ctor_draws seed dflt e r /\ 1 <= dflt < 100 /\
      operationsPerSecond w
      = Z.max 1 ((match ops with Some v => v | None => dflt end) / cc) /\
      1 <= operationsPerSecond w /\
      (ops = None -> operationsPerSecond w <= 99).
Proof.
  intros cid cc seed ops n w0 tr w0' w Hcc Hex.
  assert (H : wpx (BlobGranuleRangesWorkload cid cc seed ops)
                  (fun _ h w => exists dflt e r,
                       h = ctor_draws seed dflt e r /\ 1 <= dflt < 100 /\
                       operationsPerSecond w
                       = Z.max 1 ((match ops with Some v => v | None => dflt end) / cc) /\
                       1 <= operationsPerSecond w /\
                       (ops = None -> operationsPerSecond w <= 99))
                  (fun _ _ _ => True) (fun _ _ _ => True) w0 []);
    [| exact (H n tr _ Hex)].
  clear Hex. unfold BlobGranuleRangesWorkload.
  wpx_step. intros dflt Hd. wpx_step. intros e _. wpx_step. intros r _.
  destruct (targetRanges_of e r cc) as [targetRanges |]; [| wpx_step; exact I].
  wpx_step.
  exists dflt, e, r. cbn [operationsPerSecond]. cbv zeta.
  rewrite if_max, max_quot_div by exact Hcc.
  split; [reflexivity |]. split; [exact Hd |]. split; [reflexivity |].
  split; [lia |]. intros ->.
  assert (dflt / cc <= dflt) by (apply Z.div_le_upper_bound; nia). lia.
Qed.

(** ** The key generator: ranges of any two clients *)

(** X15: Each client has a window of 10,000,000 counters of its own: for
    clients [i < j] (up to client 214, the last whose start fits the 32-bit
    counter) built from one shared random number, in sequential mode and with
    [strinc] as above, no range built from a key of client [i] overlaps a
    range built from a key of client [j], as long as the counter of client [i]
    has stayed below [10000000 * (i + 1)]. *)
Theorem any_two_clients_ranges_disjoint :
  forall (strinc : Key -> Key) seed cc i j opsi opsj ni nj wa wb tra trb wa' wb'
         wi wj ksi ksj wi' wj',
    strinc_below_next strinc ->
    0 <= i < j -> j <= 214 ->
    exec ni wa (BlobGranuleRangesWorkload i cc seed opsi) tra (Done wa' wi) ->
    exec nj wb (BlobGranuleRangesWorkload j cc seed opsj) trb (Done wb' wj) ->
    sequential wi = true ->
    keys_run wi ksi wi' ->
    keys_run wj ksj wj' ->
    nextKey wi' < 10000000 * (i + 1) ->
    forall ki kj pi pj,
      In ki ksi -> In kj ksj ->
      In pi ["R_"; "U_"] -> In pj ["R_"; "U_"] ->
      ~ ranges_overlap (key_range strinc pi ki) (key_range strinc pj kj).
Proof.
  intros strinc seed cc i j opsi opsj ni nj wa wb tra trb wa' wb' wi wj ksi ksj wi' wj'
         Hstrinc Hij Hj Hci Hcj Hseq Hruni Hrunj Hbelow ki kj pi pj Hki Hkj Hpi Hpj.
  apply exec_BlobGranuleRangesWorkload in Hci. destruct Hci as (Hni & Hsi & Hgi & _).
  apply exec_BlobGranuleRangesWorkload in Hcj. destruct Hcj as (Hnj & Hsj & Hgj & _).
  pose proof (sequentialGap_of_bounds seed) as Hgap.
  apply keys_run_sequential in Hruni;
    [| exact Hseq | lia | unfold in_int32, INT32_MIN, INT32_MAX; lia].
  apply keys_run_sequential in Hrunj;
    [| congruence | lia | unfold in_int32, INT32_MIN, INT32_MAX; lia].
  destruct Hruni as (_ & _ & Halli & _).
  destruct Hrunj as (Hinj & _ & Hallj & _).
  rewrite Forall_forall in Halli, Hallj.
  destruct (Halli _ Hki) as (zi & Hzi & ->).
  destruct (Hallj _ Hkj) as (zj & Hzj & ->).
  assert (Hlt : key_lt (format_08x zi) (format_08x zj))
    by (apply format_08x_lt; unfold in_int32 in *; lia).
  assert (Hlen : forall p q : string,
             String.length p = String.length q ->
             String.length (p ++ format_08x zi)%string
             = String.length (q ++ format_08x zj)%string).
  { intros p q E. rewrite !string_length_append. unfold format_08x.
    rewrite !hex_fixed_length. lia. }
  unfold key_range. cbv zeta.
  simpl in Hpi, Hpj.
  destruct Hpi as [<- | [<- | []]]; destruct Hpj as [<- | [<- | []]].
  - exact (proj1 (@ranges_apart strinc _ _ Hstrinc (Hlen _ _ eq_refl)
                    (key_lt_same_prefix "R_" Hlt))).
  - exact (proj1 (@ranges_apart strinc ("R_" ++ format_08x zi)%string
                    ("U_" ++ format_08x zj)%string Hstrinc
                    (Hlen "R_" "U_" eq_refl) eq_refl)).
  - exact (proj2 (@ranges_apart strinc ("R_" ++ format_08x zj)%string
                    ("U_" ++ format_08x zi)%string Hstrinc
                    (eq_sym (Hlen "U_" "R_" eq_refl)) eq_refl)).
  - exact (proj1 (@ranges_apart strinc _ _ Hstrinc (Hlen _ _ eq_refl)
                    (key_lt_same_prefix "U_" Hlt))).
Qed.

(** ** [check] and the unit runner *)

(** X16: Once [check] has set [stopUnitClient], a unit runner at the head of
    its loop returns at once: it draws no key, picks no scenario and calls
    nothing. *)
Theorem check_stops_unit_tests :
  forall (strinc : Key -> Key) self n tr o,
    exec n (check self) (blobGranuleRangesUnitTests strinc) tr o ->
    tr = [] /\ o = Done (check self) tt.
Proof.
  intros strinc self n tr o Hex.
  assert (H : wpx (blobGranuleRangesUnitTests strinc)
                  (fun w' h' _ => w' = check self /\ h' = [])
                  (fun _ _ _ => False) (fun _ _ _ => False) (check self) []).
  { unfold blobGranuleRangesUnitTests.
    apply wpx_iter with (Inv := fun _ w' h' => w' = check self /\ h' = []); [| auto].
    intros [] w1 h1 [-> ->]. wpx_step. cbn [check stopUnitClient set_stopUnitClient].
    wpx_step. auto. }
  specialize (H n tr o Hex). destruct o as [w' [] | w' e | w' c]; simpl in H.
  - destruct H as [-> ->]. auto.
  - destruct H.
  - destruct H.
Qed.

(** ** Ranges registered once *)

Section Once.
Variable strinc : Key -> Key.
Variable seq0 : bool.
Variable gap0 : Z.
Hypothesis gap_pos : seq0 = true -> 1 <= gap0.
Hypothesis beside : forall w w', others w w' -> unit_side w w'.

Local Abbreviation K := (once strinc seq0 gap0).

Lemma prov_beside r w w' h :
  sequential w = seq0 -> sequentialGap w = gap0 ->
  others w w' -> prov strinc seq0 r w h -> prov strinc seq0 r w' h.
Proof.
  intros Hs Hg Hw'. apply beside, unit_side_spares in Hw'.
  destruct Hw' as (_ & _ & _ & _ & _ & Hn & _).
  unfold prov. destruct seq0 eqn:Es; [| auto].
  intros (z & Hz & Hzin & ->). exists z. split; [| auto].
  pose proof (gap_pos eq_refl). assert (nextKey w <= nextKey w') by (apply Hn; lia). lia.
Qed.

(** The invariant holds on while the driver waits. *)
Lemma once_beside w w' h : K w h -> others w w' -> K w' h.
Proof.
  intros (Hs & Hg & HF) Hw'. pose proof Hw' as Hsp.
  apply beside, unit_side_spares in Hsp. destruct Hsp as (_ & _ & Hs' & Hg' & _).
  split; [congruence |]. split; [congruence |].
  intros Hnd. destruct (HF Hnd) as [Hn Hp]. split; [exact Hn |].
  intros r Hr. eapply prov_beside; eauto.
Qed.

Lemma prov_more r w h l : prov strinc seq0 r w h -> prov strinc seq0 r w (h ++ l).
Proof.
  unfold prov. destruct seq0; [auto |].
  intros (u & Hu & ->). exists u. split; [| reflexivity].
  rewrite uids_app. apply in_or_app. left. exact Hu.
Qed.

Lemma once_snoc w h ev : K w h -> blobbify_ok ev = None -> K w (h ++ [ev]).
Proof.
  intros (Hs & Hg & HF) Hb. split; [exact Hs |]. split; [exact Hg |].
  intros Hnd. rewrite uids_app in Hnd. apply NoDup_app_remove_r in Hnd.
  destruct (HF Hnd) as [Hn Hp].
  rewrite ranges_of_app. simpl. rewrite Hb, app_nil_r.
  split; [exact Hn |]. intros r Hr. apply prov_more. auto.
Qed.

(** The rest of [registerNewRange], for a key that no blobbified range has. *)
Lemma once_register_rest k w h :
  K w h ->
  (NoDup (uids h) -> ~ In (key_range strinc "R_" k) (ranges_of blobbify_ok h)) ->
  prov strinc seq0 (key_range strinc "R_" k) w h ->
  wpx (success <- setRange (key_range strinc "R_" k) true ;;
       ASSERT success ;; push_active (key_range strinc "R_" k))
      (fun w' h' _ => K w' h') (fun w' h' _ => K w' h') (fun _ _ _ => True) w h.
Proof.
  intros HK Hnew Hprov. apply wpx_setRange_bind; [exact HK |]. intros b wo Hwo.
  assert (Hprov' : prov strinc seq0 (key_range strinc "R_" k) wo h)
    by (destruct HK as (Hs & Hg & _); eapply prov_beside; eauto).
  apply (fun H => once_beside H Hwo) in HK. clear Hprov Hwo w.
  rename Hprov' into Hprov. rename wo into w.
  wpx_step; [| exact I]. subst b. unfold push_active. do 3 wpx_step.
  destruct HK as (Hs & Hg & HF). split; [exact Hs |]. split; [exact Hg |].
  intros Hnd. rewrite uids_app in Hnd. simpl in Hnd. rewrite app_nil_r in Hnd.
  destruct (HF Hnd) as [Hn Hp]. rewrite ranges_of_app. simpl. split.
  - apply NoDup_snoc; [exact Hn | apply Hnew; exact Hnd].
  - intros r Hr. apply in_app_or in Hr. destruct Hr as [Hr | [<- | []]].
    + apply (@prov_more r w h). auto.
    + apply (@prov_more _ w h). exact Hprov.
Qed.

Lemma once_registerNewRange w h :
  K w h ->
  wpx (registerNewRange strinc)
      (fun w' h' _ => K w' h') (fun w' h' _ => K w' h') (fun _ _ _ => True) w h.
Proof.
  intros HK. unfold registerNewRange. apply wpx_bind. apply wpx_newKey.
  - intros Hseq Hin. cbv zeta. destruct HK as (Hs & Hg & HF).
    assert (Es : seq0 = true) by congruence. pose proof (gap_pos Es) as Hgap.
    assert (HF' : NoDup (uids h) ->
                  NoDup (ranges_of blobbify_ok h) /\
                  forall r, In r (ranges_of blobbify_ok h) ->
                            prov strinc seq0 r w h /\
                            r <> key_range strinc "R_"
                                   (format_08x (nextKey w + sequentialGap w))).
    { intros Hnd. destruct (HF Hnd) as [Hn Hp]. split; [exact Hn |].
      intros r Hr. pose proof (Hp r Hr) as Hpr. split; [exact Hpr |].
      unfold prov in Hpr. rewrite Es in Hpr. destruct Hpr as (z & Hz & Hzin & ->).
      intros Eq. apply key_range_inj in Eq. apply format_08x_inj in Eq; auto. lia. }
    apply once_register_rest.
    + split; [exact Hs |]. split; [exact Hg |].
      intros Hnd. destruct (HF' Hnd) as [Hn Hp]. split; [exact Hn |].
      intros r Hr. destruct (Hp r Hr) as [Hpr _].
      unfold prov in *. rewrite Es in *. destruct Hpr as (z & Hz & Hzin & ->).
      exists z. simpl. split; [lia | auto].
    + intros Hnd Hin'. destruct (HF' Hnd) as [_ Hp].
      destruct (Hp _ Hin') as [_ Hne]. apply Hne. reflexivity.
    + unfold prov. rewrite Es. eexists. simpl. split; [apply Z.le_refl |].
      split; [exact Hin | reflexivity].
  - intros _ _. exact I.
  - intros Hseq u. cbv zeta. pose proof HK as (Hs & Hg & HF).
    assert (Es : seq0 = false) by congruence.
    apply once_register_rest.
    + apply once_snoc; [exact HK | reflexivity].
    + intros Hnd Hin'. rewrite uids_app in Hnd. simpl in Hnd.
      pose proof (NoDup_app_remove_r _ _ Hnd) as Hnd0.
      rewrite ranges_of_app in Hin'. simpl in Hin'. rewrite app_nil_r in Hin'.
      destruct (HF Hnd0) as [_ Hp]. pose proof (Hp _ Hin') as Hpr.
      unfold prov in Hpr. rewrite Es in Hpr. destruct Hpr as (u' & Hu' & Eq).
      apply key_range_inj in Eq. subst u'.
      apply NoDup_remove_2 in Hnd. rewrite app_nil_r in Hnd. exact (Hnd Hu').
    + unfold prov. rewrite Es. exists u. split; [| reflexivity].
      rewrite uids_app. apply in_or_app. right. left. reflexivity.
Qed.

Lemma once_unregisterRandomRange w h :
  K w h ->
  wpx unregisterRandomRange
      (fun w' h' _ => K w' h') (fun w' h' _ => K w' h') (fun _ _ _ => True) w h.
Proof.
  intros HK. unfold unregisterRandomRange. wpx_step. wpx_step. intros idx Hidx.
  destruct (0 <=? idx); [| wpx_step; exact I].
  destruct (nth_error (activeRanges w) (Z.to_nat idx)) as [range |] eqn:Hnth;
    [| wpx_step; exact I].
  wpx_step.
  assert (H1 : K (set_activeRanges w (swapAndPop (activeRanges w) (Z.to_nat idx)))
                 (h ++ [Ev (RandomInt 0 (Z.of_nat (List.length (activeRanges w)))) idx]))
    by (apply (@once_snoc w); [exact HK | reflexivity]).
  wpx_step. intros force _.
  apply (@once_snoc _ _ (Ev Coinflip force)) in H1; [| reflexivity].
  assert (Hrest : forall w1 h1,
             K w1 h1 ->
             wpx (success <- setRange range false ;; ASSERT success ;; push_inactive range)
                 (fun w' h' _ => K w' h') (fun w' h' _ => K w' h') (fun _ _ _ => True)
                 w1 h1).
  { intros w1 h1 H2. apply wpx_setRange_bind; [exact H2 |]. intros b wo Hwo.
    apply (fun H => once_beside H Hwo) in H2.
    wpx_step; [| exact I]. unfold push_inactive. do 3 wpx_step.
    apply (@once_snoc _ _ (Ev (UnblobbifyRange range) b)) in H2; [| reflexivity].
    exact H2. }
  apply wpx_bind. destruct force.
  - wpx_step. split; [exact H1 |]. intros purgeKey w1 Hw1.
    apply (fun H => once_beside H Hw1) in H1.
    apply (@once_snoc _ _ (Ev (PurgeBlobGranules range 1 None true) purgeKey)) in H1;
      [| reflexivity].
    wpx_step. split; [exact H1 |]. intros [] w2 Hw2.
    apply (fun H => once_beside H Hw2) in H1.
    wpx_step. apply Hrest.
    apply once_snoc; [exact H1 | reflexivity].
  - wpx_step. apply Hrest. exact H1.
Qed.

Lemma once_setup w h :
  K w h ->
  wpx (_setup strinc)
      (fun w' h' _ => K w' h') (fun w' h' _ => K w' h') (fun _ _ _ => True) w h.
Proof.
  intros HK. unfold _setup. wpx_step. split; [exact HK |]. intros [] w1 Hw1.
  apply (fun H => once_beside H Hw1) in HK.
  apply wpx_iter with (Inv := fun _ w' h' => K w' h');
    [| apply once_snoc; [exact HK | reflexivity]].
  clear w h HK Hw1. intros i w h HK. wpx_step. destruct (i <? targetRanges w).
  - apply wpx_bind.
    eapply wpx_mono; [| | | apply once_registerNewRange; exact HK]; simpl; auto.
    intros w' h' r H. wpx_step. exact H.
  - wpx_step. exact HK.
Qed.

Lemma once_client w h :
  K w h ->
  wpx (blobGranuleRangesClient strinc)
      (fun _ _ _ => True) (fun w' h' _ => K w' h') (fun _ _ _ => True) w h.
Proof.
  intros HK. unfold blobGranuleRangesClient.
  apply wpx_iter with (Inv := fun _ w' h' => K w' h'); [| exact HK].
  clear w h HK. intros [] w h HK. wpx_step. apply wpx_bind.
  assert (Hop : forall (register : bool) w2 h2,
             K w2 h2 ->
             wpx ((if register then registerNewRange strinc else unregisterRandomRange) ;;
                  ITree.trigger (Poisson (operationsPerSecond w)) ;; Ret (inl tt))
                 (fun w' h' (lr : unit + unit) =>
                    match lr with inl _ => K w' h' | inr _ => True end)
                 (fun w' h' _ => K w' h') (fun _ _ _ => True) w2 h2).
  { intros register w2 h2 H2. apply wpx_bind.
    eapply wpx_mono with (Q := fun w' h' _ => K w' h');
      [| intros ? ? ? H; exact H | intros ? ? ? H; exact H
       | destruct register;
         [apply once_registerNewRange | apply once_unregisterRandomRange]; exact H2].
    intros w' h' r H. wpx_step. split; [exact H |]. intros [] wo Hwo.
    wpx_step. apply once_snoc; [exact (once_beside H Hwo) | reflexivity]. }
  destruct (activeRanges w) eqn:Ha.
  - wpx_step. apply (Hop true). exact HK.
  - wpx_step. intros register _. wpx_step. apply (Hop register).
    apply once_snoc; [exact HK | reflexivity].
Qed.

Lemma once_driver w h :
  K w h ->
  wpx (driver strinc)
      (fun _ _ _ => True) (fun w' h' _ => K w' h') (fun _ _ _ => True) w h.
Proof.
  intros HK. unfold driver. apply wpx_bind.
  eapply wpx_mono; [| | | apply once_setup; exact HK]; simpl; auto.
  intros w' h' r H. apply once_client. exact H.
Qed.

End Once.

Lemma driver_holds_once (strinc : Key -> Key) n w0 tr w c :
  (forall a b, others a b -> unit_side a b) ->
  activeRanges w0 = [] -> inactiveRanges w0 = [] ->
  (sequential w0 = true -> 1 <= sequentialGap w0) ->
  exec n w0 (driver strinc) tr (Suspended w c) ->
  NoDup (uids tr) ->
  NoDup (ranges_of blobbify_ok tr) /\
  NoDup (activeRanges w ++ inactiveRanges w).
Proof.
  intros Hbeside Ha Hi Hgap Hex Hnd.
  assert (HB : books w0 [] []).
  { unfold books. rewrite Ha, Hi. simpl. split; [constructor | reflexivity]. }
  assert (HK : once strinc (sequential w0) (sequentialGap w0) w0 []).
  { split; [reflexivity |]. split; [reflexivity |].
    intros _. simpl. split; [constructor | intros r []]. }
  pose proof (books_driver Hbeside strinc HB n tr _ Hex) as (fl & _ & HP & _).
  pose proof (once_driver Hgap Hbeside HK n tr _ Hex) as (_ & _ & HF).
  simpl in HP, HF. destruct (HF Hnd) as [Hn _].
  split; [exact Hn |].
  pose proof (Permutation_NoDup HP Hn) as H.
  apply NoDup_app_remove_l in H. exact H.
Qed.

(** ** The actors of [start] *)

Lemma prefix_R k : String.prefix "R_" ("R_" ++ k) = true.
Proof. simpl. destruct k; reflexivity. Qed.

Lemma start_client_R (strinc : Key -> Key) testDuration self n w tr o :
  (forall a b, others a b -> unit_side a b) ->
  lists_registered strinc w ->
  exec n w (client (start strinc testDuration self)) tr o ->
  forall w' c r, o = Suspended w' c -> call_range c = Some r ->
                 String.prefix "R_" (range_begin r) = true.
Proof.
  intros Hbeside HJ. cbn [client start]. intros Hex w' c r -> Hr.
  destruct (ranges_client Hbeside [] HJ n tr _ Hex) as [_ Hc].
  destruct (Hc r Hr) as [k ->]. apply prefix_R.
Qed.

Lemma start_unitClient_U (strinc : Key -> Key) testDuration self n w tr o :
  exec n w (unitClient (start strinc testDuration self)) tr o ->
  (clientId self <> 0 -> tr = [] /\ o = Done w tt) /\
  forall w' c r, o = Suspended w' c -> call_range c = Some r ->
                 String.prefix "U_" (range_begin r) = true.
Proof.
  cbn [unitClient start]. intros Hex. split.
  - intros Hne. destruct (clientId self =? 0) eqn:Hc; zbool; [contradiction |].
    destruct n as [| n]; [destruct Hex |]. destruct Hex as [-> ->]. auto.
  - intros w' c r -> Hr. destruct (clientId self =? 0).
    + exact (wpx_unit_tests strinc w [] n tr _ Hex r Hr).
    + destruct n as [| n]; [destruct Hex |]. destruct Hex as [_ Hd]. discriminate Hd.
Qed.

(** ** The order of the boundaries of [verifyRangeGapUnit] *)

Lemma hex_len_le_4 v : 0 <= v < 65536 -> (hex_len v <= 4)%nat.
Proof.
  intros Hv. unfold hex_len. destruct (v =? 0) eqn:E; [lia |]. zbool.
  assert (Z.log2 v < 16) by (apply Z.log2_lt_pow2; lia).
  assert (0 <= Z.log2 v) by apply Z.log2_nonneg.
  assert (Z.log2 v / 4 < 4) by (apply Z.div_lt_upper_bound; lia).
  assert (0 <= Z.log2 v / 4) by (apply Z.div_pos; lia).
  lia.
Qed.

Lemma format_04x_small i : 0 <= i < 65536 -> format_04x i = hex_fixed 4 i.
Proof.
  intros Hi. unfold format_04x. cbv zeta.
  rewrite Z.mod_small by lia.
  replace (Nat.max 4 (hex_len i)) with 4%nat by (pose proof (hex_len_le_4 Hi); lia).
  reflexivity.
Qed.

Lemma format_04x_lt i j :
  0 <= i -> i < j -> j < 65536 -> key_lt (format_04x i) (format_04x j).
Proof.
  intros Hi Hij Hj. unfold key_lt.
  rewrite !format_04x_small, hex_fixed_compare by lia.
  change (16 ^ Z.of_nat 4) with 65536. rewrite !Z.mod_small by lia.
  apply Z.compare_lt_iff. exact Hij.
Qed.

Lemma key_lt_append b c s : key_lt b (b ++ String c s)%string.
Proof.
  unfold key_lt. induction b as [| a b IH]; simpl; [reflexivity |].
  unfold Ascii.compare. rewrite N.compare_refl. exact IH.
Qed.

Lemma string_append_nil_r (s : string) : (s ++ "")%string = s.
Proof. induction s; simpl; congruence. Qed.

Lemma gap_inner_sorted range hi s m :
  (forall x, key_lt (withSuffix (range_begin range) x) hi) ->
  Z.of_nat (s + m) <= 65536 ->
  Sorted key_lt
    (map (fun i => withSuffix (range_begin range) (format_04x (Z.of_nat i))) (seq s m)
     ++ [hi]).
Proof.
  intros Hhi. revert s. induction m as [| m IH]; intros s Hs; simpl.
  - constructor; constructor.
  - constructor; [apply IH; lia |].
    destruct m as [| m]; simpl; constructor.
    + apply Hhi.
    + apply key_lt_same_prefix. apply format_04x_lt; lia.
Qed.

Lemma sorted_neighbours {A} (lt : A -> A -> Prop) (l : list A) d i :
  Sorted lt l -> (S i < List.length l)%nat -> lt (nth i l d) (nth (S i) l d).
Proof.
  intros Hs. revert i. induction Hs as [| a l Hs IH Hd]; intros i Hi; [simpl in Hi; lia |].
  destruct i as [| i].
  - destruct Hd as [| b l' Hab]; [simpl in Hi; lia | exact Hab].
  - apply IH. simpl in Hi. lia.
Qed.

(** X19: The boundaries of [verifyRangeGapUnit] come in strictly increasing
    order, so that every sub-range begins below its end and ends where the
    next begins. This holds for a unit range whose end is above every key that
    begins with its begin, and for up to 65537 sub-ranges, for which
    [format("%04x", i)] has exactly four digits. *)
Theorem gap_boundaries_increase :
  forall (range : KeyRange) (rangeCount : Z),
    1 <= rangeCount <= 65537 ->
    (forall s, key_lt (withSuffix (range_begin range) s) (range_end range)) ->
    Sorted key_lt (gap_boundaries range rangeCount) /\
    forall i, (i < Z.to_nat rangeCount)%nat ->
              key_lt (range_begin (gap_subrange range rangeCount i))
                     (range_end (gap_subrange range rangeCount i)) /\
              range_end (gap_subrange range rangeCount i)
              = range_begin (gap_subrange range rangeCount (S i)).
Proof.
  intros range rc Hrc Hend.
  assert (Hs : Sorted key_lt (gap_boundaries range rc)).
  { unfold gap_boundaries. simpl.
    constructor; [apply gap_inner_sorted; [exact Hend | lia] |].
    destruct (Z.to_nat (rc - 1)) as [| m]; simpl; constructor.
    - specialize (Hend EmptyString). unfold withSuffix in Hend.
      rewrite string_append_nil_r in Hend. exact Hend.
    - unfold withSuffix. rewrite format_04x_small by lia. apply key_lt_append. }
  split; [exact Hs |].
  intros i Hi. split; [| reflexivity].
  unfold gap_subrange, gap_span. cbv zeta. cbn [range_begin range_end].
  apply sorted_neighbours; [exact Hs |].
  rewrite gap_boundaries_length. lia.
Qed.

End Model.

(** * Runs of the workload *)

(** The runs below are runs of [exec randomExp_spec unit_side]: the random
    source is as the spec gives it, and between a call and its answer the
    workload object may have been changed as the unit runner and [check]
    change it.  [exec randomExp_spec alone] is the runs of an actor that has
    the workload object to itself. *)

Ltac answer_ok :=
  first [ exact Logic.I | lia
        | unfold randomExp_spec, randomExp_3_6; lia
        | simpl; lia ].

Ltac random01_tac :=
  split; [vm_compute; reflexivity | split; [vm_compute; reflexivity |]];
  split; [unfold Qle | unfold Qlt]; simpl; lia.

(** A run of the constructor that leaves [targetRanges] at [t]. *)
Ltac ctor_run t :=
  refine (@exec_BlobGranuleRangesWorkload_intro _ _ _ _ _ _ _ _ _ t _ _ _ _ _);
  [ lia | answer_ok | random01_tac | vm_compute; reflexivity ].

Ltac exec_drawn :=
  eexists; eexists; split; [| split; [reflexivity |]]; [answer_ok |].

(** The answer of a call when no other actor has run in the meantime. *)
Ltac exec_answered :=
  eexists; eexists; eexists; split; [| split; [reflexivity |]];
  [first [exact eq_refl | exact (unit_side_none _)] |].

(** The answer of a call during which the unit runner has drawn a key. *)
Ltac exec_answered_newKey :=
  eexists; eexists; eexists; split; [| split; [reflexivity |]];
  [ eapply unit_side_newKey;
    [ reflexivity
    | unfold in_int32, INT32_MIN, INT32_MAX; simpl; lia
    | exact (unit_side_none _) ] |].

Ltac exec_step_with waited :=
  lazymatch goal with
  | |- exec ?rexp ?oth (S ?n) ?w ?t ?tr ?o =>
      let ot := eval hnf in (observe t) in
      lazymatch ot with
      | RetF ?r => apply (@exec_ret_intro rexp oth _ n w t r); reflexivity
      | TauF ?t' => apply (@exec_tau_intro rexp oth _ n w t t' tr o); [reflexivity |]
      | VisF ?e ?k =>
          apply (@exec_vis_intro rexp oth _ n w t _ e k tr o); [reflexivity |];
          cbv beta iota delta [vis_step draw_step wait_step stop_step];
          lazymatch goal with
          | |- _ \/ _ => first [left; split; reflexivity | right; waited]
          | |- exists _, _ => exec_drawn
          | |- _ /\ _ => split; reflexivity
          | |- _ => idtac
          end
      end
  end.

Ltac exec_step := exec_step_with exec_answered.
Ltac exec_quiet := exec_step_with fail.

(** ** The driver beside the unit runner *)


(** C3, what the code does, with the unit runner and [check] running beside
    the driver: at every suspension point of the driver (started with both
    lists empty) every range in [activeRanges] has had [blobbifyRange]
    answer true, and [inactiveRanges] lists the ranges for which
    [unblobbifyRange] has answered true, in that order.  No purge and no
    [unblobbifyRange] has been issued on a range of [activeRanges] since it
    was blobbified as long as the keys of the driver have not repeated: a
    gap of at least 1 in sequential mode, no identifier drawn twice in
    random mode.  With the gap of 0 that the constructor leaves for some
    shared random numbers the keys repeat. *)
Theorem driver_oracle_order :
  forall (randomExp_ok : Z -> Z -> Z -> Prop) (strinc : Key -> Key) n w0 tr w c,
    activeRanges w0 = [] -> inactiveRanges w0 = [] ->
    exec randomExp_ok unit_side n w0 (driver strinc) tr (Suspended w c) ->
    (forall r, In r (activeRanges w) -> In r (ranges_of blobbify_ok tr)) /\
    inactiveRanges w = ranges_of unblobbify_ok tr /\
    ((sequential w0 = true -> 1 <= sequentialGap w0) ->
     NoDup (uids tr) ->
     forall r, In r (activeRanges w) -> registered_untouched r tr [c]).
Proof.
  intros rexp strinc n w0 tr w c Ha Hi Hex.
  assert (HB : books w0 [] []).
  { unfold books. rewrite Ha, Hi. simpl. split; [constructor | reflexivity]. }
  pose proof (@books_driver rexp unit_side (fun _ _ H => H) strinc _ _ HB n tr _ Hex)
    as (fl & _ & HP & HI).
  simpl in HP. split; [| split; [exact HI |]].
  - intros r Hr. eapply Permutation_in; [symmetry; exact HP |].
    apply in_or_app. right. apply in_or_app. left. exact Hr.
  - intros Hgap Hnd.
    exact (@driver_active_untouched rexp unit_side strinc n w0 tr w c
             (fun _ _ H => H) Ha Hgap Hex Hnd).
Qed.

(** X3: The books of the driver balance, with the unit runner and [check]
    running beside it: wherever the driver (started with both lists empty)
    waits on a call, the ranges for which [blobbifyRange] has answered true
    are, up to their order, those in [activeRanges], those in
    [inactiveRanges] and the one range that [unregisterRandomRange] is
    working on, if any; [inactiveRanges] lists the ranges for which
    [unblobbifyRange] has answered true, in that order. *)
Theorem driver_books_balance :
  forall (randomExp_ok : Z -> Z -> Z -> Prop) (strinc : Key -> Key) n w0 tr w c,
    activeRanges w0 = [] -> inactiveRanges w0 = [] ->
    exec randomExp_ok unit_side n w0 (driver strinc) tr (Suspended w c) ->
    exists fl,
      in_flight c fl /\
      Permutation (ranges_of blobbify_ok tr)
                  (fl ++ activeRanges w ++ inactiveRanges w) /\
      inactiveRanges w = ranges_of unblobbify_ok tr.
Proof.
  intros rexp strinc n w0 tr w c Ha Hi Hex.
  assert (HB : books w0 [] []).
  { unfold books. rewrite Ha, Hi. simpl. split; [constructor | reflexivity]. }
  exact (@books_driver rexp unit_side (fun _ _ H => H) strinc _ _ HB n tr _ Hex).
Qed.

(** X4: [_setup] registers exactly [targetRanges] ranges (none when
    [targetRanges] is not positive), with the unit runner and [check]
    running beside it: when it returns, [activeRanges] has grown by the
    ranges for which [blobbifyRange] has answered true, of which there are
    [targetRanges], and [inactiveRanges] has not changed. *)
Theorem setup_registers_targetRanges :
  forall (randomExp_ok : Z -> Z -> Z -> Prop) (strinc : Key -> Key) n w tr w',
    exec randomExp_ok unit_side n w (_setup strinc) tr (Done w' tt) ->
    activeRanges w' = activeRanges w ++ ranges_of blobbify_ok tr /\
    Z.of_nat (List.length (ranges_of blobbify_ok tr)) = Z.max 0 (targetRanges w) /\
    inactiveRanges w' = inactiveRanges w.
Proof.
  intros rexp strinc n w tr w' Hex.
  exact (@setup_count rexp unit_side (fun _ _ H => H) strinc n w tr w' Hex).
Qed.

(** X5: The unit tests leave the oracle of the driver alone: however
    [blobGranuleRangesUnitTests], run on its own, is found, the workload
    object is the one it started with but for [nextKey], which (the gap not
    being negative) has not decreased; [activeRanges], [inactiveRanges],
    [stopUnitClient] and the settings are unchanged. *)
Theorem unit_tests_only_advance_nextKey :
  forall (randomExp_ok : Z -> Z -> Z -> Prop) (strinc : Key -> Key) n w tr o,
    0 <= sequentialGap w ->
    exec randomExp_ok alone n w (blobGranuleRangesUnitTests strinc) tr o ->
    nextKey_advanced w (outcome_state o).
Proof.
  intros rexp strinc n w tr o Hgap Hex.
  assert (H : wpx rexp alone (blobGranuleRangesUnitTests strinc)
                  (fun w' _ _ => nextKey_advanced w w')
                  (fun w' _ _ => nextKey_advanced w w')
                  (fun w' _ _ => nextKey_advanced w w') w []).
  { apply unit_tests_frame.
    - intros w1 w2 -> H. exact H.
    - intros w1 H _ _. apply nextKey_advanced_newKey; [exact Hgap | exact H].
    - apply nextKey_advanced_refl. }
  specialize (H n tr o Hex). destruct o; exact H.
Qed.

(** X9: The unit runner returns only when it finds [stopUnitClient] set, which
    run on its own it can only do before its first pass; it ends only on an
    assertion, on an error that [onError] has rethrown, or on the overflow of
    the key counter: [verifyRangeGapUnit] never reads its boundary list out of
    range. *)
Theorem unit_tests_end_on_assertion_error_or_overflow :
  forall (randomExp_ok : Z -> Z -> Z -> Prop) (strinc : Key -> Key) n w tr o,
    exec randomExp_ok alone n w (blobGranuleRangesUnitTests strinc) tr o ->
    unit_tests_outcome w tr o.
Proof.
  intros rexp strinc n w tr o Hex.
  pose proof (@wpx_unit_tests_alone rexp alone strinc w (fun _ _ H => H) n tr o Hex) as H.
  destruct o; simpl in *; auto.
Qed.

(** X10: The driver only calls the database on ranges that [registerNewRange]
    has built, [R_] followed by a key and [strinc] of it as the end, with the
    unit runner and [check] running beside it: when both lists hold only such
    ranges at the start (they are empty then), they do so however the driver
    is found, and every call of the driver on a range, pending or answered,
    is on such a range. *)
Theorem driver_calls_on_registered_ranges :
  forall (randomExp_ok : Z -> Z -> Z -> Prop) (strinc : Key -> Key) n w0 tr o,
    lists_registered strinc w0 ->
    exec randomExp_ok unit_side n w0 (driver strinc) tr o ->
    lists_registered strinc (outcome_state o) /\
    (forall w' c, o = Suspended w' c -> on_registered strinc c) /\
    (forall ev, In ev tr -> on_registered strinc (call_of ev)).
Proof.
  intros rexp strinc n w0 tr o HJ Hex.
  exact (@driver_on_registered rexp unit_side strinc n w0 tr o (fun _ _ H => H) HJ Hex).
Qed.

(** X17: The oracle never holds a range twice, with the unit runner drawing
    keys from the same counter beside the driver: as long as the keys of the
    driver have not repeated (a gap of at least 1 in sequential mode, no
    identifier drawn twice in random mode), no range has been blobbified
    twice, and wherever the driver waits on a call, [activeRanges] and
    [inactiveRanges] together hold no range twice; no range is in both lists. *)
Theorem driver_never_holds_a_range_twice :
  forall (randomExp_ok : Z -> Z -> Z -> Prop) (strinc : Key -> Key) n w0 tr w c,
    activeRanges w0 = [] -> inactiveRanges w0 = [] ->
    (sequential w0 = true -> 1 <= sequentialGap w0) ->
    exec randomExp_ok unit_side n w0 (driver strinc) tr (Suspended w c) ->
    NoDup (uids tr) ->
    NoDup (ranges_of blobbify_ok tr) /\
    NoDup (activeRanges w ++ inactiveRanges w).
Proof.
  intros rexp strinc n w0 tr w c Ha Hi Hgap Hex Hnd.
  exact (@driver_holds_once rexp unit_side strinc n w0 tr w c
           (fun _ _ H => H) Ha Hi Hgap Hex Hnd).
Qed.

(** X18: The two loops that [start] launches keep to their own ranges: every
    call the client loop waits on, with the unit runner and [check] running
    beside it, names a range that begins with [R_] (the lists holding such
    ranges at the start); every call of [unitClient], whatever runs beside
    it, one that begins with [U_]; on a client other than client 0
    [unitClient] is set from the start and makes no call at all. *)
Theorem start_actors_keep_to_their_ranges :
  forall (randomExp_ok : Z -> Z -> Z -> Prop) (others : Workload -> Workload -> Prop)
         (strinc : Key -> Key) testDuration self n w tr o,
    lists_registered strinc w ->
    (exec randomExp_ok unit_side n w (client (start strinc testDuration self)) tr o ->
     forall w' c r, o = Suspended w' c -> call_range c = Some r ->
                    String.prefix "R_" (range_begin r) = true) /\
    (exec randomExp_ok others n w (unitClient (start strinc testDuration self)) tr o ->
     (clientId self <> 0 -> tr = [] /\ o = Done w tt) /\
     forall w' c r, o = Suspended w' c -> call_range c = Some r ->
                    String.prefix "U_" (range_begin r) = true).
Proof.
  intros rexp others strinc testDuration self n w tr o HJ. split.
  - intros Hex.
    exact (@start_client_R rexp unit_side strinc testDuration self n w tr o
             (fun _ _ H => H) HJ Hex).
  - intros Hex.
    exact (@start_unitClient_U rexp others strinc testDuration self n w tr o Hex).
Qed.

Lemma rangesMisaligned_purges_not_forced_witness :
  exec randomExp_spec unit_side 30 w_init (rangesMisalignedUnit range_U) misaligned_trace
       (Suspended w_init (Call (PurgeBlobGranules range_UA 1 None false))) /\
  forced_purge (Call (PurgeBlobGranules range_UA 1 None false)) = false.
Proof.
  assert (Hex : exec randomExp_spec unit_side 30 w_init (rangesMisalignedUnit range_U) misaligned_trace
                     (Suspended w_init (Call (PurgeBlobGranules range_UA 1 None false))))
    by (repeat exec_step).
  split; [exact Hex |].
  exact (proj2 (@rangesMisaligned_purges_not_forced randomExp_spec unit_side range_U 30 w_init misaligned_trace
                  _ Hex) _ _ eq_refl).
Defined.

Lemma check_starts_active_only_witness :
  _check_started w_checked = [(range_U, true)] /\
  In (checkRange range_U true) (_check_checks w_checked) /\
  exec randomExp_spec unit_side 30 w_checked (checkRange range_U true)
       [Ev (VerifyBlobRange range_U None) invalidVersion; Ev (Delay 1) tt;
        Ev (VerifyBlobRange range_U None) 7]
       (Suspended w_checked (Call (ListBlobbifiedRanges range_U OP_LIMIT))) /\
  In range_U (activeRanges w_checked).
Proof.
  assert (Hin : In (checkRange range_U true) (_check_checks w_checked))
    by (left; reflexivity).
  assert (Hex : exec randomExp_spec unit_side 30 w_checked (checkRange range_U true)
       [Ev (VerifyBlobRange range_U None) invalidVersion; Ev (Delay 1) tt;
        Ev (VerifyBlobRange range_U None) 7]
       (Suspended w_checked (Call (ListBlobbifiedRanges range_U OP_LIMIT))))
    by (repeat exec_step).
  split; [reflexivity |]. split; [exact Hin |]. split; [exact Hex |].
  exact (proj2 (proj2 (check_starts_active_only randomExp_spec unit_side w_checked)) _ _ _ _ _ Hin Hex
           (Call (ListBlobbifiedRanges range_U OP_LIMIT))
           (or_intror (ex_intro _ w_checked eq_refl)) range_U eq_refl).
Defined.

Lemma unit_iteration_dispatch_witness :
  exec randomExp_spec unit_side 40 w_client0 (unit_iteration strinc_spec) unit_pass_trace
       (Suspended (set_nextKey w_client0 2) (Call (BlobbifyRange range_UA))) /\
  unit_dispatched randomExp_spec unit_side strinc_spec 40 w_client0 unit_pass_trace
       (Suspended (set_nextKey w_client0 2) (Call (BlobbifyRange range_UA))).
Proof.
  assert (Hex : exec randomExp_spec unit_side 40 w_client0 (unit_iteration strinc_spec) unit_pass_trace
       (Suspended (set_nextKey w_client0 2) (Call (BlobbifyRange range_UA))))
    by (repeat exec_step).
  split; [exact Hex |].
  exact (@unit_iteration_dispatch randomExp_spec unit_side _ _ _ _ _ Hex).
Defined.

Lemma blobbifyIdempotent_ends_with_blobbify_witness :
  exec randomExp_spec unit_side 200 w_init (blobbifyIdempotentUnit range_U)
       (idempotent_head ++ idempotent_tail range_U "purge1") (Done w_init tt) /\
  exists tr0 purgeKey,
    idempotent_head ++ idempotent_tail range_U "purge1"
    = tr0 ++ idempotent_tail range_U purgeKey.
Proof.
  assert (Hex : exec randomExp_spec unit_side 200 w_init (blobbifyIdempotentUnit range_U)
                     (idempotent_head ++ idempotent_tail range_U "purge1")
                     (Done w_init tt))
    by (repeat exec_step).
  split; [exact Hex |].
  exact (@blobbifyIdempotent_ends_with_blobbify randomExp_spec unit_side _ _ _ _ _ Hex).
Defined.

Lemma purge_calls_version_1_no_tenant_witness :
  workload_actor strinc_spec (rangesMisalignedUnit range_U) /\
  exec randomExp_spec unit_side 30 w_init (rangesMisalignedUnit range_U) misaligned_trace
       (Suspended w_init (Call (PurgeBlobGranules range_UA 1 None false))) /\
  purge_args_ok (Call (PurgeBlobGranules range_UA 1 None false)) = true.
Proof.
  assert (Ha : workload_actor strinc_spec (rangesMisalignedUnit range_U))
    by constructor.
  assert (Hex : exec randomExp_spec unit_side 30 w_init (rangesMisalignedUnit range_U) misaligned_trace
                     (Suspended w_init (Call (PurgeBlobGranules range_UA 1 None false))))
    by (repeat exec_step).
  split; [exact Ha |]. split; [exact Hex |].
  exact (proj2 (@purge_calls_version_1_no_tenant randomExp_spec unit_side strinc_spec _ _ _ _ _ Ha Hex)
           _ _ eq_refl).
Defined.

Lemma pick_op_at_most_1001_draws_witness :
  exec randomExp_spec unit_side 20 w_init pick_op (map op_draw [4; 2; 3]) (Done w_init 3) /\
  exists ops,
    map op_draw [4; 2; 3] = map op_draw ops /\
    (List.length ops <= 1001)%nat /\
    Forall (fun op => 0 <= op < op_value OP_COUNT) ops /\
    pick_op_outcome w_init ops (Done w_init 3).
Proof.
  assert (Hex : exec randomExp_spec unit_side 20 w_init pick_op (map op_draw [4; 2; 3]) (Done w_init 3))
    by (repeat exec_step).
  split; [exact Hex |].
  exact (@pick_op_at_most_1001_draws randomExp_spec unit_side _ _ _ _ Hex).
Defined.

Lemma driver_ends_on_false_answer_or_overflow_witness :
  exec randomExp_spec unit_side 100 w_client0 (driver strinc_spec)
       [ Ev (ChangeConfig "blob_granules_enabled=1" true) tt;
         Ev (BlobbifyRange (key_range strinc_spec "R_" "00000002")) false ]
       (Stopped (set_nextKey w_client0 2) AssertFailed) /\
  driver_outcome
       [ Ev (ChangeConfig "blob_granules_enabled=1" true) tt;
         Ev (BlobbifyRange (key_range strinc_spec "R_" "00000002")) false ]
       (Stopped (set_nextKey w_client0 2) AssertFailed : outcome unit).
Proof.
  assert (Hex : exec randomExp_spec unit_side 100 w_client0 (driver strinc_spec)
       [ Ev (ChangeConfig "blob_granules_enabled=1" true) tt;
         Ev (BlobbifyRange (key_range strinc_spec "R_" "00000002")) false ]
       (Stopped (set_nextKey w_client0 2) AssertFailed))
    by (repeat exec_step).
  split; [exact Hex |].
  exact (@driver_ends_on_false_answer_or_overflow randomExp_spec unit_side _ _ _ _ _ Hex).
Defined.

Lemma driver_books_balance_witness :
  activeRanges w_client0 = [] /\ inactiveRanges w_client0 = [] /\
  exec randomExp_spec unit_side 100 w_client0 (driver strinc_spec) driver_trace
       (Suspended w_driver
          (Call (PurgeBlobGranules (key_range strinc_spec "R_" "00000002") 1 None true))) /\
  exists fl,
    in_flight (Call (PurgeBlobGranules (key_range strinc_spec "R_" "00000002") 1 None true))
              fl /\
    Permutation (ranges_of blobbify_ok driver_trace)
                (fl ++ activeRanges w_driver ++ inactiveRanges w_driver) /\
    inactiveRanges w_driver = ranges_of unblobbify_ok driver_trace.
Proof.
  assert (Hex : exec randomExp_spec unit_side 100 w_client0 (driver strinc_spec) driver_trace
       (Suspended w_driver
          (Call (PurgeBlobGranules (key_range strinc_spec "R_" "00000002") 1 None true))))
    by (repeat exec_step).
  split; [reflexivity |]. split; [reflexivity |]. split; [exact Hex |].
  exact (@driver_books_balance randomExp_spec strinc_spec 100 w_client0 driver_trace w_driver _
           eq_refl eq_refl Hex).
Defined.

Lemma setup_registers_targetRanges_witness :
  exec randomExp_spec unit_side 30 w_client0 (_setup strinc_spec) setup_trace (Done w_setup_done tt) /\
  activeRanges w_setup_done = activeRanges w_client0 ++ ranges_of blobbify_ok setup_trace /\
  Z.of_nat (List.length (ranges_of blobbify_ok setup_trace))
  = Z.max 0 (targetRanges w_client0) /\
  inactiveRanges w_setup_done = inactiveRanges w_client0.
Proof.
  assert (Hex : exec randomExp_spec unit_side 30 w_client0 (_setup strinc_spec) setup_trace (Done w_setup_done tt))
    by (repeat exec_step).
  split; [exact Hex |].
  exact (@setup_registers_targetRanges randomExp_spec strinc_spec _ _ _ _ Hex).
Defined.

Lemma unit_tests_only_advance_nextKey_witness :
  0 <= sequentialGap w_client0 /\
  exec randomExp_spec alone 40 w_client0 (blobGranuleRangesUnitTests strinc_spec) unit_pass_trace
       (Suspended (set_nextKey w_client0 2) (Call (BlobbifyRange range_UA))) /\
  nextKey_advanced w_client0 (set_nextKey w_client0 2).
Proof.
  assert (Hgap : 0 <= sequentialGap w_client0) by (simpl; lia).
  assert (Hex : exec randomExp_spec alone 40 w_client0 (blobGranuleRangesUnitTests strinc_spec) unit_pass_trace
       (Suspended (set_nextKey w_client0 2) (Call (BlobbifyRange range_UA))))
    by (repeat exec_step).
  split; [exact Hgap |]. split; [exact Hex |].
  exact (@unit_tests_only_advance_nextKey randomExp_spec strinc_spec _ _ _ _ Hgap Hex).
Defined.

Lemma checkRange_returns_after_agreeing_answers_witness :
  exec randomExp_spec unit_side 40 w_init (checkRange range_U true) check_trace (Done w_init tt) /\
  check_passed range_U true check_trace.
Proof.
  assert (Hex : exec randomExp_spec unit_side 40 w_init (checkRange range_U true) check_trace (Done w_init tt))
    by (repeat exec_step).
  split; [exact Hex |].
  exact (@checkRange_returns_after_agreeing_answers randomExp_spec unit_side _ _ _ _ _ _ Hex).
Defined.

Lemma wait_purge_on_key_of_last_purge_witness :
  workload_actor strinc_spec (tearDownRangeAfterUnit range_UA) /\
  exec randomExp_spec unit_side 10 w_init (tearDownRangeAfterUnit range_UA)
       [Ev (PurgeBlobGranules range_UA 1 None true) "purge1"]
       (Suspended w_init (Call (WaitPurgeGranulesComplete "purge1"))) /\
  waits_for_last_purge [Ev (PurgeBlobGranules range_UA 1 None true) "purge1"]
                       (Call (WaitPurgeGranulesComplete "purge1")).
Proof.
  assert (Ha : workload_actor strinc_spec (tearDownRangeAfterUnit range_UA))
    by constructor.
  assert (Hex : exec randomExp_spec unit_side 10 w_init (tearDownRangeAfterUnit range_UA)
       [Ev (PurgeBlobGranules range_UA 1 None true) "purge1"]
       (Suspended w_init (Call (WaitPurgeGranulesComplete "purge1"))))
    by (repeat exec_step).
  split; [exact Ha |]. split; [exact Hex |].
  exact (proj1 (@wait_purge_on_key_of_last_purge randomExp_spec unit_side strinc_spec _ _ _ _ _ Ha Hex)
           _ _ eq_refl).
Defined.

Lemma unit_tests_call_on_U_ranges_witness :
  exec randomExp_spec unit_side 40 w_client0 (blobGranuleRangesUnitTests strinc_spec) unit_pass_trace
       (Suspended (set_nextKey w_client0 2) (Call (BlobbifyRange range_UA))) /\
  String.prefix "U_" (range_begin range_UA) = true.
Proof.
  assert (Hex : exec randomExp_spec unit_side 40 w_client0 (blobGranuleRangesUnitTests strinc_spec) unit_pass_trace
       (Suspended (set_nextKey w_client0 2) (Call (BlobbifyRange range_UA))))
    by (repeat exec_step).
  split; [exact Hex |].
  exact (proj1 (@unit_tests_call_on_U_ranges randomExp_spec unit_side strinc_spec _ _ _ _ Hex)
           _ _ range_UA eq_refl eq_refl).
Defined.

Lemma unit_tests_end_on_assertion_error_or_overflow_witness :
  exec randomExp_spec alone 40 w_client0 (blobGranuleRangesUnitTests strinc_spec) unit_fail_trace
       (Stopped (set_nextKey w_client0 2) AssertFailed) /\
  unit_tests_outcome w_client0 unit_fail_trace
       (Stopped (set_nextKey w_client0 2) AssertFailed : outcome unit).
Proof.
  assert (Hex : exec randomExp_spec alone 40 w_client0 (blobGranuleRangesUnitTests strinc_spec) unit_fail_trace
       (Stopped (set_nextKey w_client0 2) AssertFailed))
    by (repeat exec_step).
  split; [exact Hex |].
  exact (@unit_tests_end_on_assertion_error_or_overflow randomExp_spec strinc_spec _ _ _ _ Hex).
Defined.

Lemma driver_calls_on_registered_ranges_witness :
  lists_registered strinc_spec w_client0 /\
  exec randomExp_spec unit_side 100 w_client0 (driver strinc_spec) driver_trace
       (Suspended w_driver
          (Call (PurgeBlobGranules (key_range strinc_spec "R_" "00000002") 1 None true))) /\
  on_registered strinc_spec
       (Call (PurgeBlobGranules (key_range strinc_spec "R_" "00000002") 1 None true)).
Proof.
  assert (HJ : lists_registered strinc_spec w_client0) by (split; constructor).
  assert (Hex : exec randomExp_spec unit_side 100 w_client0 (driver strinc_spec) driver_trace
       (Suspended w_driver
          (Call (PurgeBlobGranules (key_range strinc_spec "R_" "00000002") 1 None true))))
    by (repeat exec_step).
  split; [exact HJ |]. split; [exact Hex |].
  exact (proj1 (proj2 (@driver_calls_on_registered_ranges randomExp_spec strinc_spec _ _ _ _ HJ Hex))
           _ _ eq_refl).
Defined.

Lemma verifyRangeUnit_blobbifies_and_tears_down_witness :
  exec randomExp_spec unit_side 200 w_init (verifyRangeUnit range_U) verify_unit_trace (Done w_init tt) /\
  exists purgeKey,
    writes verify_unit_trace
    = Ev (BlobbifyRange (unit_active range_U)) true
      :: teardown_trace (unit_active range_U) purgeKey.
Proof.
  assert (Hex : exec randomExp_spec unit_side 200 w_init (verifyRangeUnit range_U) verify_unit_trace
                     (Done w_init tt))
    by (repeat exec_step).
  split; [exact Hex |].
  exact (@verifyRangeUnit_blobbifies_and_tears_down randomExp_spec unit_side _ _ _ _ _ Hex).
Defined.

Lemma reBlobbifyUnit_blobbifies_twice_witness :
  exec randomExp_spec unit_side 200 w_init (reBlobbifyUnit range_U) reblobbify_trace (Done w_init tt) /\
  exists purgeKey1 purgeKey2,
    writes reblobbify_trace
    = (Ev (BlobbifyRange range_U) true :: teardown_trace range_U purgeKey1)
      ++ Ev (BlobbifyRange range_U) true :: teardown_trace range_U purgeKey2.
Proof.
  assert (Hex : exec randomExp_spec unit_side 200 w_init (reBlobbifyUnit range_U) reblobbify_trace (Done w_init tt))
    by (repeat exec_step).
  split; [exact Hex |].
  exact (@reBlobbifyUnit_blobbifies_twice randomExp_spec unit_side _ _ _ _ _ Hex).
Defined.

Lemma verifyRangeGapUnit_blobbifies_all_but_the_gap_witness :
  exec randomExp_spec unit_side 200 w_init (verifyRangeGapUnit range_U) gap_unit_trace (Done w_init tt) /\
  exists e g purgeKey1 purgeKey2 rest,
    0 <= e /\ 0 <= g < e + 1 /\
    gap_unit_trace = Ev (RandomExp 3 6) e :: Ev (RandomInt 0 (e + 1)) g :: rest /\
    writes gap_unit_trace = gap_writes range_U e g purgeKey1 purgeKey2.
Proof.
  assert (Hex : exec randomExp_spec unit_side 200 w_init (verifyRangeGapUnit range_U) gap_unit_trace
                     (Done w_init tt))
    by (repeat exec_step).
  split; [exact Hex |].
  exact (@verifyRangeGapUnit_blobbifies_all_but_the_gap randomExp_spec unit_side _ _ _ _ _ Hex).
Defined.

Lemma operationsPerSecond_at_least_1_witness :
  1 <= 3 /\
  exec randomExp_spec unit_side 5 w_init (BlobGranuleRangesWorkload 1 3 30 None)
       (ctor_draws 30 10 2 double_half) (Done w_init w3_client1) /\
  exists dflt e r,
    ctor_draws 30 10 2 double_half = ctor_draws 30 dflt e r /\ 1 <= dflt < 100 /\
    operationsPerSecond w3_client1
    = Z.max 1 ((match @None Z with Some v => v | None => dflt end) / 3) /\
    1 <= operationsPerSecond w3_client1 /\
    (@None Z = None -> operationsPerSecond w3_client1 <= 99).
Proof.
  assert (Hex : exec randomExp_spec unit_side 5 w_init (BlobGranuleRangesWorkload 1 3 30 None)
                     (ctor_draws 30 10 2 double_half) (Done w_init w3_client1))
    by (ctor_run 1).
  split; [lia |]. split; [exact Hex |].
  exact (@operationsPerSecond_at_least_1 randomExp_spec unit_side 1 3 30 None 5 w_init _ w_init w3_client1
           ltac:(lia) Hex).
Defined.

Lemma any_two_clients_ranges_disjoint_witness :
  strinc_below_next strinc_spec /\ 0 <= 1 < 2 /\ 2 <= 214 /\
  exec randomExp_spec unit_side 5 w_init (BlobGranuleRangesWorkload 1 3 30 None)
       (ctor_draws 30 10 2 double_half) (Done w_init w3_client1) /\
  exec randomExp_spec unit_side 5 w_init (BlobGranuleRangesWorkload 2 3 30 None)
       (ctor_draws 30 10 2 double_half) (Done w_init w3_client2) /\
  sequential w3_client1 = true /\
  keys_run randomExp_spec unit_side w3_client1 ["00989682"] (set_nextKey w3_client1 10000002) /\
  keys_run randomExp_spec unit_side w3_client2 ["01312d02"] (set_nextKey w3_client2 20000002) /\
  nextKey (set_nextKey w3_client1 10000002) < 10000000 * (1 + 1) /\
  ~ ranges_overlap (key_range strinc_spec "U_" "00989682")
                   (key_range strinc_spec "R_" "01312d02").
Proof.
  assert (H1 : exec randomExp_spec unit_side 5 w_init (BlobGranuleRangesWorkload 1 3 30 None)
                    (ctor_draws 30 10 2 double_half) (Done w_init w3_client1))
    by (ctor_run 1).
  assert (H2 : exec randomExp_spec unit_side 5 w_init (BlobGranuleRangesWorkload 2 3 30 None)
                    (ctor_draws 30 10 2 double_half) (Done w_init w3_client2))
    by (ctor_run 1).
  assert (K1 : keys_run randomExp_spec unit_side w3_client1 ["00989682"] (set_nextKey w3_client1 10000002)).
  { apply keys_run_cons with (w1 := set_nextKey w3_client1 10000002) (n := 3%nat) (tr := []);
      [repeat exec_step | apply keys_run_nil]. }
  assert (K2 : keys_run randomExp_spec unit_side w3_client2 ["01312d02"] (set_nextKey w3_client2 20000002)).
  { apply keys_run_cons with (w1 := set_nextKey w3_client2 20000002) (n := 3%nat) (tr := []);
      [repeat exec_step | apply keys_run_nil]. }
  assert (L : nextKey (set_nextKey w3_client1 10000002) < 10000000 * (1 + 1))
    by (simpl; lia).
  split; [exact strinc_spec_below_next |]. split; [lia |]. split; [lia |].
  split; [exact H1 |]. split; [exact H2 |]. split; [reflexivity |].
  split; [exact K1 |]. split; [exact K2 |]. split; [exact L |].
  apply (@any_two_clients_ranges_disjoint randomExp_spec unit_side strinc_spec 30 3 1 2 None None 5 5
           w_init w_init _ _ w_init w_init w3_client1 w3_client2 _ _ _ _
           strinc_spec_below_next ltac:(lia) ltac:(lia) H1 H2 eq_refl K1 K2 L
           "00989682" "01312d02" "U_" "R_"); simpl; auto.
Defined.

Lemma check_stops_unit_tests_witness :
  exec randomExp_spec unit_side 5 (check w_client0) (blobGranuleRangesUnitTests strinc_spec) []
       (Done (check w_client0) tt) /\
  @nil event = [] /\
  Done (check w_client0) tt = Done (check w_client0) tt.
Proof.
  assert (Hex : exec randomExp_spec unit_side 5 (check w_client0) (blobGranuleRangesUnitTests strinc_spec) []
                     (Done (check w_client0) tt))
    by (repeat exec_step).
  split; [exact Hex |].
  exact (@check_stops_unit_tests randomExp_spec unit_side strinc_spec w_client0 _ _ _ Hex).
Defined.

Lemma start_actors_keep_to_their_ranges_witness :
  lists_registered strinc_spec w_client0 /\
  exec randomExp_spec unit_side 40 w_client0 (unitClient (start strinc_spec 30 w_client0)) unit_pass_trace
       (Suspended (set_nextKey w_client0 2) (Call (BlobbifyRange range_UA))) /\
  String.prefix "U_" (range_begin range_UA) = true.
Proof.
  assert (HJ : lists_registered strinc_spec w_client0) by (split; constructor).
  assert (Hex : exec randomExp_spec unit_side 40 w_client0 (unitClient (start strinc_spec 30 w_client0))
                     unit_pass_trace
                     (Suspended (set_nextKey w_client0 2) (Call (BlobbifyRange range_UA))))
    by (repeat exec_step).
  split; [exact HJ |]. split; [exact Hex |].
  exact (proj2 (proj2 (@start_actors_keep_to_their_ranges randomExp_spec unit_side strinc_spec 30 w_client0
                         _ _ _ _ HJ) Hex) _ _ range_UA eq_refl eq_refl).
Defined.

Lemma gap_boundaries_increase_witness :
  1 <= 4 <= 65537 /\
  (forall s, key_lt (withSuffix (range_begin range_U) s) (range_end range_U)) /\
  gap_boundaries range_U 4
  = ["U_00000002"; "U_000000020000"; "U_000000020001"; "U_000000020002"; "U_00000003"] /\
  Sorted key_lt (gap_boundaries range_U 4).
Proof.
  assert (Hend : forall s, key_lt (withSuffix (range_begin range_U) s) (range_end range_U))
    by (intros s; reflexivity).
  split; [lia |]. split; [exact Hend |]. split; [reflexivity |].
  exact (proj1 (@gap_boundaries_increase range_U 4 ltac:(lia) Hend)).
Defined.

Lemma sequentialGap_by_seed_witness :
  - 2 ^ 63 <= -30 < 2 ^ 63 /\
  exec randomExp_spec unit_side 5 w_init (BlobGranuleRangesWorkload 0 1 (-30) None)
       (ctor_draws (-30) 10 2 double_half) (Done w_init w_seed_m30) /\
  sequential w_seed_m30 = true /\
  sequentialGap w_seed_m30 = 0 /\
  exec randomExp_spec unit_side 3 w_seed_m30 newKey [] (Done w_seed_m30 "00000000").
Proof.
  assert (Hex : exec randomExp_spec unit_side 5 w_init
                     (BlobGranuleRangesWorkload 0 1 (-30) None)
                     (ctor_draws (-30) 10 2 double_half) (Done w_init w_seed_m30))
    by (ctor_run 2).
  pose proof (@sequentialGap_by_seed randomExp_spec unit_side 0 1 (-30) None 5 w_init
                (ctor_draws (-30) 10 2 double_half) w_init w_seed_m30 Hex)
    as (_ & Hzero & _ & Hseq & _ & Hrun).
  split; [lia |]. split; [exact Hex |].
  split; [apply Hseq; reflexivity |].
  split; [apply Hzero; split; reflexivity |].
  apply (Hrun w_seed_m30 eq_refl eq_refl).
  unfold in_int32, INT32_MIN, INT32_MAX. simpl. lia.
Defined.

Lemma targetRanges_truncated_witness :
  1 <= 1 /\
  exec randomExp_spec unit_side 5 w_init (BlobGranuleRangesWorkload 0 1 30 None)
       (ctor_draws 30 10 5 double_below_half) (Done w_init w_seed_30_e5) /\
  targetRanges w_seed_30_e5 = 5 /\
  exists dflt e r,
    ctor_draws 30 10 5 double_below_half = ctor_draws 30 dflt e r /\
    random01_ok r /\
    targetRanges w_seed_30_e5 =
      Z.max 1 (Qfloor (double_value (targetRanges_product e r) / inject_Z 1)) /\
    1 <= targetRanges w_seed_30_e5.
Proof.
  assert (Hex : exec randomExp_spec unit_side 5 w_init
                     (BlobGranuleRangesWorkload 0 1 30 None)
                     (ctor_draws 30 10 5 double_below_half) (Done w_init w_seed_30_e5))
    by (ctor_run 5).
  split; [lia |]. split; [exact Hex |]. split; [reflexivity |].
  exact (@targetRanges_truncated randomExp_spec unit_side 0 1 30 None 5 w_init
           (ctor_draws 30 10 5 double_below_half) w_init w_seed_30_e5 ltac:(lia) Hex).
Defined.


Lemma clients_ranges_disjoint_witness :
  strinc_below_next strinc_spec /\
  exec randomExp_spec unit_side 5 w_init (BlobGranuleRangesWorkload 0 2 (-30) None)
       (ctor_draws (-30) 10 2 double_half) (Done w_init w_m30_client0) /\
  exec randomExp_spec unit_side 5 w_init (BlobGranuleRangesWorkload 1 2 (-30) None)
       (ctor_draws (-30) 10 2 double_half) (Done w_init w_m30_client1) /\
  sequential w_m30_client0 = true /\
  keys_run randomExp_spec unit_side w_m30_client0 ["00000000"; "00000000"] w_m30_client0 /\
  keys_run randomExp_spec unit_side w_m30_client1 ["00989680"] w_m30_client1 /\
  nextKey w_m30_client0 < 10000000 /\
  ~ ranges_overlap (key_range strinc_spec "R_" "00000000")
                   (key_range strinc_spec "R_" "00989680") /\
  sequentialGap w_m30_client0 = 0 /\
  ~ Sorted key_lt ["00000000"; "00000000"].
Proof.
  assert (H0 : exec randomExp_spec unit_side 5 w_init
                    (BlobGranuleRangesWorkload 0 2 (-30) None)
                    (ctor_draws (-30) 10 2 double_half) (Done w_init w_m30_client0))
    by (ctor_run 1).
  assert (H1 : exec randomExp_spec unit_side 5 w_init
                    (BlobGranuleRangesWorkload 1 2 (-30) None)
                    (ctor_draws (-30) 10 2 double_half) (Done w_init w_m30_client1))
    by (ctor_run 1).
  assert (K0 : keys_run randomExp_spec unit_side w_m30_client0
                 ["00000000"; "00000000"] w_m30_client0).
  { apply keys_run_cons with (w1 := w_m30_client0) (n := 3%nat) (tr := []);
      [repeat exec_step |].
    apply keys_run_cons with (w1 := w_m30_client0) (n := 3%nat) (tr := []);
      [repeat exec_step | apply keys_run_nil]. }
  assert (K1 : keys_run randomExp_spec unit_side w_m30_client1 ["00989680"] w_m30_client1).
  { apply keys_run_cons with (w1 := w_m30_client1) (n := 3%nat) (tr := []);
      [repeat exec_step | apply keys_run_nil]. }
  assert (L : nextKey w_m30_client0 < 10000000) by (simpl; lia).
  pose proof (@clients_ranges_disjoint randomExp_spec unit_side strinc_spec (-30) 2
                None None 5 5 w_init w_init _ _ w_init w_init
                w_m30_client0 w_m30_client1 _ _ _ _
                strinc_spec_below_next H0 H1 eq_refl K0 K1 L)
    as (_ & Hapart & Hsorted & _ & Hzero & _).
  repeat (split; [first [assumption | reflexivity | exact strinc_spec_below_next] |]).
  split; [apply Hapart; simpl; auto |].
  split; [apply Hzero; split; reflexivity |].
  intros Hs. apply Hsorted in Hs. simpl in Hs. lia.
Defined.

Lemma driver_oracle_order_witness :
  exec randomExp_spec unit_side 5 w_init (BlobGranuleRangesWorkload 0 1 (-30) None)
       (ctor_draws (-30) 10 2 double_half) (Done w_init w_seed_m30) /\
  activeRanges w_seed_m30 = [] /\ inactiveRanges w_seed_m30 = [] /\
  exec randomExp_spec unit_side 100 w_seed_m30 (driver strinc_spec) dup_trace
       (Suspended w_dup
          (Call (UnblobbifyRange (key_range strinc_spec "R_" "00000000")))) /\
  In (key_range strinc_spec "R_" "00000000") (activeRanges w_dup) /\
  In (key_range strinc_spec "R_" "00000000") (ranges_of blobbify_ok dup_trace) /\
  inactiveRanges w_dup = ranges_of unblobbify_ok dup_trace /\
  ~ registered_untouched (key_range strinc_spec "R_" "00000000") dup_trace
      [Call (UnblobbifyRange (key_range strinc_spec "R_" "00000000"))].
Proof.
  assert (Hc : exec randomExp_spec unit_side 5 w_init
                    (BlobGranuleRangesWorkload 0 1 (-30) None)
                    (ctor_draws (-30) 10 2 double_half) (Done w_init w_seed_m30))
    by (ctor_run 2).
  assert (Hex : exec randomExp_spec unit_side 100 w_seed_m30 (driver strinc_spec) dup_trace
                     (Suspended w_dup
                        (Call (UnblobbifyRange (key_range strinc_spec "R_" "00000000")))))
    by (repeat exec_step).
  assert (Hin : In (key_range strinc_spec "R_" "00000000") (activeRanges w_dup))
    by (left; reflexivity).
  pose proof (@driver_oracle_order randomExp_spec strinc_spec 100 w_seed_m30 dup_trace
                w_dup _ eq_refl eq_refl Hex) as (Hact & Hinact & _).
  split; [exact Hc |]. split; [reflexivity |]. split; [reflexivity |].
  split; [exact Hex |]. split; [exact Hin |].
  split; [exact (Hact _ Hin) |]. split; [exact Hinact |].
  intros (h1 & ev & h2 & _ & _ & Hall).
  apply Forall_app in Hall. destruct Hall as [_ Hp].
  inversion Hp as [| c l Ht _]; subst. discriminate Ht.
Defined.

Lemma driver_never_holds_a_range_twice_witness :
  activeRanges w_client0 = [] /\ inactiveRanges w_client0 = [] /\
  (sequential w_client0 = true -> 1 <= sequentialGap w_client0) /\
  exec randomExp_spec unit_side 100 w_client0 (driver strinc_spec) driver_trace_beside
       (Suspended w_driver_beside
          (Call (PurgeBlobGranules (key_range strinc_spec "R_" "00000002") 1 None true))) /\
  NoDup (uids driver_trace_beside) /\
  NoDup (ranges_of blobbify_ok driver_trace_beside) /\
  NoDup (activeRanges w_driver_beside ++ inactiveRanges w_driver_beside).
Proof.
  assert (Hgap : sequential w_client0 = true -> 1 <= sequentialGap w_client0)
    by (intros _; simpl; lia).
  assert (Hex : exec randomExp_spec unit_side 100 w_client0 (driver strinc_spec)
                     driver_trace_beside
       (Suspended w_driver_beside
          (Call (PurgeBlobGranules (key_range strinc_spec "R_" "00000002") 1 None true)))).
  { repeat exec_quiet. exec_step. repeat exec_quiet.
    exec_step_with exec_answered_newKey. repeat exec_step. }
  assert (Hnd : NoDup (uids driver_trace_beside)) by (simpl; constructor).
  split; [reflexivity |]. split; [reflexivity |]. split; [exact Hgap |].
  split; [exact Hex |]. split; [exact Hnd |].
  exact (@driver_never_holds_a_range_twice randomExp_spec strinc_spec 100 w_client0
           driver_trace_beside w_driver_beside _ eq_refl eq_refl Hgap Hex Hnd).
Defined.

(** C6 as stated fails: with one client, the draws 3 of [randomExp] and 1/4
    of [random01] give the product 2.7 (as a double, just above it); the
    constructor leaves [targetRanges] at 2, the formula with rounding
    gives 3. *)
Lemma targetRanges_not_rounded :
  1 <= 1 /\
  exec randomExp_spec unit_side 5 w_init (BlobGranuleRangesWorkload 0 1 30 None)
       (ctor_draws 30 10 3 double_quarter) (Done w_init w_seed_30) /\
  (double_value double_quarter == 1 # 4)%Q /\
  targetRanges w_seed_30 = 2 /\
  targetRanges_spec 3 (1 # 4) 1 = 3.
Proof.
  split; [lia |]. split; [ctor_run 2 |].
  split; [reflexivity |]. split; reflexivity.
Qed.
